(** * fastText [Dictionary] (src/dictionary.cc): a shallow embedding

    The vocabulary structure of fastText: an open-addressing hash index over
    an entry store, a byte tokenizer, character and word n-gram hashing,
    pruning with quantization, and the binary codec.

    Conventions of the embedding.
    - Fixed-width integers are [Z] with the wrap-around written out
      ([uint32], [int32], [uint64], [int64] below).
    - [char] is the signed 8-bit type of the x86-64 System V ABI.  The source
      depends on it: [readWord] stores [sbumpc()] in a [char] and compares it
      with [EOF], a test that can only succeed when [char] is signed.
    - [std::string] is [list ascii]; [std::vector<T>] is [list T];
      [std::unordered_map<int32_t,int32_t>] is [gmap Z Z].
    - [assert] is active (the build does not define NDEBUG); a failed
      assertion, an out-of-range index, a read of an uninitialised variable,
      [exit] and an unbounded loop are the [fault]s of the [result] monad. *)

From Stdlib Require Import ZArith Ascii String List Lia Permutation Sorted.
From stdpp Require Import base tactics option list sorting gmap strings.

Local Open Scope Z_scope.

(** ** Machine integers *)

Definition uint32 (z : Z) : Z := z mod 2^32.
Definition uint64 (z : Z) : Z := z mod 2^64.
Definition int32 (z : Z) : Z := (z + 2^31) mod 2^32 - 2^31.
Definition int64 (z : Z) : Z := (z + 2^63) mod 2^64 - 2^63.

(** The value of a byte read as [unsigned char] and as (signed) [char]. *)
Definition byte_value (c : ascii) : Z := Z.of_N (N_of_ascii c).
Definition char_value (c : ascii) : Z :=
  if byte_value c <? 128 then byte_value c else byte_value c - 256.

Definition str := list ascii.

(** A string literal as a [std::string]. *)
Definition lit (s : string) : str := list_ascii_of_string s.

(** ** Faults and the result monad *)

Inductive fault : Set :=
| Diverges          (* a loop that never exits *)
| AssertionFailed   (* assert(...) *)
| OutOfRange        (* vector index past the end *)
| UninitRead        (* read of an uninitialised local *)
| ExitFailure       (* exit(EXIT_FAILURE) *)
| ShortRead         (* the stream ends inside a fixed-width field *)
| InvalidEnum.      (* a type tag that is no enumerator of entry_type *)

Inductive result (A : Type) : Type :=
| Ok (a : A)
| Err (f : fault).
Arguments Ok {A} a.
Arguments Err {A} f.

Definition bind {A B} (r : result A) (k : A -> result B) : result B :=
  match r with
  | Ok a => k a
  | Err f => Err f
  end.

Notation "'let*' x := r 'in' k" := (bind r (fun x => k))
  (at level 10, x name, r at level 200, k at level 200, only parsing).
Notation "'let*' ' p := r 'in' k" := (bind r (fun x => let 'p := x in k))
  (at level 10, p strict pattern, r at level 200, k at level 200, only parsing).

Definition assert (b : bool) : result unit :=
  if b then Ok tt else Err AssertionFailed.

(** [v[i]] on a vector. *)
Definition at_index {A} (v : list A) (i : Z) : result A :=
  if i <? 0 then Err OutOfRange
  else match v !! Z.to_nat i with
       | Some a => Ok a
       | None => Err OutOfRange
       end.

(** ** Dictionary::hash

<<
uint32_t Dictionary::hash(const std::string& str) const {
  uint32_t h = 2166136261;
  for (size_t i = 0; i < str.size(); i++) {
    h = h ^ uint32_t(str[i]);
    h = h * 16777619;
  }
  return h;
}
>>
    [uint32_t(str[i])] converts a signed [char]: a byte of 0x80 and above
    is sign-extended to 32 bits before the XOR. *)

Definition hash_step (h : Z) (c : ascii) : Z :=
  let h := Z.lxor h (uint32 (char_value c)) in
  uint32 (h * 16777619).

Definition hash (s : str) : Z := fold_left hash_step s 2166136261.

(** The 32-bit FNV-1a hash as the specification words it: XOR the byte value
    (0..255) into the accumulator, multiply by the FNV prime, modulo 2^32. *)
Definition fnv1a_step (acc : Z) (c : ascii) : Z :=
  (Z.lxor acc (byte_value c) * 16777619) mod 2^32.

Definition fnv1a_32 (s : str) : Z := fold_left fnv1a_step s 2166136261.

(** The upper 24 bits, set by the sign extension of a byte >= 0x80. *)
Definition sign_bits (c : ascii) : Z :=
  if byte_value c <? 128 then 0 else 4294967040.

Definition fnv1a_signed_step (acc : Z) (c : ascii) : Z :=
  (Z.lxor (Z.lxor acc (byte_value c)) (sign_bits c) * 16777619) mod 2^32.


(** ** Entries, arguments and the dictionary state *)

(** Modelled from the spec: the enum [entry_type] of dictionary.h, which is
    not under src/.  The type of an entry is word or label, and words sort
    before labels ("type ascending"), so [word] has the smaller tag. *)
Module entry_type.
Inductive t : Set := word | label.
Definition tag (x : t) : Z := match x with word => 0 | label => 1 end.
Definition ltb (a b : t) : bool := tag a <? tag b.
#[global] Instance eq_dec : EqDecision t.
Proof. solve_decision. Defined.
End entry_type.

(** Modelled from the spec: the enum [model_name] of args.h, which is not
    under src/.  The source only tests for the fully-supervised kind. *)
Inductive model_name : Set := cbow | sg | sup.
#[global] Instance model_name_eq_dec : EqDecision model_name.
Proof. solve_decision. Defined.

(** struct entry: word text, count (int64_t), type, cached subword ids. *)
Record entry : Type := {
  word : str;
  count : Z;
  type : entry_type.t;
  subwords : list Z
}.

(** The comparator that [threshold] passes to [std::sort]:
<<
  if (e1.type != e2.type) return e1.type < e2.type;
  return e1.count > e2.count;
>> *)
Definition entry_before (e1 e2 : entry) : bool :=
  if decide (type e1 ≠ type e2) then entry_type.ltb (type e1) (type e2)
  else count e1 >? count e2.

(** What the C++ standard library and the floating-point unit do, as far as
    the dictionary uses them.  [std::sort] leaves the order of equivalent
    elements open and [std::unordered_map] its iteration order, so both are
    operations of the platform; so are the [real] numbers and the random
    generator of the subsampling test. *)
Class Platform : Type := {
  real : Type;
  (* rand > pdiscard_[id] *)
  real_gt : real -> real -> bool;
  (* sqrt(t / f) + t / f  with f = real(count) / real(ntokens) *)
  discard_threshold : real -> Z -> Z -> real;
  (* std::minstd_rand and std::uniform_real_distribution<>(0, 1) *)
  minstd_rand : Type;
  minstd_rand_default : minstd_rand;
  uniform : minstd_rand -> real * minstd_rand;
  (* std::sort(first, last, entry_before) *)
  std_sort : list entry -> list entry;
  (* the order in which an unordered_map<int32_t,int32_t> is traversed *)
  umap_iter : gmap Z Z -> list (Z * Z)
}.

(** The guarantees of the standard the platform has to meet. *)
Class PlatformLaws (P : Platform) : Prop := {
  std_sort_perm : forall l, Permutation (std_sort l) l;
  std_sort_sorted : forall l,
    StronglySorted (fun a b => entry_before b a = false) (std_sort l);
  umap_iter_perm : forall m, Permutation (umap_iter m) (map_to_list m)
}.

(** The two constants of dictionary.h, which is not under src/; they are
    parameters of the development ([int32_t] in the header). *)
Class Constants : Type := {
  MAX_VOCAB_SIZE : Z;
  MAX_LINE_SIZE : Z
}.

Section Dictionary.
Context {P : Platform} {C : Constants}.

(** The fields of [Args] (args.h) that dictionary.cc reads. *)
Record Args : Type := {
  label : str;
  model : model_name;
  minn : Z;
  maxn : Z;
  bucket : Z;
  wordNgrams : Z;
  minCount : Z;
  minCountLabel : Z;
  t : real
}.

Record Dictionary : Type := {
  args_ : Args;
  words_ : list entry;
  pdiscard_ : list real;
  word2int_ : list Z;
  size_ : Z;
  nwords_ : Z;
  nlabels_ : Z;
  ntokens_ : Z;
  quant_ : bool;
  quantidx_ : gmap Z Z
}.

Definition EOS : str := lit "</s>".
Definition BOW : str := lit "<".
Definition EOW : str := lit ">".

(** Dictionary::Dictionary *)
Definition Dictionary_new (args : Args) : Dictionary := {|
  args_ := args;
  words_ := [];
  pdiscard_ := [];
  word2int_ := replicate (Z.to_nat MAX_VOCAB_SIZE) (-1);
  size_ := 0;
  nwords_ := 0;
  nlabels_ := 0;
  ntokens_ := 0;
  quant_ := false;
  quantidx_ := ∅
|}.

(** ** Dictionary::find

<<
  int32_t h = hash(w) % MAX_VOCAB_SIZE;
  while (word2int_[h] != -1 && words_[word2int_[h]].word != w) {
    h = (h + 1) % MAX_VOCAB_SIZE;
  }
  return h;
>>
    The probe visits the slots cyclically, and nothing changes while it
    runs: if [MAX_VOCAB_SIZE] tests did not leave the loop, none ever will.
    The fuel of [find] is therefore the capacity. *)
Fixpoint find_loop (fuel : nat) (words : list entry) (index : list Z)
    (w : str) (h : Z) : result Z :=
  match fuel with
  | O => Err Diverges
  | S fuel' =>
      let* id := at_index index h in
      if id =? -1 then Ok h
      else
        let* e := at_index words id in
        if decide (word e ≠ w)
        then find_loop fuel' words index w (Z.rem (int32 (h + 1)) MAX_VOCAB_SIZE)
        else Ok h
  end.

Definition find_in (words : list entry) (index : list Z) (w : str) : result Z :=
  find_loop (Z.to_nat MAX_VOCAB_SIZE) words index w
            (int32 (hash w mod uint32 MAX_VOCAB_SIZE)).

Definition find (d : Dictionary) (w : str) : result Z :=
  find_in (words_ d) (word2int_ d) w.

(** Dictionary::getId *)
Definition getId (d : Dictionary) (w : str) : result Z :=
  let* h := find d w in
  at_index (word2int_ d) h.

(** [v[i] = x] on a vector. *)
Definition store_at {A} (v : list A) (i : Z) (x : A) : result (list A) :=
  if (0 <=? i) && (i <? Z.of_nat (length v)) then Ok (<[Z.to_nat i := x]> v)
  else Err OutOfRange.

(** Field updates. *)
Definition set_words_ (ws : list entry) (d : Dictionary) : Dictionary :=
  {| args_ := args_ d; words_ := ws; pdiscard_ := pdiscard_ d;
     word2int_ := word2int_ d; size_ := size_ d; nwords_ := nwords_ d;
     nlabels_ := nlabels_ d; ntokens_ := ntokens_ d; quant_ := quant_ d;
     quantidx_ := quantidx_ d |}.
Definition set_pdiscard_ (pd : list real) (d : Dictionary) : Dictionary :=
  {| args_ := args_ d; words_ := words_ d; pdiscard_ := pd;
     word2int_ := word2int_ d; size_ := size_ d; nwords_ := nwords_ d;
     nlabels_ := nlabels_ d; ntokens_ := ntokens_ d; quant_ := quant_ d;
     quantidx_ := quantidx_ d |}.
Definition set_word2int_ (ix : list Z) (d : Dictionary) : Dictionary :=
  {| args_ := args_ d; words_ := words_ d; pdiscard_ := pdiscard_ d;
     word2int_ := ix; size_ := size_ d; nwords_ := nwords_ d;
     nlabels_ := nlabels_ d; ntokens_ := ntokens_ d; quant_ := quant_ d;
     quantidx_ := quantidx_ d |}.
Definition set_counters (size nwords nlabels : Z) (d : Dictionary) : Dictionary :=
  {| args_ := args_ d; words_ := words_ d; pdiscard_ := pdiscard_ d;
     word2int_ := word2int_ d; size_ := size; nwords_ := nwords;
     nlabels_ := nlabels; ntokens_ := ntokens_ d; quant_ := quant_ d;
     quantidx_ := quantidx_ d |}.
Definition set_ntokens_ (n : Z) (d : Dictionary) : Dictionary :=
  {| args_ := args_ d; words_ := words_ d; pdiscard_ := pdiscard_ d;
     word2int_ := word2int_ d; size_ := size_ d; nwords_ := nwords_ d;
     nlabels_ := nlabels_ d; ntokens_ := n; quant_ := quant_ d;
     quantidx_ := quantidx_ d |}.
Definition set_quantidx_ (q : gmap Z Z) (d : Dictionary) : Dictionary :=
  {| args_ := args_ d; words_ := words_ d; pdiscard_ := pdiscard_ d;
     word2int_ := word2int_ d; size_ := size_ d; nwords_ := nwords_ d;
     nlabels_ := nlabels_ d; ntokens_ := ntokens_ d; quant_ := quant_ d;
     quantidx_ := q |}.
Definition set_quant_ (b : bool) (d : Dictionary) : Dictionary :=
  {| args_ := args_ d; words_ := words_ d; pdiscard_ := pdiscard_ d;
     word2int_ := word2int_ d; size_ := size_ d; nwords_ := nwords_ d;
     nlabels_ := nlabels_ d; ntokens_ := ntokens_ d; quant_ := b;
     quantidx_ := quantidx_ d |}.

Definition bump_count (e : entry) : entry :=
  {| word := word e; count := int64 (count e + 1); type := type e;
     subwords := subwords e |}.

(** [w.find(p) == 0]: [p] is a prefix of [w]. *)
Fixpoint starts_with (p w : str) : bool :=
  match p, w with
  | [], _ => true
  | a :: p', b :: w' => if decide (a = b) then starts_with p' w' else false
  | _ :: _, [] => false
  end.

(** ** Dictionary::add

<<
  int32_t h = find(w);
  ntokens_++;
  if (word2int_[h] == -1) {
    entry e;
    e.word = w;
    e.count = 1;
    e.type = (w.find(args_->label) == 0) ? entry_type::label : entry_type::word;
    words_.push_back(e);
    word2int_[h] = size_++;
  } else {
    words_[word2int_[h]].count++;
  }
>> *)
Definition add (d : Dictionary) (w : str) : result Dictionary :=
  let* h := find d w in
  let d := set_ntokens_ (int64 (ntokens_ d + 1)) d in
  let* id := at_index (word2int_ d) h in
  if id =? -1 then
    let e := {| word := w; count := 1;
                type := if starts_with (label (args_ d)) w
                        then entry_type.label else entry_type.word;
                subwords := [] |} in
    let* ix := store_at (word2int_ d) h (size_ d) in
    Ok (set_counters (int32 (size_ d + 1)) (nwords_ d) (nlabels_ d)
          (set_word2int_ ix (set_words_ (words_ d ++ [e]) d)))
  else
    let* e := at_index (words_ d) id in
    let* ws := store_at (words_ d) id (bump_count e) in
    Ok (set_words_ ws d).

(** ** Dictionary::threshold

<<
  sort(words_.begin(), words_.end(), entry_before);
  words_.erase(remove_if(words_.begin(), words_.end(), [&](const entry& e) {
        return (e.type == entry_type::word && e.count < t) ||
               (e.type == entry_type::label && e.count < tl);
      }), words_.end());
  words_.shrink_to_fit();
  size_ = 0; nwords_ = 0; nlabels_ = 0;
  std::fill(word2int_.begin(), word2int_.end(), -1);
  for (auto it = words_.begin(); it != words_.end(); ++it) {
    int32_t h = find(it->word);
    word2int_[h] = size_++;
    if (it->type == entry_type::word) nwords_++;
    if (it->type == entry_type::label) nlabels_++;
  }
>> *)
Definition below_threshold (t tl : Z) (e : entry) : bool :=
  (bool_decide (type e = entry_type.word) && (count e <? t))
  || (bool_decide (type e = entry_type.label) && (count e <? tl)).

Fixpoint threshold_loop (words : list entry) (it : list entry)
    (index : list Z) (size nwords nlabels : Z)
    : result (list Z * Z * Z * Z) :=
  match it with
  | [] => Ok (index, size, nwords, nlabels)
  | e :: it' =>
      let* h := find_in words index (word e) in
      let* index := store_at index h size in
      let size := int32 (size + 1) in
      let nwords :=
        if decide (type e = entry_type.word) then int32 (nwords + 1) else nwords in
      let nlabels :=
        if decide (type e = entry_type.label) then int32 (nlabels + 1) else nlabels in
      threshold_loop words it' index size nwords nlabels
  end.

Definition threshold (d : Dictionary) (t tl : Z) : result Dictionary :=
  let ws := std_sort (words_ d) in
  let ws := List.filter (fun e => negb (below_threshold t tl e)) ws in
  let index := replicate (length (word2int_ d)) (-1) in
  let* '(index, size, nwords, nlabels) := threshold_loop ws ws index 0 0 0 in
  Ok (set_counters size nwords nlabels (set_word2int_ index (set_words_ ws d))).

(** ** Dictionary::computeNgrams (the two-argument overload)

<<
  for (size_t i = 0; i < word.size(); i++) {
    std::string ngram;
    if ((word[i] & 0xC0) == 0x80) continue;
    for (size_t j = i, n = 1; j < word.size() && n <= args_->maxn; n++) {
      ngram.push_back(word[j++]);
      while (j < word.size() && (word[j] & 0xC0) == 0x80) {
        ngram.push_back(word[j++]);
      }
      if (n >= args_->minn && !(n == 1 && (i == 0 || j == word.size()))) {
        int32_t h = hash(ngram) % args_->bucket;
        ngrams.push_back(nwords_ + h);
      }
    }
  }
>>
    The index [j] is carried as the suffix [word[j..]], so [j == word.size()]
    reads "the suffix is empty".  [n] is a [size_t] compared with [int]s,
    which are converted to unsigned.  [% args_->bucket] is left undefined by
    C++ when [bucket] is 0; the theorems about these ids assume it is not. *)
Definition is_continuation (c : ascii) : bool :=
  Z.land (char_value c) 192 =? 128.

(** while (j < word.size() && (word[j] & 0xC0) == 0x80) ngram.push_back(word[j++]); *)
Fixpoint take_continuation (rest ngram : str) : str * str :=
  match rest with
  | c :: rest' =>
      if is_continuation c then take_continuation rest' (ngram ++ [c])
      else (ngram, rest)
  | [] => (ngram, [])
  end.

Definition ngram_id (d : Dictionary) (ngram : str) : Z :=
  let h := int32 (hash ngram mod uint32 (bucket (args_ d))) in
  int32 (nwords_ d + h).

Fixpoint computeNgrams_inner (fuel : nat) (d : Dictionary) (i : Z)
    (rest : str) (n : Z) (ngram : str) (ngrams : list Z) : list Z :=
  match fuel, rest with
  | S fuel', c :: rest' =>
      if n <=? uint64 (maxn (args_ d)) then
        let '(ngram, rest) := take_continuation rest' (ngram ++ [c]) in
        let ngrams :=
          if (uint64 (minn (args_ d)) <=? n)
             && negb ((n =? 1) && ((i =? 0) || bool_decide (rest = [])))
          then ngrams ++ [ngram_id d ngram]
          else ngrams in
        computeNgrams_inner fuel' d i rest (n + 1) ngram ngrams
      else ngrams
  | _, _ => ngrams
  end.

Fixpoint computeNgrams_outer (d : Dictionary) (i : Z) (rest : str)
    (ngrams : list Z) : list Z :=
  match rest with
  | [] => ngrams
  | c :: rest' =>
      let ngrams :=
        if is_continuation c then ngrams
        else computeNgrams_inner (length rest) d i rest 1 [] ngrams in
      computeNgrams_outer d (i + 1) rest' ngrams
  end.

Definition computeNgrams (d : Dictionary) (word : str) (ngrams : list Z) : list Z :=
  computeNgrams_outer d 0 word ngrams.

(** [for (size_t i = 0; i < n; i++) body], [count] iterations from [i]. *)
Fixpoint for_loop {S : Type} (count : nat) (i : Z)
    (body : Z -> S -> result S) (s : S) : result S :=
  match count with
  | O => Ok s
  | Datatypes.S count' =>
      let* s' := body i s in for_loop count' (i + 1) body s'
  end.

Definition set_subwords (sw : list Z) (e : entry) : entry :=
  {| word := word e; count := count e; type := type e; subwords := sw |}.

(** ** Dictionary::initNgrams

<<
  for (size_t i = 0; i < size_; i++) {
    std::string word = BOW + words_[i].word + EOW;
    words_[i].subwords.push_back(i);
    computeNgrams(word, words_[i].subwords);
  }
>> *)
Definition initNgrams_body (d : Dictionary) (i : Z) (ws : list entry)
    : result (list entry) :=
  let* e := at_index ws i in
  let w := BOW ++ word e ++ EOW in
  store_at ws i (set_subwords (computeNgrams d w (subwords e ++ [int32 i])) e).

Definition initNgrams (d : Dictionary) : result Dictionary :=
  let* ws := for_loop (Z.to_nat (uint64 (size_ d))) 0 (initNgrams_body d) (words_ d) in
  Ok (set_words_ ws d).

(** ** Dictionary::initTableDiscard

<<
  pdiscard_.resize(size_);
  for (size_t i = 0; i < size_; i++) {
    real f = real(words_[i].count) / real(ntokens_);
    pdiscard_[i] = sqrt(args_->t / f) + args_->t / f;
  }
>>
    Every cell of the resized table is overwritten, so the table is built
    cell by cell. *)
Definition initTableDiscard_body (d : Dictionary) (i : Z) (pd : list real)
    : result (list real) :=
  let* e := at_index (words_ d) i in
  Ok (pd ++ [discard_threshold (t (args_ d)) (count e) (ntokens_ d)]).

Definition initTableDiscard (d : Dictionary) : result Dictionary :=
  let* pd := for_loop (Z.to_nat (uint64 (size_ d))) 0 (initTableDiscard_body d) [] in
  Ok (set_pdiscard_ pd d).

(** Dictionary::getType *)
Definition getType (d : Dictionary) (id : Z) : result entry_type.t :=
  let* _ := assert (0 <=? id) in
  let* _ := assert (id <? size_ d) in
  let* e := at_index (words_ d) id in
  Ok (type e).

(** Dictionary::discard *)
Definition discard (d : Dictionary) (id : Z) (rand : real) : result bool :=
  let* _ := assert (0 <=? id) in
  let* _ := assert (id <? nwords_ d) in
  if decide (model (args_ d) = sup) then Ok false
  else
    let* p := at_index (pdiscard_ d) id in
    Ok (real_gt rand p).

(** ** Input streams

    A [std::istream] over a seekable byte sequence: the bytes already
    extracted (most recent first), the bytes still to come, and the two
    state bits the dictionary looks at. *)
Record istream : Type := {
  before : list ascii;
  after : list ascii;
  eofbit : bool;
  failbit : bool
}.

Definition open_stream (content : list ascii) : istream :=
  {| before := []; after := content; eofbit := false; failbit := false |}.

Definition good (s : istream) : bool := negb (eofbit s) && negb (failbit s).

(** in.get(): [None] is [EOF]. *)
Definition istream_get (s : istream) : option ascii * istream :=
  if good s then
    match after s with
    | c :: rest =>
        (Some c, {| before := c :: before s; after := rest;
                    eofbit := false; failbit := false |})
    | [] => (None, {| before := before s; after := [];
                      eofbit := true; failbit := true |})
    end
  else (None, {| before := before s; after := after s;
                 eofbit := eofbit s; failbit := true |}).

(** in.peek() *)
Definition istream_peek (s : istream) : option ascii * istream :=
  if good s then
    match after s with
    | c :: _ => (Some c, s)
    | [] => (None, {| before := before s; after := [];
                      eofbit := true; failbit := failbit s |})
    end
  else (None, {| before := before s; after := after s;
                 eofbit := eofbit s; failbit := true |}).

(** in.clear(); in.seekg(std::streampos(0)); *)
Definition istream_rewind (s : istream) : istream :=
  {| before := []; after := rev (before s) ++ after s;
     eofbit := false; failbit := false |}.

(** ** Dictionary::readWord

<<
  char c;
  std::streambuf& sb = *in.rdbuf();
  word.clear();
  while ((c = sb.sbumpc()) != EOF) {
    if (c == ' ' || c == '\n' || c == '\r' || c == '\t' || c == '\v' || c == '\f' || c == '\0') {
      if (word.empty()) {
        if (c == '\n') {
          word += EOS;
          return true;
        }
        continue;
      } else {
        if (c == '\n')
          sb.sungetc();
        return true;
      }
    }
    word.push_back(c);
  }
  // trigger eofbit
  in.get();
  return !word.empty();
>>
    [c] is a [char]: the byte 0xFF becomes -1 and compares equal to [EOF],
    as the end of the stream does. *)
Definition newline : ascii := ascii_of_nat 10.

Definition is_delimiter (c : ascii) : bool :=
  bool_decide (c = " "%char) || bool_decide (c = newline)
  || bool_decide (c = ascii_of_nat 13) || bool_decide (c = ascii_of_nat 9)
  || bool_decide (c = ascii_of_nat 11) || bool_decide (c = ascii_of_nat 12)
  || bool_decide (c = ascii_of_nat 0).

Definition equals_EOF (c : ascii) : bool := char_value c =? -1.

(** The while loop; [None] when [sbumpc()] compared equal to [EOF],
    [Some b] for [return b].  [bef] and [aft] are the two sides of the get
    position. *)
Fixpoint readWord_loop (aft bef : list ascii) (word : str)
    : option bool * (list ascii * list ascii) * str :=
  match aft with
  | [] => (None, (bef, []), word)
  | c :: rest =>
      if equals_EOF c then (None, (c :: bef, rest), word)
      else if is_delimiter c then
        if bool_decide (word = []) then
          if bool_decide (c = newline)
          then (Some true, (c :: bef, rest), word ++ EOS)
          else readWord_loop rest (c :: bef) word
        else
          if bool_decide (c = newline)
          then (Some true, (bef, aft), word)
          else (Some true, (c :: bef, rest), word)
      else readWord_loop rest (c :: bef) (word ++ [c])
  end.

Definition readWord (s : istream) : bool * istream * str :=
  let '(r, (bef, aft), word) := readWord_loop (after s) (before s) [] in
  let s := {| before := bef; after := aft;
              eofbit := eofbit s; failbit := failbit s |} in
  match r with
  | Some b => (b, s, word)
  | None => (negb (bool_decide (word = [])), snd (istream_get s), word)
  end.

(** ** Dictionary::getLine (tokens)

<<
  if (in.eof()) {
    in.clear();
    in.seekg(std::streampos(0));
  }
  tokens.clear();
  std::string token;
  while (readWord(in, token)) {
    tokens.push_back(token);
    if (token == EOS) break;
    if (tokens.size() > MAX_LINE_SIZE && args_->model != model_name::sup) break;
  }
  return tokens.size();
>>
    Every [readWord] that returns true has taken at least one byte, so the
    loop runs at most once more than there are bytes to come. *)
Fixpoint getLine_tokens_loop (fuel : nat) (d : Dictionary) (s : istream)
    (tokens : list str) : result (istream * list str) :=
  match fuel with
  | O => Err Diverges
  | S fuel' =>
      let '(b, s, token) := readWord s in
      if b then
        let tokens := tokens ++ [token] in
        if decide (token = EOS) then Ok (s, tokens)
        else if (uint64 MAX_LINE_SIZE <? Z.of_nat (length tokens))
                && bool_decide (model (args_ d) ≠ sup)
        then Ok (s, tokens)
        else getLine_tokens_loop fuel' d s tokens
      else Ok (s, tokens)
  end.

Definition getLine_tokens (d : Dictionary) (s : istream)
    : result (istream * list str * Z) :=
  let s := if eofbit s then istream_rewind s else s in
  let* '(s, tokens) := getLine_tokens_loop (S (length (after s))) d s [] in
  Ok (s, tokens, int32 (Z.of_nat (length tokens))).

(** ** Dictionary::getLine (ids and raw hashes)

<<
  std::uniform_real_distribution<> uniform(0, 1);
  std::vector<std::string> tokens;
  getLine(in, tokens);
  words.clear();
  labels.clear();
  word_hashes.clear();
  int32_t ntokens = 0;
  for(auto it = tokens.cbegin(); it != tokens.cend(); ++it) {
    int32_t h = find( *it);
    int32_t wid = word2int_[h];
    if (wid < 0) {
      word_hashes.push_back(hash( *it));
      continue;
    }
    entry_type type = getType(wid);
    ntokens++;
    if (type == entry_type::word && !discard(wid, uniform(rng))) {
      words.push_back(wid);
      word_hashes.push_back(hash( *it));
    }
    if (type == entry_type::label) {
      labels.push_back(wid - nwords_);
    }
  }
  return ntokens;
>> *)
Record line : Type := {
  line_words : list Z;
  line_hashes : list Z;
  line_labels : list Z;
  line_ntokens : Z
}.

Definition empty_line : line :=
  {| line_words := []; line_hashes := []; line_labels := []; line_ntokens := 0 |}.

(** [type == entry_type::word && !discard(wid, uniform(rng))]: the generator
    is advanced only when the left operand holds. *)
Definition kept_word (d : Dictionary) (ty : entry_type.t) (wid : Z)
    (rng : minstd_rand) : result (bool * minstd_rand) :=
  if decide (ty = entry_type.word) then
    let '(rand, rng) := uniform rng in
    let* b := discard d wid rand in
    Ok (negb b, rng)
  else Ok (false, rng).

Fixpoint getLine_ids_loop (d : Dictionary) (tokens : list str) (l : line)
    (rng : minstd_rand) : result (line * minstd_rand) :=
  match tokens with
  | [] => Ok (l, rng)
  | tok :: tokens' =>
      let* h := find d tok in
      let* wid := at_index (word2int_ d) h in
      if wid <? 0 then
        getLine_ids_loop d tokens'
          {| line_words := line_words l;
             line_hashes := line_hashes l ++ [int32 (hash tok)];
             line_labels := line_labels l;
             line_ntokens := line_ntokens l |} rng
      else
        let* ty := getType d wid in
        let ntokens := int32 (line_ntokens l + 1) in
        let* '(keep, rng) := kept_word d ty wid rng in
        let words := if keep then line_words l ++ [wid] else line_words l in
        let hashes :=
          if keep then line_hashes l ++ [int32 (hash tok)] else line_hashes l in
        let labels :=
          if decide (ty = entry_type.label)
          then line_labels l ++ [int32 (wid - nwords_ d)] else line_labels l in
        getLine_ids_loop d tokens'
          {| line_words := words; line_hashes := hashes;
             line_labels := labels; line_ntokens := ntokens |} rng
  end.

Definition getLine_ids (d : Dictionary) (s : istream) (rng : minstd_rand)
    : result (istream * minstd_rand * line) :=
  let* '(s, tokens, _) := getLine_tokens d s in
  let* '(l, rng) := getLine_ids_loop d tokens empty_line rng in
  Ok (s, rng, l).

(** ** Dictionary::addNgrams

<<
  for (int32_t i = 0; i < hashes.size(); i++) {
    uint64_t h = hashes[i];
    for (int32_t j = i + 1; j < hashes.size() && j < i + n; j++) {
      h = h * 116049371 + hashes[j];
      int64_t id = h % args_->bucket;
      if (quantidx_.size() != 0) {
        if (quantidx_.find(id) != quantidx_.end()) {
          id = quantidx_.at(id);
        } else {continue;}
      }
      line.push_back(nwords_ + id);
    }
  }
>>
    [hashes[j..]] is carried as a suffix next to the index [j]. *)
Fixpoint addNgrams_inner (d : Dictionary) (rest : list Z) (j bound : Z)
    (h : Z) (ln : list Z) : list Z :=
  match rest with
  | [] => ln
  | hj :: rest' =>
      if j <? bound then
        let h := uint64 (h * 116049371 + uint64 hj) in
        let id := int64 (h mod uint64 (bucket (args_ d))) in
        let ln :=
          if decide (quantidx_ d = ∅) then ln ++ [int32 (nwords_ d + id)]
          else match quantidx_ d !! int32 id with
               | Some q => ln ++ [int32 (nwords_ d + q)]
               | None => ln
               end in
        addNgrams_inner d rest' (int32 (j + 1)) bound h ln
      else ln
  end.

Fixpoint addNgrams_outer (d : Dictionary) (rest : list Z) (i n : Z)
    (ln : list Z) : list Z :=
  match rest with
  | [] => ln
  | hi :: rest' =>
      let ln :=
        addNgrams_inner d rest' (int32 (i + 1)) (int32 (i + n)) (uint64 hi) ln in
      addNgrams_outer d rest' (int32 (i + 1)) n ln
  end.

Definition addNgrams (d : Dictionary) (ln hashes : list Z) (n : Z) : list Z :=
  addNgrams_outer d hashes 0 n ln.

(** ** Dictionary::getLine (ids, as the trainer calls it)

<<
  std::vector<int32_t> word_hashes;
  int32_t ntokens = getLine(in, words, word_hashes, labels, rng);
  if (args_->model == model_name::sup ) {
    if (quant_) {
      addNgrams(words, word_hashes, args_->wordNgrams);
    }
    else {
      std::vector<int32_t> ngrams;
      addNgrams(ngrams, words, args_->wordNgrams);
      words.insert(words.end(), ngrams.begin(), ngrams.end());
    }
  }
  return ntokens;
>>
    The result is the words, the labels and the returned count. *)
Definition getLine (d : Dictionary) (s : istream) (rng : minstd_rand)
    : result (istream * minstd_rand * (list Z * list Z * Z)) :=
  let* '(s, rng, l) := getLine_ids d s rng in
  let words :=
    if decide (model (args_ d) = sup) then
      if quant_ d then
        addNgrams d (line_words l) (line_hashes l) (wordNgrams (args_ d))
      else
        let ngrams := addNgrams d [] (line_words l) (wordNgrams (args_ d)) in
        line_words l ++ ngrams
    else line_words l in
  Ok (s, rng, (words, line_labels l, line_ntokens l)).

(** ** The binary codec

    [out.write((char* ) &x, sizeof x)] copies the object representation of
    [x]: on x86-64 the two's complement value, least significant byte
    first.  [sizeof(entry_type)] is 1 (the enum is based on [int8_t]). *)
Fixpoint le_bytes (n : nat) (z : Z) : list ascii :=
  match n with
  | O => []
  | S n' => ascii_of_N (Z.to_N (z mod 256)) :: le_bytes n' (z / 256)
  end.

Fixpoint le_value (bs : list ascii) : Z :=
  match bs with
  | [] => 0
  | b :: bs' => byte_value b + 256 * le_value bs'
  end.

Definition entry_type_of_tag (z : Z) : result entry_type.t :=
  if z =? 0 then Ok entry_type.word
  else if z =? 1 then Ok entry_type.label
  else Err InvalidEnum.

Definition NUL : ascii := ascii_of_nat 0.

(** ** Dictionary::save

<<
  out.write((char* ) &size_, sizeof(int32_t));
  out.write((char* ) &nwords_, sizeof(int32_t));
  out.write((char* ) &nlabels_, sizeof(int32_t));
  out.write((char* ) &ntokens_, sizeof(int64_t));
  for (int32_t i = 0; i < size_; i++) {
    entry e = words_[i];
    out.write(e.word.data(), e.word.size() * sizeof(char));
    out.put(0);
    out.write((char* ) &(e.count), sizeof(int64_t));
    out.write((char* ) &(e.type), sizeof(entry_type));
  }
  if (quant_) {
    auto ss = quantidx_.size();
    out.write((char* ) &(ss), sizeof(ss));
    for (auto it = quantidx_.begin(); it != quantidx_.end(); it++) {
      out.write((char* )&(it->first), sizeof(int32_t));
      out.write((char* )&(it->second), sizeof(int32_t));
    }
  }
>> *)
Definition save_entry (e : entry) : list ascii :=
  word e ++ [NUL] ++ le_bytes 8 (count e) ++ le_bytes 1 (entry_type.tag (type e)).

Definition save_body (d : Dictionary) (i : Z) (out : list ascii)
    : result (list ascii) :=
  let* e := at_index (words_ d) i in
  Ok (out ++ save_entry e).

Definition save_quant (d : Dictionary) : list ascii :=
  if quant_ d then
    le_bytes 8 (Z.of_nat (size (quantidx_ d)))
    ++ flat_map (fun kv => le_bytes 4 (fst kv) ++ le_bytes 4 (snd kv))
                (umap_iter (quantidx_ d))
  else [].

Definition save (d : Dictionary) : result (list ascii) :=
  let out := le_bytes 4 (size_ d) ++ le_bytes 4 (nwords_ d)
             ++ le_bytes 4 (nlabels_ d) ++ le_bytes 8 (ntokens_ d) in
  let* out := for_loop (Z.to_nat (size_ d)) 0 (save_body d) out in
  Ok (out ++ save_quant d).

(** in.read(p, n): a stream that cannot deliver [n] bytes leaves the
    destination indeterminate; the model stops there. *)
Definition istream_read (n : nat) (s : istream) : result (list ascii * istream) :=
  if good s && (n <=? length (after s))%nat then
    Ok (take n (after s),
        {| before := rev (take n (after s)) ++ before s;
           after := drop n (after s);
           eofbit := false; failbit := false |})
  else Err ShortRead.

Definition read_int32 (s : istream) : result (Z * istream) :=
  let* '(bs, s) := istream_read 4 s in Ok (int32 (le_value bs), s).

Definition read_int64 (s : istream) : result (Z * istream) :=
  let* '(bs, s) := istream_read 8 s in Ok (int64 (le_value bs), s).

(** [while ((c = in.get()) != 0) e.word.push_back(c);]  At the end of the
    stream [in.get()] keeps returning [EOF], which is not 0 as a [char]: the
    loop does not exit. *)
Fixpoint load_word_loop (aft bef : list ascii) (w : str)
    : result (str * (list ascii * list ascii)) :=
  match aft with
  | [] => Err Diverges
  | c :: rest =>
      if decide (c = NUL) then Ok (w, (c :: bef, rest))
      else load_word_loop rest (c :: bef) (w ++ [c])
  end.

Definition load_word (s : istream) : result (str * istream) :=
  if good s then
    let* '(w, (bef, aft)) := load_word_loop (after s) (before s) [] in
    Ok (w, {| before := bef; after := aft; eofbit := false; failbit := false |})
  else Err Diverges.

(** ** Dictionary::load

<<
  words_.clear();
  std::fill(word2int_.begin(), word2int_.end(), -1);
  in.read((char* ) &size_, sizeof(int32_t));
  in.read((char* ) &nwords_, sizeof(int32_t));
  in.read((char* ) &nlabels_, sizeof(int32_t));
  in.read((char* ) &ntokens_, sizeof(int64_t));
  for (int32_t i = 0; i < size_; i++) {
    char c;
    entry e;
    while ((c = in.get()) != 0) {
      e.word.push_back(c);
    }
    in.read((char* ) &e.count, sizeof(int64_t));
    in.read((char* ) &e.type, sizeof(entry_type));
    words_.push_back(e);
    word2int_[find(e.word)] = i;
  }
  if (quant_) {
    std::size_t size;
    in.read((char* ) &size, sizeof(std::size_t));
    for (auto i = 0; i < size; i++) {
      int32_t k, v;
      in.read((char* )&k, sizeof(int32_t));
      in.read((char* )&v, sizeof(int32_t));
      quantidx_[k] = v;
    }
  }
  initTableDiscard();
  initNgrams();
>> *)
Definition load_body (i : Z) (st : istream * list entry * list Z)
    : result (istream * list entry * list Z) :=
  let '(s, words, index) := st in
  let* '(w, s) := load_word s in
  let* '(c, s) := read_int64 s in
  let* '(tg, s) := istream_read 1 s in
  let* ty := entry_type_of_tag (le_value tg) in
  let e := {| word := w; count := c; type := ty; subwords := [] |} in
  let words := words ++ [e] in
  let* h := find_in words index w in
  let* index := store_at index h i in
  Ok (s, words, index).

Definition load_quant_body (i : Z) (st : istream * gmap Z Z)
    : result (istream * gmap Z Z) :=
  let '(s, q) := st in
  let* '(k, s) := read_int32 s in
  let* '(v, s) := read_int32 s in
  Ok (s, <[k := v]> q).

(** [for (auto i = 0; i < size; i++)] with [std::size_t size]: the counter
    is an [int].  The test compares it, converted to [std::size_t], with
    [size]; the increment is an [int] increment (it wraps like the other
    32-bit arithmetic here, so from [2^31 - 1] the counter goes to [-2^31],
    which the test reads as [2^64 - 2^31]).  Every iteration takes eight
    bytes from the stream or stops at a short read, so the bytes left in
    the stream bound the number of iterations: [load] gives the loop one
    more than that. *)
Fixpoint load_quant_loop (fuel : nat) (i size : Z) (st : istream * gmap Z Z)
    : result (istream * gmap Z Z) :=
  if uint64 i <? size then
    match fuel with
    | O => Err Diverges
    | S fuel' =>
        let* st := load_quant_body i st in
        load_quant_loop fuel' (int32 (i + 1)) size st
    end
  else Ok st.

Definition load (d : Dictionary) (s : istream) : result (Dictionary * istream) :=
  let index := replicate (length (word2int_ d)) (-1) in
  let* '(size, s) := read_int32 s in
  let* '(nwords, s) := read_int32 s in
  let* '(nlabels, s) := read_int32 s in
  let* '(ntokens, s) := read_int64 s in
  let* '(s, words, index) :=
    for_loop (Z.to_nat size) 0 load_body (s, [], index) in
  let* '(s, q) :=
    (if quant_ d then
       let* '(bs, s) := istream_read 8 s in
       load_quant_loop (S (length (after s))) 0 (le_value bs) (s, quantidx_ d)
     else Ok (s, quantidx_ d)) in
  let d := set_quantidx_ q (set_ntokens_ ntokens
             (set_counters size nwords nlabels
                (set_word2int_ index (set_words_ words d)))) in
  let* d := initTableDiscard d in
  let* d := initNgrams d in
  Ok (d, s).

(** ** Dictionary::convertNgrams

<<
  std::ifstream in(args_->input);
  if (!in.is_open()) {
    std::cerr << "Input file cannot be opened!" << std::endl;
    exit(EXIT_FAILURE);
  }
  std::unordered_map<int32_t, std::unordered_map<int32_t, int32_t>> convertMap;
  for (auto it = ngramidx.cbegin(); it != ngramidx.cend(); ++it) {
   convertMap[ *it] = std::unordered_map<int32_t, int32_t>();
  }
  std::vector<std::string> tokens;
  std::vector<int32_t> word_hashes, words, labels, oldhashes, newhashes;
  std::minstd_rand rng;
  while (in.peek() != EOF) {
    getLine(in, words, word_hashes, labels, rng);
    if (words.empty()) {continue;}
    oldhashes.clear(); newhashes.clear();
    addNgrams(oldhashes, words, args_->wordNgrams);
    addNgrams(newhashes, word_hashes, args_->wordNgrams);
    assert(newhashes.size() == oldhashes.size());
    for (int32_t i = 0; i < oldhashes.size(); i++) {
      auto oh = oldhashes[i];
      if (convertMap.find(oh) == convertMap.end()) {continue;}
      convertMap[oh][newhashes[i]]++;
    }
  }
  in.close();
  quantidx_.clear();
  std::vector<int32_t> remaining_indices;
  int32_t size = 0;
  for (auto it = ngramidx.begin(); it != ngramidx.end(); ++it) {
    auto cm = convertMap[ *it];
    int32_t newhash; int32_t count = -1;
    for (auto nit = cm.cbegin(); nit != cm.cend(); ++nit) {
      if (count < nit->second) {
        newhash = nit->first;
        count = nit->second;
      }
    }
    newhash -= nwords_;
    if (quantidx_.find(newhash) == quantidx_.end()) {
      quantidx_[newhash] = size;
      size++;
      remaining_indices.push_back( *it);
    }
  }
  ngramidx = remaining_indices;
>>
    The file named by [args_->input] is an argument: [None] when it cannot
    be opened, its bytes otherwise. *)

(** The inner tally loop over [oldhashes] and [newhashes]. *)
Fixpoint tally (oldhashes newhashes : list Z) (convertMap : gmap Z (gmap Z Z))
    : gmap Z (gmap Z Z) :=
  match oldhashes, newhashes with
  | oh :: olds, nh :: news =>
      let convertMap :=
        match convertMap !! oh with
        | None => convertMap
        | Some cm =>
            <[oh := <[nh := int32 (default 0 (cm !! nh) + 1)]> cm]> convertMap
        end in
      tally olds news convertMap
  | _, _ => convertMap
  end.

Fixpoint replay_loop (fuel : nat) (d : Dictionary) (s : istream)
    (rng : minstd_rand) (convertMap : gmap Z (gmap Z Z))
    : result (gmap Z (gmap Z Z)) :=
  match fuel with
  | O => Err Diverges
  | S fuel' =>
      let '(c, s) := istream_peek s in
      match c with
      | None => Ok convertMap
      | Some _ =>
          let* '(s, rng, l) := getLine_ids d s rng in
          if bool_decide (line_words l = []) then
            replay_loop fuel' d s rng convertMap
          else
            let n := wordNgrams (args_ d) in
            let oldhashes := addNgrams d [] (line_words l) n in
            let newhashes := addNgrams d [] (line_hashes l) n in
            let* _ := assert (bool_decide (length newhashes = length oldhashes)) in
            replay_loop fuel' d s rng (tally oldhashes newhashes convertMap)
      end
  end.

(** The most frequent companion of one n-gram id; [None] is the local
    [newhash] that was never assigned. *)
Definition most_frequent (cm : gmap Z Z) : option Z :=
  fst (fold_left (fun (acc : option Z * Z) (nit : Z * Z) =>
                    if snd acc <? snd nit then (Some (fst nit), snd nit) else acc)
                 (umap_iter cm) (None, -1)).

Fixpoint assign_loop (d : Dictionary) (convertMap : gmap Z (gmap Z Z))
    (ngramidx : list Z) (quantidx : gmap Z Z) (size : Z) (remaining : list Z)
    : result (gmap Z Z * list Z) :=
  match ngramidx with
  | [] => Ok (quantidx, remaining)
  | it :: ngramidx' =>
      let cm := default ∅ (convertMap !! it) in
      match most_frequent cm with
      | None => Err UninitRead
      | Some newhash =>
          let newhash := int32 (newhash - nwords_ d) in
          match quantidx !! newhash with
          | None =>
              assign_loop d convertMap ngramidx' (<[newhash := size]> quantidx)
                          (int32 (size + 1)) (remaining ++ [it])
          | Some _ =>
              assign_loop d convertMap ngramidx' quantidx size remaining
          end
      end
  end.

Definition convertNgrams (d : Dictionary) (input : option (list ascii))
    (ngramidx : list Z) : result (Dictionary * list Z) :=
  match input with
  | None => Err ExitFailure
  | Some content =>
      let convertMap : gmap Z (gmap Z Z) :=
        fold_left (fun m it => <[it := ∅]> m) ngramidx ∅ in
      let* convertMap :=
        replay_loop (S (length content)) d (open_stream content)
                    minstd_rand_default convertMap in
      let* '(q, remaining) := assign_loop d convertMap ngramidx ∅ 0 [] in
      Ok (set_quantidx_ q d, remaining)
  end.

(** ** Dictionary::prune

<<
  std::vector<int32_t> words, ngrams;
  for (auto it = idx.cbegin(); it != idx.cend(); ++it) {
    if ( *it < nwords_) {words.push_back( *it);}
    else {ngrams.push_back( *it);}
  }
  std::sort(words.begin(), words.end());
  idx = words;

  if (ngrams.size() != 0) {
    convertNgrams(ngrams);
    idx.insert(idx.end(), ngrams.begin(), ngrams.end());
  }

  std::fill(word2int_.begin(), word2int_.end(), -1);

  int32_t j = 0;
  for (int32_t i = 0; i < words_.size(); i++) {
    if (getType(i) == entry_type::label || (j < words.size() && words[j] == i)) {
      words_[j] = words_[i];
      word2int_[find(words_[j].word)] = j;
      j++;
    }
  }
  nwords_ = words.size();
  size_ = nwords_ +  nlabels_;
  words_.erase(words_.begin() + size_, words_.end());
>>
    Sorting integers has one outcome, so [std::sort] on ids is a merge
    sort. *)
Definition prune_body (d : Dictionary) (words : list Z) (i : Z)
    (st : list entry * list Z * Z) : result (list entry * list Z * Z) :=
  let '(ws, index, j) := st in
  let* ty := getType (set_words_ ws d) i in
  if bool_decide (ty = entry_type.label)
     || bool_decide (words !! Z.to_nat j = Some i)
  then
    let* e := at_index ws i in
    let* ws := store_at ws j e in
    let* h := find_in ws index (word e) in
    let* index := store_at index h j in
    Ok (ws, index, int32 (j + 1))
  else Ok (ws, index, j).

Definition prune (d : Dictionary) (input : option (list ascii)) (idx : list Z)
    : result (Dictionary * list Z) :=
  let words := merge_sort Z.le (List.filter (fun it => it <? nwords_ d) idx) in
  let ngrams := List.filter (fun it => negb (it <? nwords_ d)) idx in
  let* '(d, idx) :=
    (if bool_decide (ngrams = []) then Ok (d, words)
     else
       let* '(d, ngrams) := convertNgrams d input ngrams in
       Ok (d, words ++ ngrams)) in
  let index := replicate (length (word2int_ d)) (-1) in
  let* '(ws, index, _) :=
    for_loop (length (words_ d)) 0 (prune_body d words)
             (words_ d, index, 0) in
  let nwords := int32 (Z.of_nat (length words)) in
  let size := int32 (nwords + nlabels_ d) in
  let* _ := (if (0 <=? size) && (size <=? Z.of_nat (length ws))
             then Ok tt else Err OutOfRange) in
  Ok (set_counters size nwords (nlabels_ d)
        (set_word2int_ index (set_words_ (take (Z.to_nat size) ws) d)),
      idx).

(** ** Dictionary::readFromFile

<<
  std::string word;
  int64_t minThreshold = 1;
  while (readWord(in, word)) {
    add(word);
    if (ntokens_ % 1000000 == 0 && args_->verbose > 1) { ... progress ... }
    if (size_ > 0.75 * MAX_VOCAB_SIZE) {
      minThreshold++;
      threshold(minThreshold, minThreshold);
    }
  }
  threshold(args_->minCount, args_->minCountLabel);
  initTableDiscard();
  initNgrams();
  if (args_->verbose > 0) { ... report ... }
  if (size_ == 0) {
    std::cerr << "Empty vocabulary. Try a smaller -minCount value." << std::endl;
    exit(EXIT_FAILURE);
  }
>>
    [size_ > 0.75 * MAX_VOCAB_SIZE] compares two [double]s that are exact
    for 32-bit operands: it is [4 * size_ > 3 * MAX_VOCAB_SIZE]. *)
Fixpoint readFromFile_loop (fuel : nat) (d : Dictionary) (s : istream)
    (minThreshold : Z) : result (Dictionary * istream) :=
  match fuel with
  | O => Err Diverges
  | S fuel' =>
      let '(b, s, w) := readWord s in
      if b then
        let* d := add d w in
        if 3 * MAX_VOCAB_SIZE <? 4 * size_ d then
          let minThreshold := int64 (minThreshold + 1) in
          let* d := threshold d minThreshold minThreshold in
          readFromFile_loop fuel' d s minThreshold
        else readFromFile_loop fuel' d s minThreshold
      else Ok (d, s)
  end.

Definition readFromFile (d : Dictionary) (s : istream)
    : result (Dictionary * istream) :=
  let* '(d, s) := readFromFile_loop (S (length (after s))) d s 1 in
  let* d := threshold d (minCount (args_ d)) (minCountLabel (args_ d)) in
  let* d := initTableDiscard d in
  let* d := initNgrams d in
  if size_ d =? 0 then Err ExitFailure else Ok (d, s).

(** ** Dictionary::computeNgrams (the overload that also gives the substrings)

<<
  for (size_t i = 0; i < word.size(); i++) {
    std::string ngram;
    if ((word[i] & 0xC0) == 0x80) continue;
    for (size_t j = i, n = 1; j < word.size() && n <= args_->maxn; n++) {
      ngram.push_back(word[j++]);
      while (j < word.size() && (word[j] & 0xC0) == 0x80) {
        ngram.push_back(word[j++]);
      }
      if (n >= args_->minn && !(n == 1 && (i == 0 || j == word.size()))) {
        int32_t h = hash(ngram) % args_->bucket;
        ngrams.push_back(nwords_ + h);
        substrings.push_back(ngram);
      }
    }
  }
>> *)
Fixpoint computeNgrams_sub_inner (fuel : nat) (d : Dictionary) (i : Z)
    (rest : str) (n : Z) (ngram : str) (out : list Z * list str)
    : list Z * list str :=
  match fuel, rest with
  | S fuel', c :: rest' =>
      if n <=? uint64 (maxn (args_ d)) then
        let '(ngram, rest) := take_continuation rest' (ngram ++ [c]) in
        let out :=
          if (uint64 (minn (args_ d)) <=? n)
             && negb ((n =? 1) && ((i =? 0) || bool_decide (rest = [])))
          then (fst out ++ [ngram_id d ngram], snd out ++ [ngram])
          else out in
        computeNgrams_sub_inner fuel' d i rest (n + 1) ngram out
      else out
  | _, _ => out
  end.

Fixpoint computeNgrams_sub_outer (d : Dictionary) (i : Z) (rest : str)
    (out : list Z * list str) : list Z * list str :=
  match rest with
  | [] => out
  | c :: rest' =>
      let out :=
        if is_continuation c then out
        else computeNgrams_sub_inner (length rest) d i rest 1 [] out in
      computeNgrams_sub_outer d (i + 1) rest' out
  end.

Definition computeNgrams_sub (d : Dictionary) (word : str)
    (ngrams : list Z) (substrings : list str) : list Z * list str :=
  computeNgrams_sub_outer d 0 word (ngrams, substrings).

(** ** Dictionary::getNgrams

<<
const std::vector<int32_t>& Dictionary::getNgrams(int32_t i) const {
  assert(i >= 0);
  assert(i < nwords_);
  return words_[i].subwords;
}
>> *)
Definition getNgrams_id (d : Dictionary) (i : Z) : result (list Z) :=
  let* _ := assert (0 <=? i) in
  let* _ := assert (i <? nwords_ d) in
  let* e := at_index (words_ d) i in
  Ok (subwords e).

(**
<<
const std::vector<int32_t> Dictionary::getNgrams(const std::string& word) const {
  int32_t i = getId(word);
  if (i >= 0) {
    return getNgrams(i);
  }
  std::vector<int32_t> ngrams;
  computeNgrams(BOW + word + EOW, ngrams);
  return ngrams;
}
>> *)
Definition getNgrams (d : Dictionary) (w : str) : result (list Z) :=
  let* i := getId d w in
  if 0 <=? i then getNgrams_id d i
  else Ok (computeNgrams d (BOW ++ w ++ EOW) []).

(**
<<
void Dictionary::getNgrams(const std::string& word,
                           std::vector<int32_t>& ngrams,
                           std::vector<std::string>& substrings) const {
  int32_t i = getId(word);
  ngrams.clear();
  substrings.clear();
  if (i >= 0) {
    ngrams.push_back(i);
    substrings.push_back(words_[i].word);
  } else {
    ngrams.push_back(-1);
    substrings.push_back(word);
  }
  computeNgrams(BOW + word + EOW, ngrams, substrings);
}
>> *)
Definition getNgrams_sub (d : Dictionary) (w : str)
    : result (list Z * list str) :=
  let* i := getId d w in
  let* first :=
    (if 0 <=? i then
       let* e := at_index (words_ d) i in Ok (word e)
     else Ok w) in
  let i := if 0 <=? i then i else -1 in
  Ok (computeNgrams_sub d (BOW ++ w ++ EOW) [i] [first]).

(** Dictionary::getWord *)
Definition getWord (d : Dictionary) (id : Z) : result str :=
  let* _ := assert (0 <=? id) in
  let* _ := assert (id <? size_ d) in
  let* e := at_index (words_ d) id in
  Ok (word e).

(** Dictionary::getLabel
<<
  assert(lid >= 0);
  assert(lid < nlabels_);
  return words_[lid + nwords_].word;
>> *)
Definition getLabel (d : Dictionary) (lid : Z) : result str :=
  let* _ := assert (0 <=? lid) in
  let* _ := assert (lid <? nlabels_ d) in
  let* e := at_index (words_ d) (int32 (lid + nwords_ d)) in
  Ok (word e).

(** Dictionary::getCounts
<<
  std::vector<int64_t> counts;
  for (auto& w : words_) {
    if (w.type == type) counts.push_back(w.count);
  }
  return counts;
>> *)
Definition getCounts (d : Dictionary) (ty : entry_type.t) : list Z :=
  map count (List.filter (fun w => bool_decide (type w = ty)) (words_ d)).

End Dictionary.

(** ** A platform and constants to run the model on

    Reals in fixed point (units of 2^-20), the Lehmer generator of
    [std::minstd_rand], a merge sort for [std::sort] and the key order for
    the traversal of an [unordered_map]. *)
Definition entry_le (a b : entry) : Prop := entry_before b a = false.
#[global] Instance entry_le_dec : RelDecision entry_le.
Proof. intros a b. unfold entry_le. solve_decision. Defined.

#[global] Instance reference_platform : Platform := {|
  real := Z;
  real_gt := Z.gtb;
  discard_threshold := fun t count ntokens =>
    let tf := if count =? 0 then 0 else t * ntokens / count in
    Z.sqrt (tf * 2^20) + tf;
  minstd_rand := Z;
  minstd_rand_default := 1;
  uniform := fun x =>
    let x := 48271 * x mod 2147483647 in
    ((x - 1) * 2^20 / 2147483646, x);
  std_sort := merge_sort entry_le;
  umap_iter := map_to_list
|}.

(** The values of the constants in fastText's dictionary.h, and a small
    table for running examples. *)
Definition fastText_constants : Constants :=
  {| MAX_VOCAB_SIZE := 30000000; MAX_LINE_SIZE := 1024 |}.
Definition small_constants : Constants :=
  {| MAX_VOCAB_SIZE := 16; MAX_LINE_SIZE := 1024 |}.

Definition default_args (m : model_name) : Args := {|
  label := lit "__label__";
  model := m;
  minn := 3;
  maxn := 6;
  bucket := 2000000;
  wordNgrams := 1;
  minCount := 1;
  minCountLabel := 1;
  t := 105
|}.

Definition nl_str : string := String newline EmptyString.


(** * Specification predicates

    What the claims say about the hash index and the store, in terms of the
    probe sequence of [find]. *)

Section Predicates.
Context {P : Platform} {C : Constants}.

Definition probe (h : Z) (k : nat) : Z := (h + Z.of_nat k) mod MAX_VOCAB_SIZE.
Definition home (w : str) : Z := int32 (hash w mod uint32 MAX_VOCAB_SIZE).
Definition slot (index : list Z) (h : Z) : option Z := index !! Z.to_nat h.

Definition slot_holds (words : list entry) (index : list Z) (h : Z) (w : str)
  : Prop :=
  exists id e, slot index h = Some id /\ 0 <= id
               /\ words !! Z.to_nat id = Some e /\ word e = w.

Definition slot_occupied (index : list Z) (h : Z) : Prop :=
  exists id, slot index h = Some id /\ id <> -1.

Definition reachable (words : list entry) (index : list Z) (w : str) : Prop :=
  exists k, (k < Z.to_nat MAX_VOCAB_SIZE)%nat
            /\ slot_holds words index (probe (home w) k) w
            /\ forall j, (j < k)%nat -> slot_occupied index (probe (home w) j).

Definition occupied_slots (index : list Z) : nat :=
  length (List.filter (fun x => negb (x =? -1)) index).

Record index_ok (words : list entry) (index : list Z) (n : nat) : Prop := {
  ok_length : length index = Z.to_nat MAX_VOCAB_SIZE;
  ok_bound : (n <= length words)%nat;
  ok_valid : forall i id, index !! i = Some id ->
               id = -1 \/ 0 <= id < Z.of_nat n;
  ok_reach : forall p e, (p < n)%nat -> words !! p = Some e ->
               reachable words index (word e)
}.

Definition index_inv (words : list entry) (index : list Z) (n : nat) : Prop :=
  index_ok words index n /\ (occupied_slots index <= n)%nat.

(** The probe stops at the first slot that is empty or holds the word. *)
Definition probe_stops (words : list entry) (index : list Z) (w : str) (h : Z)
  : Prop :=
  slot index h = Some (-1) \/ (slot_occupied index h /\ slot_holds words index h w).

Definition probe_continues (words : list entry) (index : list Z) (w : str)
    (h : Z) : Prop :=
  exists id e, slot index h = Some id /\ id <> -1 /\ 0 <= id
               /\ words !! Z.to_nat id = Some e /\ word e <> w.

Definition in_store (words : list entry) (n : nat) (w : str) : Prop :=
  exists p e, (p < n)%nat /\ words !! p = Some e /\ word e = w.

Definition count_type (ty : entry_type.t) (l : list entry) : Z :=
  Z.of_nat (length (List.filter (fun e => bool_decide (type e = ty)) l)).

(** ** The invariant of a dictionary *)
Record dict_inv (d : Dictionary) : Prop := {
  di_index : index_inv (words_ d) (word2int_ d) (length (words_ d));
  di_size : size_ d = Z.of_nat (length (words_ d));
  di_nodup : NoDup (map word (words_ d))
}.

Definition new_entry (d : Dictionary) (w : str) : entry :=
  {| word := w; count := 1;
     type := if starts_with (label (args_ d)) w
             then entry_type.label else entry_type.word;
     subwords := [] |}.

Definition threshold_store (words : list entry) (t tl : Z) : list entry :=
  List.filter (fun e => negb (below_threshold t tl e)) (std_sort words).

(** Ingesting a token sequence: [add] on each token in turn. *)
Fixpoint add_all (d : Dictionary) (tokens : list str) : result Dictionary :=
  match tokens with
  | [] => Ok d
  | w :: tokens' => let* d := add d w in add_all d tokens'
  end.

(** The ordering the specification states for the entry sequence: words
    before labels, and within a type by count, largest first. *)
Definition grouped_sorted (ws : list entry) : Prop :=
  forall i j e1 e2, (i < j)%nat -> ws !! i = Some e1 -> ws !! j = Some e2 ->
    (type e2 = entry_type.word -> type e1 = entry_type.word)
    /\ (type e1 = type e2 -> count e2 <= count e1).

(** What an entry is to the specification: word text, count and type. *)
Definition triple (e : entry) : str * Z * entry_type.t :=
  (word e, count e, type e).

Definition scenario_tokens : list str := [lit "a"; lit "a"; lit "b"; EOS].

(** The store [prune] leaves: the entries that are labels or whose position
    is one of the selected word ids. *)
Fixpoint select_from (i : nat) (W : list Z) (l : list entry) : list entry :=
  match l with
  | [] => []
  | e :: l' =>
      if bool_decide (type e = entry_type.label) || bool_decide (Z.of_nat i ∈ W)
      then e :: select_from (S i) W l'
      else select_from (S i) W l'
  end.

(** The order of two entries one of which comes before the other. *)
Definition entry_order (e1 e2 : entry) : Prop :=
  (type e2 = entry_type.word -> type e1 = entry_type.word)
  /\ (type e1 = type e2 -> count e2 <= count e1).

(** A dictionary as [threshold] leaves it: the index consistent with the
    store, no word twice, the counters equal to what they count, and the
    store in order. *)
Record store_ok (d : Dictionary) : Prop := {
  so_inv : dict_inv d;
  so_cap : Z.of_nat (length (words_ d)) <= MAX_VOCAB_SIZE;
  so_nwords : nwords_ d = count_type entry_type.word (words_ d);
  so_nlabels : nlabels_ d = count_type entry_type.label (words_ d);
  so_order : grouped_sorted (words_ d)
}.

(** The word ids and the n-gram ids among the ids handed to [prune]. *)
Definition prune_words (d : Dictionary) (idx : list Z) : list Z :=
  merge_sort Z.le (List.filter (fun it => it <? nwords_ d) idx).
Definition prune_ngrams (d : Dictionary) (idx : list Z) : list Z :=
  List.filter (fun it => negb (it <? nwords_ d)) idx.

(** The bytes of a token, and the delimiters other than the newline. *)
Definition plain (c : ascii) : Prop :=
  is_delimiter c = false /\ equals_EOF c = false.
Definition blank (c : ascii) : Prop :=
  is_delimiter c = true /\ c <> newline.

(** The characters of a byte string are counted by the bytes that do not
    continue a UTF-8 sequence; a string is at a character boundary when it
    does not begin with a continuation byte. *)
Definition nchars (s : str) : Z :=
  Z.of_nat (length (List.filter (fun c => negb (is_continuation c)) s)).

Definition at_boundary (s : str) : Prop :=
  match s with
  | [] => True
  | c :: _ => is_continuation c = false
  end.

(** [s] is a character n-gram of [w] for the dictionary's [minn] and [maxn]:
    a run of whole characters of [w], of a length within the two bounds,
    that is not a single character at either end of [w]. *)
Definition char_ngram (d : Dictionary) (w s : str) : Prop :=
  exists pre post,
    w = pre ++ s ++ post /\ s <> [] /\ at_boundary s /\ at_boundary post
    /\ uint64 (minn (args_ d)) <= nchars s <= uint64 (maxn (args_ d))
    /\ ~ (nchars s = 1 /\ (pre = [] \/ post = [])).

(** ** Word n-grams

    The rolling hash of a run of token hashes, the runs of 2 to [n] tokens
    taken in the order [addNgrams] visits them, and the id a run gets. *)
Definition ngram_step (h x : Z) : Z := uint64 (h * 116049371 + uint64 x).

Definition ngram_hash (g : list Z) : Z :=
  match g with
  | [] => 0
  | x :: g' => fold_left ngram_step g' (uint64 x)
  end.

Definition grams_from (n : Z) (l : list Z) : list (list Z) :=
  map (fun k => take k l) (seq 2 (Nat.min (Z.to_nat n) (length l) - 1)).

Fixpoint word_ngrams (n : Z) (l : list Z) : list (list Z) :=
  match l with
  | [] => []
  | x :: l' => grams_from n (x :: l') ++ word_ngrams n l'
  end.

Definition wordngram_id (d : Dictionary) (g : list Z) : option Z :=
  let id := int64 (ngram_hash g mod uint64 (bucket (args_ d))) in
  if decide (quantidx_ d = ∅) then Some (int32 (nwords_ d + id))
  else (fun q => int32 (nwords_ d + q)) <$> quantidx_ d !! int32 id.

(** ** The tokens of a line against the vocabulary

    The first entry of the store with a given word text, and what a token
    contributes to the three vectors of [getLine]. *)
Definition vocab_entry (d : Dictionary) (tok : str) : option (nat * entry) :=
  list_find (fun e => word e = tok) (words_ d).

Definition in_vocab (d : Dictionary) (tok : str) : bool :=
  bool_decide (is_Some (vocab_entry d tok)).

Definition word_id (d : Dictionary) (tok : str) : option Z :=
  match vocab_entry d tok with
  | Some (i, e) =>
      if decide (type e = entry_type.word) then Some (Z.of_nat i) else None
  | None => None
  end.

Definition label_id (d : Dictionary) (tok : str) : option Z :=
  match vocab_entry d tok with
  | Some (i, e) =>
      if decide (type e = entry_type.label)
      then Some (Z.of_nat i - nwords_ d) else None
  | None => None
  end.

(** Out-of-vocabulary tokens and words leave a hash, labels do not. *)
Definition token_hash (d : Dictionary) (tok : str) : option Z :=
  match vocab_entry d tok with
  | Some (_, e) =>
      if decide (type e = entry_type.word) then Some (int32 (hash tok)) else None
  | None => Some (int32 (hash tok))
  end.

(** ** Streams and files

    A stream in good state with the given bytes still to come; the entries
    that fit the binary format; an entry as the file keeps it. *)
Definition ready (s : istream) (bytes : list ascii) : Prop :=
  good s = true /\ after s = bytes.

Definition entry_wf (e : entry) : Prop :=
  (NUL ∉ word e) /\ (-2^63 <= count e < 2^63).

Definition stored (e : entry) : entry := set_subwords [] e.

Definition int32_range (z : Z) : Prop := -2^31 <= z < 2^31.

(** One pair of the quantization map in the file. *)
Definition save_pair (kv : Z * Z) : list ascii :=
  le_bytes 4 (fst kv) ++ le_bytes 4 (snd kv).

(** ** Building the vocabulary

    The tokens [readWord] yields until it reports none, the number of times
    a token occurs, the type its text gives it, and what [readFromFile]
    keeps in step with the tokens it has seen. *)
Fixpoint read_all (fuel : nat) (s : istream) : list str * istream :=
  match fuel with
  | O => ([], s)
  | S fuel' =>
      let '(b, s', w) := readWord s in
      if b then let '(l, s'') := read_all fuel' s' in (w :: l, s'')
      else ([], s')
  end.

Definition corpus (s : istream) : list str * istream :=
  read_all (S (length (after s))) s.

Definition occurrences (w : str) (tokens : list str) : Z :=
  Z.of_nat (length (List.filter (fun t => bool_decide (t = w)) tokens)).

Definition token_type (args : Args) (w : str) : entry_type.t :=
  if starts_with (label args) w then entry_type.label else entry_type.word.

Definition reaches_min (args : Args) (tokens : list str) (w : str) : bool :=
  match token_type args w with
  | entry_type.word => minCount args <=? occurrences w tokens
  | entry_type.label => minCountLabel args <=? occurrences w tokens
  end.

Record counted (args : Args) (d : Dictionary) (seen : list str) : Prop := {
  ct_inv : dict_inv d;
  ct_args : args_ d = args;
  ct_ntokens : ntokens_ d = Z.of_nat (length seen);
  ct_entry : forall e, e ∈ words_ d ->
    word e ∈ seen /\ count e = occurrences (word e) seen
    /\ type e = token_type args (word e) /\ subwords e = [];
  ct_seen : forall w, w ∈ seen -> exists e, e ∈ words_ d /\ word e = w
}.

(** A quantization map that numbers its [n] keys 0 to [n - 1]. *)
Definition compact (q : gmap Z Z) (n : nat) : Prop :=
  size q = n
  /\ (forall k v, q !! k = Some v -> 0 <= v < Z.of_nat n)
  /\ (forall v, 0 <= v < Z.of_nat n -> exists k, q !! k = Some v).

(** What the tokens of a line leave in the vectors of [getLine] when
    [drops] tells, token by token, whether the subsampling test discards
    the token: a word of the vocabulary that is not discarded leaves its id
    and its hash, a token that is not in the vocabulary leaves its hash. *)
Definition kept_words (d : Dictionary) (tokens : list str) (drops : list bool)
  : list Z :=
  omap (fun tb : str * bool => if snd tb then None else word_id d (fst tb))
       (zip tokens drops).

Definition kept_hashes (d : Dictionary) (tokens : list str) (drops : list bool)
  : list Z :=
  omap (fun tb : str * bool =>
          if in_vocab d (fst tb) && snd tb then None else token_hash d (fst tb))
       (zip tokens drops).

(** A finalized dictionary, as [readFromFile] leaves it: the store within
    the table, [size_] its length, the words free of NUL bytes (they are
    tokens of [readWord]), the subword cache of every entry filled by
    [initNgrams] (the entry's own id, then its character n-gram ids), and
    the counters and the quantization map within their C++ types. *)
Record finalized (d : Dictionary) : Prop := {
  fin_size : size_ d = Z.of_nat (length (words_ d));
  fin_cap : Z.of_nat (length (words_ d)) <= MAX_VOCAB_SIZE;
  fin_entry : Forall entry_wf (words_ d);
  fin_cache : forall p e, words_ d !! p = Some e ->
    subwords e = Z.of_nat p :: computeNgrams d (BOW ++ word e ++ EOW) [];
  fin_nwords : int32_range (nwords_ d);
  fin_nlabels : int32_range (nlabels_ d);
  fin_ntokens : -2^63 <= ntokens_ d < 2^63;
  fin_quantidx : map_Forall (fun k v => int32_range k /\ int32_range v) (quantidx_ d);
  fin_pairs : Z.of_nat (size (quantidx_ d)) < 2^31
}.

End Predicates.

(** * Sample dictionaries

    Dictionaries over the reference platform and a table of 16 slots, to run
    the theorems on. *)
Definition demo_tokens : list str :=
  [lit "a"; lit "a"; lit "b"; EOS; lit "__label__x"; lit "a"; lit "b"].

Definition demo_ingested : Dictionary :=
  Eval vm_compute in
    match add_all (C := small_constants)
                  (Dictionary_new (C := small_constants) (default_args sup))
                  demo_tokens with
    | Ok d => d
    | Err _ => Dictionary_new (C := small_constants) (default_args sup)
    end.

Definition demo_dict : Dictionary :=
  Eval vm_compute in
    match threshold (C := small_constants) demo_ingested 1 1 with
    | Ok d => d
    | Err _ => demo_ingested
    end.

(** A corpus and arguments for quantization: buckets 0 and 1, word bigrams. *)
Definition quant_args : Args := {|
  label := lit "__label__";
  model := sup;
  minn := 0;
  maxn := 0;
  bucket := 2;
  wordNgrams := 2;
  minCount := 1;
  minCountLabel := 1;
  t := 105
|}.

Definition quant_corpus : list ascii :=
  lit "c a" ++ [newline; newline; newline] ++ lit "c".

(** A table with a single slot, and the dictionary that fills it. *)
Definition one_slot : Constants :=
  {| MAX_VOCAB_SIZE := 1; MAX_LINE_SIZE := 1024 |}.

Definition full_dict : Dictionary :=
  Eval vm_compute in
    match add (C := one_slot) (Dictionary_new (C := one_slot) (default_args sup))
              (lit "a") with
    | Ok d => d
    | Err _ => Dictionary_new (C := one_slot) (default_args sup)
    end.

(** The sample dictionary with its subword cache filled. *)
Definition demo_subwords : Dictionary :=
  Eval vm_compute in
    match initNgrams demo_dict with
    | Ok d => d
    | Err _ => demo_dict
    end.

(** The dictionary read from the quantization corpus, and a run of
    [convertNgrams] on it for the n-gram id 3. *)
Definition quant_dict : Dictionary :=
  Eval vm_compute in
    match readFromFile (C := small_constants)
            (Dictionary_new (C := small_constants) quant_args)
            (open_stream quant_corpus) with
    | Ok (d, _) => d
    | Err _ => Dictionary_new (C := small_constants) quant_args
    end.

Definition quant_converted : Dictionary * list Z :=
  Eval vm_compute in
    match convertNgrams (C := small_constants) quant_dict (Some quant_corpus) [3] with
    | Ok r => r
    | Err _ => (quant_dict, [])
    end.

(** A supervised dictionary with word bigrams over the words "c", "a" and
    the end marker. *)
Definition bigram_ingested : Dictionary :=
  Eval vm_compute in
    match add_all (C := small_constants)
                  (Dictionary_new (C := small_constants) quant_args)
                  [lit "c"; lit "a"; EOS; lit "c"] with
    | Ok d => d
    | Err _ => Dictionary_new (C := small_constants) quant_args
    end.

Definition bigram_dict : Dictionary :=
  Eval vm_compute in
    match threshold (C := small_constants) bigram_ingested 1 1 with
    | Ok d => d
    | Err _ => bigram_ingested
    end.

(** The bigram dictionary quantized: [convertNgrams] for the n-gram id 3
    over the quantization corpus fills the map with the pair 0 -> 0; the
    flag [quant_] is set by the caller that drives the quantization. *)
Definition bigram_quantized : Dictionary :=
  Eval vm_compute in
    match convertNgrams (C := small_constants) bigram_dict (Some quant_corpus) [3] with
    | Ok (d, _) => set_quant_ true d
    | Err _ => bigram_dict
    end.

(** The same with both n-gram ids kept, 4 before 3: the map has two pairs. *)
Definition bigram_quantized_all : Dictionary :=
  Eval vm_compute in
    match convertNgrams (C := small_constants) bigram_dict (Some quant_corpus) [4; 3] with
    | Ok (d, _) => set_quant_ true d
    | Err _ => bigram_dict
    end.

(** A dictionary that is quantized already, to load into. *)
Definition loaded_into : Dictionary :=
  Eval vm_compute in
    set_quant_ true
      (set_quantidx_ {[1 := 7]} (Dictionary_new (C := small_constants) quant_args)).

(** A skip-gram dictionary over the sample tokens, with its discard table:
    subsampling is active for it. *)
Definition skipgram_ingested : Dictionary :=
  Eval vm_compute in
    match add_all (C := small_constants)
                  (Dictionary_new (C := small_constants) (default_args sg))
                  demo_tokens with
    | Ok d => d
    | Err _ => Dictionary_new (C := small_constants) (default_args sg)
    end.

Definition skipgram_counted : Dictionary :=
  Eval vm_compute in
    match threshold (C := small_constants) skipgram_ingested 1 1 with
    | Ok d => d
    | Err _ => skipgram_ingested
    end.

Definition skipgram_dict : Dictionary :=
  Eval vm_compute in
    match initTableDiscard skipgram_counted with
    | Ok d => d
    | Err _ => skipgram_counted
    end.

(** A dictionary with character trigrams only ([minn = maxn = 3]) over the
    words "hello", "world" and the end marker. *)
Definition trigram_args : Args := {|
  label := lit "__label__";
  model := sg;
  minn := 3;
  maxn := 3;
  bucket := 2000000;
  wordNgrams := 1;
  minCount := 1;
  minCountLabel := 1;
  t := 105
|}.

Definition trigram_dict : Dictionary :=
  Eval vm_compute in
    match (let* d := add_all (C := small_constants)
                       (Dictionary_new (C := small_constants) trigram_args)
                       [lit "hello"; lit "world"; EOS] in
           threshold (C := small_constants) d 1 1) with
    | Ok d => d
    | Err _ => Dictionary_new (C := small_constants) trigram_args
    end.

(** The dictionary [readFromFile] builds from a small corpus, with the
    default character n-grams of 3 to 6 characters. *)
Definition corpus_text : list ascii :=
  lit "where a b a" ++ [newline] ++ lit "__label__x a where".

Definition corpus_dict : Dictionary :=
  Eval vm_compute in
    match readFromFile (C := small_constants)
            (Dictionary_new (C := small_constants) (default_args sup))
            (open_stream corpus_text) with
    | Ok (d, _) => d
    | Err _ => Dictionary_new (C := small_constants) (default_args sup)
    end.

(** * Properties *)

(** ** Machine integers *)

Lemma int32_id z : -2^31 <= z < 2^31 -> int32 z = z.
Proof. intros H. unfold int32. rewrite Z.mod_small; lia. Qed.

Lemma int64_id z : -2^63 <= z < 2^63 -> int64 z = z.
Proof. intros H. unfold int64. rewrite Z.mod_small; lia. Qed.

Lemma uint32_id z : 0 <= z < 2^32 -> uint32 z = z.
Proof. intros H. unfold uint32. rewrite Z.mod_small; lia. Qed.

Lemma uint64_id z : 0 <= z < 2^64 -> uint64 z = z.
Proof. intros H. unfold uint64. rewrite Z.mod_small; lia. Qed.

Lemma uint32_range z : 0 <= uint32 z < 2^32.
Proof. unfold uint32. apply Z.mod_pos_bound. lia. Qed.

Lemma byte_value_range c : 0 <= byte_value c < 256.
Proof.
  unfold byte_value. pose proof (N_ascii_bounded c) as H. lia.
Qed.

Lemma at_index_Ok {A} (v : list A) (i : Z) (a : A) :
  at_index v i = Ok a <-> 0 <= i /\ v !! Z.to_nat i = Some a.
Proof.
  unfold at_index. destruct (Z.ltb_spec i 0).
  - split; [discriminate | lia].
  - destruct (v !! Z.to_nat i) eqn:E; split; intros H1.
    + inversion H1; subst; auto.
    + destruct H1 as [_ H1]. congruence.
    + discriminate.
    + destruct H1 as [_ H1]. discriminate.
Qed.

Lemma at_index_nat {A} (v : list A) (n : nat) (a : A) :
  v !! n = Some a -> at_index v (Z.of_nat n) = Ok a.
Proof. intros H. apply at_index_Ok. rewrite Nat2Z.id. split; [lia | done]. Qed.

Lemma store_at_Ok {A} (v : list A) (i : Z) (x : A) :
  0 <= i < Z.of_nat (length v) ->
  store_at v i x = Ok (<[Z.to_nat i := x]> v).
Proof.
  intros H. unfold store_at.
  destruct (Z.leb_spec 0 i); [|lia]. destruct (Z.ltb_spec i (Z.of_nat (length v))); [|lia].
  reflexivity.
Qed.

Lemma bind_Ok {A B} (r : result A) (k : A -> result B) (b : B) :
  bind r k = Ok b <-> exists a, r = Ok a /\ k a = Ok b.
Proof.
  destruct r; simpl; split.
  - eauto.
  - intros (a0 & H1 & H2). congruence.
  - discriminate.
  - intros (a0 & H1 & _). discriminate.
Qed.

(** ** The hash function *)

Lemma uint32_char_value c :
  uint32 (char_value c) = Z.lxor (byte_value c) (sign_bits c).
Proof. destruct c as [[] [] [] [] [] [] [] []]; reflexivity. Qed.

Lemma hash_step_signed h c : hash_step h c = fnv1a_signed_step h c.
Proof.
  unfold hash_step, fnv1a_signed_step.
  rewrite uint32_char_value, Z.lxor_assoc. reflexivity.
Qed.

Lemma fold_left_ext_in {A B} (f g : A -> B -> A) (l : list B) (a : A) :
  (forall x b, In b l -> f x b = g x b) -> fold_left f l a = fold_left g l a.
Proof.
  revert a. induction l as [|b l IH]; intros a H; simpl; [done|].
  rewrite (H a b) by (left; done). apply IH. intros x b' Hb. apply H. right; done.
Qed.

(** C7 (as amended).  [hash] is the FNV-1a fold with offset basis
    2166136261 and prime 16777619 modulo 2^32 in which every byte enters the
    XOR as a signed [char]: a byte of 0x80 and above also flips the upper 24
    bits of the accumulator.  On strings whose bytes are all below 0x80 it
    is the FNV-1a hash of the bytes. *)
Theorem hash_fnv1a (s : str) :
  hash s = fold_left fnv1a_signed_step s 2166136261
  /\ (Forall (fun c => byte_value c < 128) s -> hash s = fnv1a_32 s).
Proof.
  split.
  - unfold hash. apply fold_left_ext_in. intros; apply hash_step_signed.
  - intros Hs. unfold hash, fnv1a_32. apply fold_left_ext_in.
    intros x b Hb. rewrite hash_step_signed.
    unfold fnv1a_signed_step, fnv1a_step, sign_bits.
    rewrite Forall_forall in Hs. specialize (Hs b).
    destruct (Z.ltb_spec (byte_value b) 128) as [_|Hge].
    + rewrite Z.lxor_0_r. reflexivity.
    + exfalso. apply list_elem_of_In in Hb. specialize (Hs Hb). lia.
Qed.

Lemma hash_fnv1a_witness :
  Forall (fun c => byte_value c < 128) (lit "</s>")
  /\ hash (lit "</s>") = fnv1a_32 (lit "</s>").
Proof.
  assert (H : Forall (fun c => byte_value c < 128) (lit "</s>")).
  { repeat (constructor; [reflexivity|]). constructor. }
  split; [exact H | exact (proj2 (hash_fnv1a (lit "</s>")) H)].
Defined.

(** C7 (as stated) fails: the one-byte string 0xC8 hashes to 3438500471,
    its FNV-1a hash is 1292581751. *)
Lemma hash_not_fnv1a :
  hash [ascii_of_nat 200] = 3438500471
  /\ fnv1a_32 [ascii_of_nat 200] = 1292581751
  /\ ~ (forall s : str, hash s = fnv1a_32 s).
Proof.
  split; [reflexivity|]. split; [reflexivity|].
  intros H. specialize (H [ascii_of_nat 200]). vm_compute in H. discriminate.
Qed.

(** ** The hash index *)

Section Index.
Context {P : Platform} {C : Constants}.
Hypothesis capacity : 0 < MAX_VOCAB_SIZE < 2^31.

Lemma home_range w : 0 <= home w < MAX_VOCAB_SIZE.
Proof.
  unfold home. rewrite (uint32_id MAX_VOCAB_SIZE) by lia.
  pose proof (Z.mod_pos_bound (hash w) MAX_VOCAB_SIZE (proj1 capacity)).
  rewrite int32_id; lia.
Qed.

Lemma probe_range h k : 0 <= probe h k < MAX_VOCAB_SIZE.
Proof. unfold probe. apply Z.mod_pos_bound. lia. Qed.

Lemma probe_0 h : 0 <= h < MAX_VOCAB_SIZE -> probe h 0 = h.
Proof. intros H. unfold probe. rewrite Z.add_0_r. apply Z.mod_small. lia. Qed.

Lemma probe_next h k :
  0 <= h < MAX_VOCAB_SIZE ->
  probe (Z.rem (int32 (h + 1)) MAX_VOCAB_SIZE) k = probe h (S k).
Proof.
  intros H. unfold probe. rewrite int32_id by lia.
  rewrite Z.rem_mod_nonneg by lia.
  rewrite Zplus_mod_idemp_l. f_equal. lia.
Qed.

Lemma next_range h :
  0 <= h < MAX_VOCAB_SIZE ->
  0 <= Z.rem (int32 (h + 1)) MAX_VOCAB_SIZE < MAX_VOCAB_SIZE.
Proof.
  intros H. rewrite int32_id by lia. rewrite Z.rem_mod_nonneg by lia.
  apply Z.mod_pos_bound. lia.
Qed.

Lemma probe_stops_continues words index w h :
  probe_stops words index w h -> probe_continues words index w h -> False.
Proof.
  intros [He | [_ (id & e & H1 & H2 & H3 & H4)]] (id' & e' & G1 & G2 & G3 & G4 & G5).
  - congruence.
  - rewrite H1 in G1. inversion G1; subst. rewrite H3 in G4. inversion G4; subst.
    done.
Qed.

Lemma find_loop_step_stop fuel words index w h :
  0 <= h -> probe_stops words index w h ->
  find_loop (S fuel) words index w h = Ok h.
Proof.
  intros Hh [He | [(id & Hid & Hne) (id' & e & H1 & H2 & H3 & H4)]]; simpl.
  - unfold slot in He. rewrite (proj2 (at_index_Ok index h (-1))) by done. simpl.
    reflexivity.
  - unfold slot in *. rewrite Hid in H1. inversion H1; subst id'.
    rewrite (proj2 (at_index_Ok index h id)) by done. simpl.
    destruct (Z.eqb_spec id (-1)); [done|].
    rewrite (proj2 (at_index_Ok words id e)) by done. simpl.
    destruct (decide (word e <> w)); [done | reflexivity].
Qed.

Lemma find_loop_step_continue fuel words index w h :
  0 <= h -> probe_continues words index w h ->
  find_loop (S fuel) words index w h
  = find_loop fuel words index w (Z.rem (int32 (h + 1)) MAX_VOCAB_SIZE).
Proof.
  intros Hh (id & e & H1 & H2 & H3 & H4 & H5); simpl. unfold slot in *.
  rewrite (proj2 (at_index_Ok index h id)) by done. simpl.
  destruct (Z.eqb_spec id (-1)); [done|].
  rewrite (proj2 (at_index_Ok words id e)) by done. simpl.
  destruct (decide (word e <> w)); [reflexivity | done].
Qed.

(** Every slot either stops or continues the probe when the index only
    refers to entries of the store. *)
Lemma probe_dichotomy words index n w h :
  index_ok words index n -> 0 <= h < MAX_VOCAB_SIZE ->
  probe_stops words index w h \/ probe_continues words index w h.
Proof.
  intros Hinv Hh.
  destruct (index !! Z.to_nat h) as [id|] eqn:E.
  2:{ apply lookup_ge_None in E. rewrite (ok_length _ _ _ Hinv) in E. lia. }
  destruct (ok_valid _ _ _ Hinv _ _ E) as [-> | Hid].
  - left. left. exact E.
  - pose proof (ok_bound _ _ _ Hinv) as Hb.
    destruct (words !! Z.to_nat id) as [e|] eqn:Ee.
    2:{ apply lookup_ge_None in Ee. lia. }
    destruct (decide (word e = w)) as [Hw | Hw].
    + left. right. split; [exists id; split; [done | lia] |].
      exists id, e. repeat split; try done; lia.
    + right. exists id, e. repeat split; try done; lia.
Qed.

Lemma find_loop_reach words index n w :
  index_ok words index n ->
  forall k h fuel,
    0 <= h < MAX_VOCAB_SIZE ->
    probe_stops words index w (probe h k) ->
    (k < fuel)%nat ->
    exists k', (k' <= k)%nat
      /\ find_loop fuel words index w h = Ok (probe h k')
      /\ probe_stops words index w (probe h k')
      /\ forall j, (j < k')%nat -> probe_continues words index w (probe h j).
Proof.
  intros Hinv. induction k as [|k IH]; intros h fuel Hh Hstop Hfuel.
  - exists 0%nat. destruct fuel as [|fuel]; [lia|].
    rewrite probe_0 in * by done. repeat split; [lia | | done | intros; lia].
    apply find_loop_step_stop; [lia | done].
  - destruct fuel as [|fuel]; [lia|].
    destruct (probe_dichotomy words index n w h Hinv Hh) as [Hs | Hc].
    + exists 0%nat. rewrite probe_0 by done.
      repeat split; [lia | | done | intros; lia].
      apply find_loop_step_stop; [lia | done].
    + rewrite <- probe_next in Hstop by done.
      destruct (IH _ fuel (next_range h Hh) Hstop ltac:(lia))
        as (k' & Hk' & Hf & Hs' & Hall).
      exists (S k'). rewrite <- probe_next by done.
      repeat split; [lia | | done |].
      * rewrite find_loop_step_continue by (done || lia). exact Hf.
      * intros [|j] Hj; [rewrite probe_0 by done; done|].
        rewrite <- probe_next by done. apply Hall. lia.
Qed.

Lemma occupied_slots_full (index : list Z) :
  (forall i, index !! i <> Some (-1)) -> occupied_slots index = length index.
Proof.
  unfold occupied_slots. induction index as [|x l IH]; intros H; [done|].
  simpl. destruct (Z.eqb_spec x (-1)) as [->|Hx].
  - exfalso. apply (H 0%nat). reflexivity.
  - simpl. f_equal. apply IH. intros i. apply (H (S i)).
Qed.

Lemma occupied_slots_le (index : list Z) :
  (occupied_slots index <= length index)%nat.
Proof. unfold occupied_slots. apply List.filter_length_le. Qed.

Lemma exists_empty_slot (index : list Z) :
  (occupied_slots index < length index)%nat ->
  exists i, index !! i = Some (-1).
Proof.
  unfold occupied_slots. induction index as [|x l IH]; simpl; intros H; [lia|].
  destruct (Z.eqb_spec x (-1)) as [->|Hx].
  - exists 0%nat. reflexivity.
  - simpl in H. destruct IH as [i Hi]; [lia|]. exists (S i). exact Hi.
Qed.

Lemma occupied_slots_insert (index : list Z) (i : nat) (x : Z) :
  (occupied_slots (<[i := x]> index) <= S (occupied_slots index))%nat.
Proof.
  unfold occupied_slots. revert i. induction index as [|y l IH]; intros i; [simpl; lia|].
  destruct i as [|i]; simpl.
  - destruct (negb (x =? -1)), (negb (y =? -1)); simpl; lia.
  - specialize (IH i). destruct (negb (y =? -1)); simpl; lia.
Qed.

Lemma occupied_slots_replicate (n : nat) : occupied_slots (replicate n (-1)) = 0%nat.
Proof. unfold occupied_slots. induction n; simpl; done. Qed.

Lemma probe_hits h e :
  0 <= h < MAX_VOCAB_SIZE -> 0 <= e < MAX_VOCAB_SIZE ->
  exists k, (k < Z.to_nat MAX_VOCAB_SIZE)%nat /\ probe h k = e.
Proof.
  intros Hh He. exists (Z.to_nat ((e - h) mod MAX_VOCAB_SIZE)).
  pose proof (Z.mod_pos_bound (e - h) MAX_VOCAB_SIZE (proj1 capacity)) as Hb.
  split; [lia|]. unfold probe. rewrite Z2Nat.id by lia.
  rewrite Zplus_mod_idemp_r. replace (h + (e - h)) with e by lia.
  apply Z.mod_small. lia.
Qed.

(** [find] returns as soon as some slot on the probe path stops it. *)
Lemma find_in_reach words index n w k :
  index_ok words index n ->
  (k < Z.to_nat MAX_VOCAB_SIZE)%nat ->
  probe_stops words index w (probe (home w) k) ->
  exists k', (k' <= k)%nat
    /\ find_in words index w = Ok (probe (home w) k')
    /\ probe_stops words index w (probe (home w) k')
    /\ forall j, (j < k')%nat -> probe_continues words index w (probe (home w) j).
Proof.
  intros Hinv Hk Hs. unfold find_in. fold (home w).
  exact (find_loop_reach words index n w Hinv k (home w) _ (home_range w) Hs Hk).
Qed.

Lemma probe_continues_occupied words index w h :
  probe_continues words index w h -> slot_occupied index h.
Proof. intros (id & e & H1 & H2 & _). exists id. done. Qed.

Lemma slot_holds_occupied words index w h :
  slot_holds words index h w -> slot_occupied index h.
Proof. intros (id & e & H1 & H2 & _). exists id. split; [done | lia]. Qed.

(** A word of the store is found in its slot. *)
Lemma find_in_present words index n w :
  index_ok words index n -> reachable words index w ->
  exists k, (k < Z.to_nat MAX_VOCAB_SIZE)%nat
    /\ find_in words index w = Ok (probe (home w) k)
    /\ slot_holds words index (probe (home w) k) w
    /\ forall j, (j < k)%nat -> slot_occupied index (probe (home w) j).
Proof.
  intros Hinv (k & Hk & Hh & Hocc).
  destruct (find_in_reach words index n w k Hinv Hk) as (k' & Hk' & Hf & Hs & Hc).
  { right. split; [eapply slot_holds_occupied|]; done. }
  exists k'. split; [lia|]. split; [done|]. split.
  - destruct Hs as [He | [_ Hs]]; [|done]. exfalso.
    destruct (decide (k' = k)) as [->|Hne].
    + destruct Hh as (id & e & H1 & H2 & _). rewrite He in H1. inversion H1. lia.
    + destruct (Hocc k' ltac:(lia)) as (id & H1 & H2). congruence.
  - intros j Hj. eapply probe_continues_occupied. apply Hc. done.
Qed.

(** A word that is not in the store is sent to an empty slot, provided
    there is one. *)
Lemma find_in_absent words index n w :
  index_ok words index n -> (exists i, index !! i = Some (-1)) ->
  ~ in_store words n w ->
  exists k, (k < Z.to_nat MAX_VOCAB_SIZE)%nat
    /\ find_in words index w = Ok (probe (home w) k)
    /\ slot index (probe (home w) k) = Some (-1)
    /\ forall j, (j < k)%nat -> slot_occupied index (probe (home w) j).
Proof.
  intros Hinv [i Hi] Habs.
  assert (Hi' : (i < Z.to_nat MAX_VOCAB_SIZE)%nat).
  { rewrite <- (ok_length _ _ _ Hinv). eapply lookup_lt_Some. done. }
  destruct (probe_hits (home w) (Z.of_nat i) (home_range w) ltac:(lia))
    as (k & Hk & Hp).
  destruct (find_in_reach words index n w k Hinv Hk) as (k' & Hk' & Hf & Hs & Hc).
  { left. rewrite Hp. unfold slot. rewrite Nat2Z.id. done. }
  exists k'. split; [lia|]. split; [done|]. split.
  - destruct Hs as [He | [_ (id & e & H1 & H2 & H3 & H4)]]; [done|]. exfalso.
    apply Habs. exists (Z.to_nat id), e.
    destruct (ok_valid _ _ _ Hinv _ _ H1) as [-> | Hr]; [lia|].
    split; [lia | done].
  - intros j Hj. eapply probe_continues_occupied. apply Hc. done.
Qed.

Lemma index_inv_empty_slot words index n :
  index_inv words index n -> Z.of_nat n < MAX_VOCAB_SIZE ->
  exists i, index !! i = Some (-1).
Proof.
  intros [Hok Hload] Hn. apply exists_empty_slot.
  rewrite (ok_length _ _ _ Hok). lia.
Qed.

Lemma slot_occupied_insert index h h' v :
  v <> -1 -> slot_occupied index h -> slot_occupied (<[h' := v]> index) h.
Proof.
  intros Hv (id & H1 & H2). unfold slot_occupied, slot in *.
  destruct (decide (h' = Z.to_nat h)) as [->|Hne].
  - exists v. split; [|done]. apply list_lookup_insert_eq. eapply lookup_lt_Some; done.
  - exists id. split; [|done]. rewrite list_lookup_insert_ne by done. done.
Qed.

(** Writing the next position into the slot [find] returned keeps the index
    consistent: [find] walked over occupied slots only, and a slot it stops
    at either was empty or held the same word. *)
Lemma index_ok_insert words words' index n w e k :
  index_ok words index n ->
  (forall p, (p < n)%nat -> words' !! p = words !! p) ->
  words' !! n = Some e -> word e = w ->
  (k < Z.to_nat MAX_VOCAB_SIZE)%nat ->
  probe_stops words index w (probe (home w) k) ->
  (forall j, (j < k)%nat -> slot_occupied index (probe (home w) j)) ->
  index_ok words' (<[Z.to_nat (probe (home w) k) := Z.of_nat n]> index) (S n).
Proof.
  intros Hok Hsame Hn Hw Hk Hstop Hocc.
  pose proof (probe_range (home w) k) as Hr.
  assert (Hlt : (Z.to_nat (probe (home w) k) < length index)%nat).
  { rewrite (ok_length _ _ _ Hok). lia. }
  split.
  - rewrite length_insert. apply (ok_length _ _ _ Hok).
  - apply lookup_lt_Some in Hn. lia.
  - intros i id Hi.
    destruct (decide (Z.to_nat (probe (home w) k) = i)) as [<-|Hne].
    + rewrite list_lookup_insert_eq in Hi by done. inversion Hi. right. lia.
    + rewrite list_lookup_insert_ne in Hi by done.
      destruct (ok_valid _ _ _ Hok _ _ Hi); [left; done | right; lia].
  - intros p ep Hp Hep.
    destruct (decide (p = n)) as [->|Hpn].
    + rewrite Hn in Hep. inversion Hep; subst ep. rewrite Hw.
      exists k. split; [done|]. split.
      * exists (Z.of_nat n), e. unfold slot.
        rewrite list_lookup_insert_eq by done. rewrite Nat2Z.id.
        repeat split; [lia | done | done].
      * intros j Hj. apply slot_occupied_insert; [lia | auto].
    + rewrite Hsame in Hep by lia.
      destruct (ok_reach _ _ _ Hok p ep ltac:(lia) Hep) as (kp & Hkp & Hh & Ho).
      exists kp. split; [done|]. split.
      * destruct Hh as (id & e' & H1 & H2 & H3 & H4). unfold slot in *.
        destruct (decide (Z.to_nat (probe (home w) k)
                          = Z.to_nat (probe (home (word ep)) kp))) as [Heq|Hne].
        -- exists (Z.of_nat n), e. unfold slot. rewrite <- Heq.
           rewrite <- Heq in H1.
           rewrite list_lookup_insert_eq by done. rewrite Nat2Z.id.
           repeat split; [lia | done |].
           destruct Hstop as [He | [_ (id2 & e2 & G1 & G2 & G3 & G4)]];
             unfold slot in *.
           ++ rewrite He in H1. inversion H1. lia.
           ++ rewrite G1 in H1. inversion H1; subst id2. rewrite G3 in H3.
              inversion H3; subst e2. congruence.
        -- exists id, e'. unfold slot. rewrite list_lookup_insert_ne by done.
           destruct (ok_valid _ _ _ Hok _ _ H1) as [-> | Hid]; [lia|].
           rewrite Hsame by lia. done.
      * intros j Hj. apply slot_occupied_insert; [lia | auto].
Qed.

Lemma index_inv_insert words words' index n w e k :
  index_inv words index n ->
  (forall p, (p < n)%nat -> words' !! p = words !! p) ->
  words' !! n = Some e -> word e = w ->
  (k < Z.to_nat MAX_VOCAB_SIZE)%nat ->
  probe_stops words index w (probe (home w) k) ->
  (forall j, (j < k)%nat -> slot_occupied index (probe (home w) j)) ->
  index_inv words' (<[Z.to_nat (probe (home w) k) := Z.of_nat n]> index) (S n).
Proof.
  intros [Hok Hload] H1 H2 H3 H4 H5 H6. split.
  - eapply index_ok_insert; done.
  - pose proof (occupied_slots_insert index (Z.to_nat (probe (home w) k)) (Z.of_nat n)).
    lia.
Qed.

Lemma in_store_dec words n w : in_store words n w \/ ~ in_store words n w.
Proof.
  destruct (decide (Exists (fun e => word e = w) (take n words))) as [H|H].
  - left. apply Exists_exists in H as (e & He & Hw).
    apply list_elem_of_lookup in He as [p Hp].
    apply lookup_take_Some in Hp as [Hp Hlt]. exists p, e. done.
  - right. intros (p & e & Hp & He & Hw). apply H. apply Exists_exists.
    exists e. split; [|done]. apply list_elem_of_lookup. exists p.
    apply lookup_take_Some. done.
Qed.

(** [find] returns whenever the word is in the store or a slot is free. *)
Lemma find_in_total words index n w :
  index_ok words index n ->
  (exists i, index !! i = Some (-1)) \/ in_store words n w ->
  exists k, (k < Z.to_nat MAX_VOCAB_SIZE)%nat
    /\ find_in words index w = Ok (probe (home w) k)
    /\ probe_stops words index w (probe (home w) k)
    /\ forall j, (j < k)%nat -> slot_occupied index (probe (home w) j).
Proof.
  intros Hok Hcase.
  destruct (in_store_dec words n w) as [(p & e & Hp & He & Hw) | Habs].
  - destruct (find_in_present words index n w Hok) as (k & Hk & Hf & Hh & Ho).
    { rewrite <- Hw. eapply ok_reach; done. }
    exists k. repeat split; try done. right.
    split; [eapply slot_holds_occupied|]; done.
  - destruct Hcase as [Hempty | Hin]; [|done].
    destruct (find_in_absent words index n w Hok Hempty Habs) as (k & Hk & Hf & Hh & Ho).
    exists k. repeat split; try done. left; done.
Qed.

Lemma count_type_cons ty e l :
  count_type ty (e :: l)
  = (if decide (type e = ty) then 1 else 0) + count_type ty l.
Proof.
  unfold count_type. simpl. destruct (decide (type e = ty)) as [H|H].
  - rewrite bool_decide_eq_true_2 by done. simpl. lia.
  - rewrite bool_decide_eq_false_2 by done. lia.
Qed.

Lemma count_type_bound ty l : 0 <= count_type ty l <= Z.of_nat (length l).
Proof.
  unfold count_type.
  pose proof (List.filter_length_le (fun e => bool_decide (type e = ty)) l). lia.
Qed.

Lemma index_inv_replicate words :
  index_inv words (replicate (Z.to_nat MAX_VOCAB_SIZE) (-1)) 0.
Proof.
  split; [split|].
  - apply length_replicate.
  - lia.
  - intros i id Hi. apply lookup_replicate in Hi as [-> _]. left; done.
  - intros p e Hp. lia.
  - rewrite occupied_slots_replicate. lia.
Qed.

(** The loop of [threshold] that rebuilds the index over the store [ws]. *)
Lemma threshold_loop_spec ws :
  Z.of_nat (length ws) <= MAX_VOCAB_SIZE ->
  forall it i index nw nl,
    ws = take i ws ++ it -> (i <= length ws)%nat ->
    index_inv ws index i ->
    0 <= nw <= Z.of_nat i -> 0 <= nl <= Z.of_nat i ->
    exists index',
      threshold_loop ws it index (Z.of_nat i) nw nl
      = Ok (index', Z.of_nat (length ws),
            nw + count_type entry_type.word it,
            nl + count_type entry_type.label it)
      /\ index_inv ws index' (length ws).
Proof.
  intros Hcap. induction it as [|e it IH]; intros i index nw nl Hsplit Hi Hinv Hnw Hnl.
  - assert (i = length ws) as ->.
    { apply (f_equal length) in Hsplit. rewrite length_app, length_take in Hsplit.
      simpl in Hsplit. lia. }
    exists index. simpl. unfold count_type. simpl. rewrite !Z.add_0_r. done.
  - assert (Hlen : (i < length ws)%nat).
    { apply (f_equal length) in Hsplit. rewrite length_app, length_take in Hsplit.
      simpl in Hsplit. lia. }
    assert (He : ws !! i = Some e).
    { rewrite Hsplit at 1. rewrite lookup_app_r by (rewrite length_take; lia).
      rewrite length_take. replace (i - i `min` length ws)%nat with 0%nat by lia.
      done. }
    destruct Hinv as [Hok Hload].
    destruct (find_in_total ws index i (word e) Hok) as (k & Hk & Hf & Hs & Ho).
    { left. apply exists_empty_slot. rewrite (ok_length _ _ _ Hok). lia. }
    pose proof (probe_range (home (word e)) k) as Hr.
    simpl. rewrite Hf. simpl.
    rewrite store_at_Ok by (rewrite (ok_length _ _ _ Hok); lia). simpl.
    rewrite (int32_id (Z.of_nat i + 1)) by lia.
    replace (Z.of_nat i + 1) with (Z.of_nat (S i)) by lia.
    destruct (IH (S i) (<[Z.to_nat (probe (home (word e)) k) := Z.of_nat i]> index)
                (if decide (type e = entry_type.word) then int32 (nw + 1) else nw)
                (if decide (type e = entry_type.label) then int32 (nl + 1) else nl))
      as (index' & Hloop & Hinv').
    + rewrite (take_S_r _ _ _ He). rewrite <- app_assoc. simpl. done.
    + lia.
    + eapply index_inv_insert; done.
    + destruct (decide _); [rewrite int32_id by lia|]; lia.
    + destruct (decide _); [rewrite int32_id by lia|]; lia.
    + exists index'. split; [|done]. rewrite Hloop. rewrite !count_type_cons.
      do 2 f_equal; [f_equal|].
      * destruct (decide (type e = entry_type.word)); [rewrite int32_id by lia|]; lia.
      * destruct (decide (type e = entry_type.label)); [rewrite int32_id by lia|]; lia.
Qed.

Lemma index_ok_ext words words' index n :
  index_ok words index n ->
  (forall p, (p < n)%nat -> words' !! p = words !! p) ->
  (n <= length words')%nat ->
  index_ok words' index n.
Proof.
  intros Hok Hsame Hlen. split.
  - apply (ok_length _ _ _ Hok).
  - done.
  - apply (ok_valid _ _ _ Hok).
  - intros p e Hp He. rewrite Hsame in He by done.
    destruct (ok_reach _ _ _ Hok p e Hp He) as (k & Hk & Hh & Ho).
    exists k. repeat split; try done.
    destruct Hh as (id & e' & H1 & H2 & H3 & H4). exists id, e'.
    destruct (ok_valid _ _ _ Hok _ _ H1) as [-> | Hid]; [lia|].
    rewrite Hsame by lia. done.
Qed.

(** The entries of the store keep their word text: the index stays consistent
    when only counts or caches change. *)
Lemma index_ok_same_words words words' index n :
  index_ok words index n ->
  map word words' = map word words ->
  index_ok words' index n.
Proof.
  intros Hok Hmap.
  assert (Hlen : length words' = length words).
  { apply (f_equal length) in Hmap. rewrite !length_map in Hmap. done. }
  assert (Hw : forall p e, words !! p = Some e ->
                 exists e', words' !! p = Some e' /\ word e' = word e).
  { intros p e He.
    assert (Hm : map word words !! p = Some (word e))
      by (rewrite list_lookup_fmap, He; done).
    rewrite <- Hmap in Hm. rewrite list_lookup_fmap in Hm.
    destruct (words' !! p) as [e'|]; [|done]. exists e'. inversion Hm. done. }
  assert (Hw' : forall p e, words' !! p = Some e ->
                 exists e', words !! p = Some e' /\ word e' = word e).
  { intros p e He.
    assert (Hm : map word words' !! p = Some (word e))
      by (rewrite list_lookup_fmap, He; done).
    rewrite Hmap in Hm. rewrite list_lookup_fmap in Hm.
    destruct (words !! p) as [e'|]; [|done]. exists e'. inversion Hm. done. }
  split.
  - apply (ok_length _ _ _ Hok).
  - rewrite Hlen. apply (ok_bound _ _ _ Hok).
  - apply (ok_valid _ _ _ Hok).
  - intros p e Hp He. destruct (Hw' p e He) as (e0 & He0 & Hwe). rewrite <- Hwe.
    destruct (ok_reach _ _ _ Hok p e0 Hp He0) as (k & Hk & Hh & Ho).
    exists k. repeat split; try done.
    destruct Hh as (id & e1 & H1 & H2 & H3 & H4).
    destruct (Hw _ _ H3) as (e2 & He2 & Hwe2).
    exists id, e2. repeat split; try done. congruence.
Qed.

Lemma dict_inv_new args : dict_inv (Dictionary_new args).
Proof.
  split; simpl.
  - apply index_inv_replicate.
  - done.
  - constructor.
Qed.

Lemma NoDup_map_lookup {A B} (f : A -> B) (l : list A) i j a b :
  NoDup (map f l) -> l !! i = Some a -> l !! j = Some b -> f a = f b -> i = j.
Proof.
  intros Hnd Hi Hj Hf. eapply NoDup_lookup; [exact Hnd | |].
  - rewrite list_lookup_fmap, Hi. reflexivity.
  - rewrite list_lookup_fmap, Hj. simpl. congruence.
Qed.

(** [add] on a word of the store: its count goes up by one. *)
Lemma add_present d w p e :
  dict_inv d -> words_ d !! p = Some e -> word e = w ->
  add d w = Ok (set_words_ (<[p := bump_count e]> (words_ d))
                  (set_ntokens_ (int64 (ntokens_ d + 1)) d))
  /\ dict_inv (set_words_ (<[p := bump_count e]> (words_ d))
                 (set_ntokens_ (int64 (ntokens_ d + 1)) d)).
Proof.
  intros [[Hok Hload] Hsize Hnd] Hp Hw.
  assert (Hplt : (p < length (words_ d))%nat) by (eapply lookup_lt_Some; done).
  destruct (find_in_present (words_ d) (word2int_ d) _ w Hok)
    as (k & Hk & Hf & (id & e' & H1 & H2 & H3 & H4) & Ho).
  { rewrite <- Hw. eapply ok_reach; done. }
  assert (Z.to_nat id = p) as Hid.
  { eapply (NoDup_map_lookup word); [exact Hnd | exact H3 | exact Hp | congruence]. }
  assert (e' = e) as -> by (rewrite Hid, Hp in H3; congruence).
  pose proof (probe_range (home w) k) as Hr.
  split.
  - unfold add, find. rewrite Hf. simpl.
    rewrite (proj2 (at_index_Ok _ _ id)) by (split; [lia | exact H1]). simpl.
    destruct (Z.eqb_spec id (-1)); [lia|].
    rewrite (proj2 (at_index_Ok _ _ e)) by (split; [lia | exact H3]). simpl.
    rewrite store_at_Ok by lia. simpl. rewrite Hid. reflexivity.
  - split; simpl.
    + split.
      * rewrite length_insert. eapply index_ok_same_words; [exact Hok|].
        rewrite list_fmap_insert. simpl. apply list_insert_id.
        rewrite list_lookup_fmap, Hp. done.
      * rewrite length_insert. done.
    + rewrite length_insert. done.
    + replace (map word (<[p:=bump_count e]> (words_ d))) with (map word (words_ d)); [done|].
      symmetry. rewrite list_fmap_insert. simpl. apply list_insert_id.
      rewrite list_lookup_fmap, Hp. done.
Qed.

(** [add] on a new word: a fresh entry with count 1 at the end of the store. *)
Lemma add_absent d w :
  dict_inv d -> Z.of_nat (length (words_ d)) < MAX_VOCAB_SIZE ->
  (forall e, e ∈ words_ d -> word e <> w) ->
  exists d', add d w = Ok d'
    /\ words_ d' = words_ d ++ [new_entry d w]
    /\ size_ d' = size_ d + 1
    /\ ntokens_ d' = int64 (ntokens_ d + 1)
    /\ nwords_ d' = nwords_ d /\ nlabels_ d' = nlabels_ d
    /\ args_ d' = args_ d /\ quant_ d' = quant_ d /\ quantidx_ d' = quantidx_ d
    /\ pdiscard_ d' = pdiscard_ d
    /\ dict_inv d'.
Proof.
  intros [[Hok Hload] Hsize Hnd] Hroom Hnew.
  destruct (find_in_absent (words_ d) (word2int_ d) _ w Hok)
    as (k & Hk & Hf & He & Ho).
  { eapply index_inv_empty_slot; [split; done | done]. }
  { intros (p & e & Hp & Hpe & Hw). apply (Hnew e); [|done].
    apply list_elem_of_lookup. eauto. }
  pose proof (probe_range (home w) k) as Hr.
  pose proof (ok_length _ _ _ Hok) as Hlen.
  eexists. split.
  { unfold add, find. rewrite Hf. simpl.
    rewrite (proj2 (at_index_Ok _ _ (-1))) by (split; [lia | exact He]). simpl.
    rewrite store_at_Ok by lia. simpl. reflexivity. }
  simpl. split; [reflexivity|]. split; [rewrite Hsize; apply int32_id; lia|].
  do 7 (split; [reflexivity|]).
  split; simpl.
  - rewrite length_app. simpl. rewrite Nat.add_1_r. split.
    + rewrite Hsize.
      apply (index_ok_insert (words_ d) _ _ _ w (new_entry d w) k Hok).
      * intros p Hp. rewrite lookup_app_l by done. done.
      * rewrite lookup_app_r by lia. rewrite Nat.sub_diag. done.
      * done.
      * done.
      * left. done.
      * done.
    + pose proof (occupied_slots_insert (word2int_ d) (Z.to_nat (probe (home w) k))
                    (size_ d)). lia.
  - rewrite Hsize, length_app. simpl. rewrite int32_id by lia. lia.
  - rewrite map_app. simpl. apply NoDup_app. split; [done|]. split.
    + intros x Hx Hx'. apply list_elem_of_singleton in Hx'. subst x.
      apply list_elem_of_fmap in Hx as (e & Hwe & Hin). apply (Hnew e); done.
    + apply NoDup_singleton.
Qed.

Lemma count_type_total l :
  count_type entry_type.word l + count_type entry_type.label l
  = Z.of_nat (length l).
Proof.
  induction l as [|e l IH]; [done|]. rewrite !count_type_cons. simpl length.
  destruct (type e); repeat case_decide; try done; lia.
Qed.

(** [threshold] returns, with the store sorted and filtered, the index
    rebuilt over it and the three counters recomputed. *)
Lemma threshold_spec d t tl :
  PlatformLaws P ->
  length (word2int_ d) = Z.to_nat MAX_VOCAB_SIZE ->
  Z.of_nat (length (words_ d)) <= MAX_VOCAB_SIZE ->
  exists index,
    threshold d t tl
    = Ok (set_counters (Z.of_nat (length (threshold_store (words_ d) t tl)))
            (count_type entry_type.word (threshold_store (words_ d) t tl))
            (count_type entry_type.label (threshold_store (words_ d) t tl))
            (set_word2int_ index (set_words_ (threshold_store (words_ d) t tl) d)))
    /\ index_inv (threshold_store (words_ d) t tl) index
                 (length (threshold_store (words_ d) t tl)).
Proof.
  intros HP Hlen Hcap. unfold threshold. cbv zeta.
  fold (threshold_store (words_ d) t tl).
  set (ws := threshold_store (words_ d) t tl).
  assert (Hws : Z.of_nat (length ws) <= MAX_VOCAB_SIZE).
  { unfold ws, threshold_store.
    pose proof (List.filter_length_le (fun e => negb (below_threshold t tl e))
                  (std_sort (words_ d))) as H1.
    pose proof (Permutation_length (std_sort_perm (words_ d))) as H2. lia. }
  destruct (threshold_loop_spec ws Hws ws 0%nat
              (replicate (length (word2int_ d)) (-1)) 0 0)
    as (index & Hloop & Hinv); try done; try lia.
  { rewrite Hlen. apply index_inv_replicate. }
  exists index. change (Z.of_nat 0) with 0 in Hloop. rewrite Hloop.
  rewrite !Z.add_0_l. simpl. done.
Qed.

End Index.

Section Ordering.
Context {P : Platform} {C : Constants}.
Hypothesis capacity : 0 < MAX_VOCAB_SIZE < 2^31.


Lemma StronglySorted_lookup_lt {A} (R : A -> A -> Prop) (l : list A) i j a b :
  StronglySorted R l -> (i < j)%nat -> l !! i = Some a -> l !! j = Some b -> R a b.
Proof.
  intros Hs. revert i j. induction Hs as [|x l Hs IH Hall]; intros i j Hij Hi Hj.
  - done.
  - destruct j as [|j]; [lia|]. destruct i as [|i].
    + simpl in Hi. inversion Hi; subst. rewrite List.Forall_forall in Hall.
      apply Hall. apply list_elem_of_In. apply list_elem_of_lookup. eauto.
    + apply (IH i j); [lia | done | done].
Qed.

Lemma StronglySorted_filter {A} (R : A -> A -> Prop) (f : A -> bool) (l : list A) :
  StronglySorted R l -> StronglySorted R (List.filter f l).
Proof.
  induction 1 as [|x l Hs IH Hall]; simpl; [constructor|].
  destruct (f x); [|done]. constructor; [done|].
  rewrite List.Forall_forall in *. intros y Hy. apply Hall.
  apply List.filter_In in Hy. tauto.
Qed.

Lemma entry_before_false e1 e2 :
  entry_before e2 e1 = false ->
  (type e2 = entry_type.word -> type e1 = entry_type.word)
  /\ (type e1 = type e2 -> count e2 <= count e1).
Proof.
  unfold entry_before, entry_type.ltb. case_decide as Ht.
  - destruct (type e1), (type e2); simpl; try done; intros H; split; done.
  - intros H. split; [congruence|]. intros _. lia.
Qed.

Lemma threshold_store_ordered `{!PlatformLaws P} words t tl :
  grouped_sorted (threshold_store words t tl).
Proof.
  intros i j e1 e2 Hij H1 H2. apply entry_before_false.
  apply (StronglySorted_lookup_lt (fun a b => entry_before b a = false)
           (threshold_store words t tl) i j); try done.
  apply StronglySorted_filter. apply std_sort_sorted.
Qed.

(** C3, [threshold].  After every call to [threshold] that the hash index has
    room for, the entries are grouped with the words before the labels and
    sorted by count, largest first, within each group, and
    [size = nwords + nlabels] holds; [size] is the length of the store. *)
Theorem threshold_ordered `{!PlatformLaws P} (d : Dictionary) (t tl : Z) :
  length (word2int_ d) = Z.to_nat MAX_VOCAB_SIZE ->
  Z.of_nat (length (words_ d)) <= MAX_VOCAB_SIZE ->
  exists d', threshold d t tl = Ok d'
    /\ grouped_sorted (words_ d')
    /\ size_ d' = nwords_ d' + nlabels_ d'
    /\ size_ d' = Z.of_nat (length (words_ d')).
Proof.
  intros Hlen Hcap.
  destruct (threshold_spec capacity d t tl _ Hlen Hcap) as (index & Hth & Hinv).
  eexists. split; [exact Hth|]. simpl. split; [apply threshold_store_ordered|].
  split; [|done]. rewrite count_type_total. done.
Qed.

End Ordering.

Section GetId.
Context {P : Platform} {C : Constants}.
Hypothesis capacity : 0 < MAX_VOCAB_SIZE < 2^31.

(** C9.  With a hash index that is consistent with the store and has an
    empty slot, [getId w] returns; it returns -1 exactly when no entry of the
    store has the word text [w], and otherwise a position [p] with
    [0 <= p < size] whose entry has the word text [w]. *)
Theorem getId_spec (d : Dictionary) (w : str) :
  index_ok (words_ d) (word2int_ d) (length (words_ d)) ->
  size_ d = Z.of_nat (length (words_ d)) ->
  (exists i, word2int_ d !! i = Some (-1)) ->
  exists id, getId d w = Ok id
    /\ (id = -1 <-> forall e, e ∈ words_ d -> word e <> w)
    /\ (id <> -1 ->
        0 <= id < size_ d
        /\ exists e, words_ d !! Z.to_nat id = Some e /\ word e = w).
Proof.
  intros Hok Hsize Hempty.
  destruct (find_in_total capacity (words_ d) (word2int_ d) _ w Hok (or_introl Hempty))
    as (k & Hk & Hf & Hs & Ho).
  pose proof (probe_range capacity (home w) k) as Hr.
  destruct Hs as [He | [_ (id & e & H1 & H2 & H3 & H4)]].
  - exists (-1). unfold getId, find. rewrite Hf. simpl.
    split; [apply at_index_Ok; split; [lia | exact He]|].
    split; [|done]. split; [|done]. intros _ e Hin Hw.
    apply list_elem_of_lookup in Hin as [p Hp].
    destruct (find_in_present capacity (words_ d) (word2int_ d) _ w Hok)
      as (k' & Hk' & Hf' & (id & e' & G1 & G2 & _) & _).
    { rewrite <- Hw. eapply ok_reach; [exact Hok | | exact Hp].
      eapply lookup_lt_Some. exact Hp. }
    rewrite Hf in Hf'. inversion Hf' as [Heq]. rewrite <- Heq in G1.
    rewrite He in G1. inversion G1. lia.
  - exists id. unfold getId, find. rewrite Hf. simpl.
    split; [apply at_index_Ok; split; [lia | exact H1]|].
    destruct (ok_valid _ _ _ Hok _ _ H1) as [-> | Hid]; [lia|].
    split.
    + split; [lia|]. intros Hall. exfalso. apply (Hall e); [|done].
      apply list_elem_of_lookup. eauto.
    + intros _. split; [lia|]. eauto.
Qed.

End GetId.

Section Ingest.
Context {P : Platform} {C : Constants}.
Hypothesis capacity : 0 < MAX_VOCAB_SIZE < 2^31.

Lemma add_dict_inv d w :
  dict_inv d -> Z.of_nat (length (words_ d)) < MAX_VOCAB_SIZE ->
  exists d', add d w = Ok d' /\ dict_inv d'
    /\ (length (words_ d') <= S (length (words_ d)))%nat
    /\ args_ d' = args_ d.
Proof.
  intros Hinv Hroom.
  destruct (in_store_dec (words_ d) (length (words_ d)) w)
    as [(p & e & Hp & He & Hw) | Habs].
  - destruct (add_present capacity d w p e Hinv He Hw) as [Ha Hi].
    eexists. split; [exact Ha|]. split; [exact Hi|]. simpl.
    rewrite length_insert. split; [lia | done].
  - destruct (add_absent capacity d w Hinv Hroom)
      as (d' & Ha & Hws & _ & _ & _ & _ & Hargs & _ & _ & _ & Hi).
    { intros e Hin Hw. apply Habs. apply list_elem_of_lookup in Hin as [p Hp].
      exists p, e. split; [eapply lookup_lt_Some; done | done]. }
    exists d'. split; [done|]. split; [done|]. rewrite Hws, length_app. simpl.
    split; [lia | done].
Qed.

Lemma add_all_dict_inv tokens : forall d,
  dict_inv d ->
  Z.of_nat (length (words_ d) + length tokens) <= MAX_VOCAB_SIZE ->
  exists d', add_all d tokens = Ok d' /\ dict_inv d'
    /\ (length (words_ d') <= length (words_ d) + length tokens)%nat
    /\ args_ d' = args_ d.
Proof.
  induction tokens as [|w tokens IH]; intros d Hinv Hroom; simpl.
  - exists d. split; [done|]. split; [done|]. split; [lia | done].
  - simpl in Hroom.
    destruct (add_dict_inv d w Hinv ltac:(lia)) as (d1 & Ha & Hi & Hl & Hargs).
    rewrite Ha. simpl.
    destruct (IH d1 Hi ltac:(lia)) as (d' & Hall & Hi' & Hl' & Hargs').
    exists d'. split; [done|]. split; [done|]. split; [lia | congruence].
Qed.

Lemma filter_all {A} (f : A -> bool) (l : list A) :
  (forall x, In x l -> f x = true) -> List.filter f l = l.
Proof.
  induction l as [|x l IH]; intros H; simpl; [done|].
  rewrite (H x) by (left; done). f_equal. apply IH. intros y Hy. apply H.
  right; done.
Qed.

Lemma count_type_perm ty l1 l2 :
  Permutation l1 l2 -> count_type ty l1 = count_type ty l2.
Proof.
  intros Hp. unfold count_type. f_equal. apply Permutation_length.
  induction Hp; simpl; repeat case_match; try done;
    try (constructor; done).
  - etransitivity; done.
Qed.



(** C4.  Ingesting ["a"; "a"; "b"; "</s>"] with [add] and applying
    [threshold] with both minimum counts 1 yields a store that holds exactly
    [a] with count 2, [b] with count 1 and the end marker "</s>" with count 1,
    all three of type word; the token count is 4, [nwords] is 3 and [nlabels]
    is 0.  This holds for every label prefix that none of the three tokens
    starts with, and every capacity of at least 3. *)
Theorem ingest_scenario `{!PlatformLaws P} (args : Args) :
  3 <= MAX_VOCAB_SIZE ->
  starts_with (label args) (lit "a") = false ->
  starts_with (label args) (lit "b") = false ->
  starts_with (label args) EOS = false ->
  exists d,
    (let* d := add_all (Dictionary_new args) scenario_tokens in threshold d 1 1)
    = Ok d
    /\ Permutation (map triple (words_ d))
         [(lit "a", 2, entry_type.word); (lit "b", 1, entry_type.word);
          (EOS, 1, entry_type.word)]
    /\ ntokens_ d = 4 /\ nwords_ d = 3 /\ nlabels_ d = 0 /\ size_ d = 3.
Proof.
  intros Hcap Ha Hb Hs. unfold scenario_tokens. cbn [add_all].
  (* "a": new *)
  destruct (add_absent capacity (Dictionary_new args) (lit "a") (dict_inv_new args))
    as (d1 & E1 & W1 & S1 & T1 & NW1 & NL1 & A1 & _ & _ & _ & I1).
  { simpl. lia. } { simpl. intros e He. inversion He. }
  rewrite E1. cbn [bind].
  unfold new_entry in W1. change (args_ (Dictionary_new args)) with args in *.
  rewrite Ha in W1. change (words_ (Dictionary_new args)) with (@nil entry) in W1.
  rewrite app_nil_l in W1.
  (* "a": count 2 *)
  destruct (add_present capacity d1 (lit "a") 0%nat
              {| word := lit "a"; count := 1; type := entry_type.word;
                 subwords := [] |} I1) as [E2 I2].
  { rewrite W1. reflexivity. } { reflexivity. }
  rewrite E2. cbn [bind]. clear E2.
  set (d2 := set_words_ _ _) in *.
  assert (W2 : words_ d2 = [ {| word := lit "a"; count := 2;
                                type := entry_type.word; subwords := [] |} ]).
  { unfold d2. cbn [words_ set_words_]. rewrite W1. reflexivity. }
  assert (A2 : args_ d2 = args) by (unfold d2; cbn; exact A1).
  assert (T2 : ntokens_ d2 = int64 (ntokens_ d1 + 1)) by reflexivity.
  clearbody d2.
  (* "b": new *)
  destruct (add_absent capacity d2 (lit "b") I2)
    as (d3 & E3 & W3 & S3 & T3 & NW3 & NL3 & A3 & _ & _ & _ & I3).
  { rewrite W2. simpl. lia. }
  { rewrite W2. intros e He. apply list_elem_of_singleton in He. subst e. done. }
  rewrite E3. cbn [bind].
  unfold new_entry in W3. rewrite A2, Hb, W2 in W3. cbn [app] in W3.
  (* "</s>": new *)
  destruct (add_absent capacity d3 EOS I3)
    as (d4 & E4 & W4 & S4 & T4 & NW4 & NL4 & A4 & _ & _ & _ & I4).
  { rewrite W3. simpl. lia. }
  { rewrite W3. intros e He. rewrite !elem_of_cons in He.
    destruct He as [-> | [-> | He]]; [done | done | inversion He]. }
  rewrite E4. cbn [bind].
  unfold new_entry in W4. rewrite A3, A2, Hs, W3 in W4. cbn [app] in W4.
  (* threshold *)
  destruct (threshold_spec capacity d4 1 1 _) as (index & Hth & Hinv).
  { apply (ok_length _ _ _ (proj1 (di_index _ I4))). }
  { rewrite W4. simpl. lia. }
  rewrite Hth. eexists. split; [reflexivity|]. simpl.
  assert (Hstore : Permutation (threshold_store (words_ d4) 1 1) (words_ d4)).
  { unfold threshold_store. rewrite filter_all; [apply std_sort_perm|].
    intros e He. apply (Permutation_in _ (std_sort_perm (words_ d4))) in He.
    rewrite W4 in He. simpl in He.
    destruct He as [<- | [<- | [<- | []]]]; reflexivity. }
  split; [rewrite Hstore, W4; reflexivity|].
  split.
  { rewrite T4, T3, T2, T1. reflexivity. }
  rewrite !(count_type_perm _ _ _ Hstore), (Permutation_length Hstore), W4.
  done.
Qed.

End Ingest.

Section ReferencePlatform.
#[local] Instance entry_le_total : Total entry_le.
Proof.
  intros a b. unfold entry_le, entry_before, entry_type.ltb.
  repeat case_decide; destruct (type a), (type b); simpl in *;
    try done; try (right; done); try (left; done); lia.
Qed.

#[local] Instance entry_le_trans : Transitive entry_le.
Proof.
  intros a b c. unfold entry_le, entry_before, entry_type.ltb.
  repeat case_decide; destruct (type a), (type b), (type c); simpl in *;
    try done; lia.
Qed.

#[global] Instance reference_platform_laws : PlatformLaws reference_platform.
Proof.
  split.
  - intros l. apply merge_sort_Permutation.
  - intros l. apply (StronglySorted_merge_sort entry_le).
  - intros m. reflexivity.
Qed.

End ReferencePlatform.

Section PruneLists.
Context {P : Platform} {C : Constants}.


Lemma select_from_app W l1 : forall i l2,
  select_from i W (l1 ++ l2)
  = select_from i W l1 ++ select_from (i + length l1) W l2.
Proof.
  induction l1 as [|e l1 IH]; intros i l2; simpl.
  - rewrite Nat.add_0_r. done.
  - rewrite IH. replace (S i + length l1)%nat with (i + S (length l1))%nat by lia.
    destruct (_ || _); done.
Qed.

Lemma select_from_sublist W l : forall i, select_from i W l `sublist_of` l.
Proof.
  induction l as [|e l IH]; intros i; simpl; [constructor|].
  destruct (_ || _); [apply sublist_skip | apply sublist_cons]; apply IH.
Qed.

Lemma StronglySorted_sublist {A} (R : A -> A -> Prop) (l1 l2 : list A) :
  l1 `sublist_of` l2 -> StronglySorted R l2 -> StronglySorted R l1.
Proof.
  induction 1 as [|x l1 l2 Hs IH|x l1 l2 Hs IH]; intros Hl2.
  - constructor.
  - apply StronglySorted_cons in Hl2 as [Hall Hl2].
    apply StronglySorted_cons. split; [|auto].
    rewrite Forall_forall in *. intros y Hy. apply Hall.
    eapply elem_of_sublist; done.
  - apply StronglySorted_cons in Hl2 as [_ Hl2]. auto.
Qed.

Lemma grouped_sorted_StronglySorted l :
  grouped_sorted l <-> StronglySorted entry_order l.
Proof.
  split.
  - induction l as [|e l IH]; intros H; [constructor|].
    apply StronglySorted_cons. split.
    + apply Forall_forall. intros x Hx. apply list_elem_of_lookup in Hx as [j Hj].
      apply (H 0%nat (S j)); [lia | done | done].
    + apply IH. intros i j e1 e2 Hij H1 H2.
      apply (H (S i) (S j)); [lia | done | done].
  - intros Hs i j e1 e2 Hij H1 H2.
    apply (StronglySorted_lookup_lt entry_order l i j); done.
Qed.

Lemma grouped_sorted_sublist l1 l2 :
  l1 `sublist_of` l2 -> grouped_sorted l2 -> grouped_sorted l1.
Proof.
  rewrite !grouped_sorted_StronglySorted. apply StronglySorted_sublist.
Qed.

Lemma filter_none {A} (f : A -> bool) (l : list A) :
  (forall x, In x l -> f x = false) -> List.filter f l = [].
Proof.
  induction l as [|x l IH]; intros H; simpl; [done|].
  rewrite (H x) by (left; done). apply IH. intros y Hy. apply H. right; done.
Qed.

(** In a strictly increasing list the element [i], if there, sits at the
    index that counts the smaller elements. *)
Lemma sorted_index (W : list Z) (i : Z) :
  StronglySorted Z.lt W ->
  W !! length (List.filter (fun x => x <? i) W) = Some i <-> i ∈ W.
Proof.
  induction 1 as [|x W Hs IH Hall]; simpl.
  - split; [done | intros H; inversion H].
  - rewrite List.Forall_forall in Hall.
    destruct (Z.ltb_spec x i) as [Hlt | Hge]; simpl.
    + rewrite IH, elem_of_cons. split; [auto | intros [-> | H]; [lia | done]].
    + rewrite filter_none.
      2:{ intros y Hy. apply Z.ltb_ge. specialize (Hall y Hy). lia. }
      simpl. rewrite elem_of_cons. split.
      * intros Hx. inversion Hx. auto.
      * intros [-> | Hin]; [done|]. apply list_elem_of_In, Hall in Hin. lia.
Qed.

Lemma filter_lt_succ (W : list Z) (i : Z) :
  NoDup W ->
  length (List.filter (fun x => x <? i + 1) W)
  = (length (List.filter (fun x => (x <? i)%Z) W)
     + if bool_decide (i ∈ W) then 1 else 0)%nat.
Proof.
  induction 1 as [|x W Hx Hnd IH]; simpl; [done|].
  destruct (Z.ltb_spec x (i + 1)), (Z.ltb_spec x i); try lia; simpl; rewrite IH;
    repeat case_bool_decide; try lia; exfalso;
    match goal with
    | H : _ ∈ _ :: _ |- _ => apply elem_of_cons in H as [?|?]; try done; try lia
    | H : ¬ (_ ∈ _ :: _) |- _ => apply H; rewrite elem_of_cons; auto with lia
    end.
  all: assert (x = i) by lia; subst; done.
Qed.

Lemma filter_lt_all (W : list Z) (n : Z) :
  (forall x, x ∈ W -> x < n) -> List.filter (fun x => x <? n) W = W.
Proof.
  intros H. apply filter_all. intros x Hx. apply Z.ltb_lt, H, list_elem_of_In, Hx.
Qed.

Lemma sorted_le_NoDup_lt (W : list Z) :
  Sorted Z.le W -> NoDup W -> StronglySorted Z.lt W.
Proof.
  intros Hs Hnd. apply (Sorted_StronglySorted Z.le) in Hs.
  induction Hs as [|x W Hs IH Hall]; [constructor|].
  apply NoDup_cons in Hnd as [Hx Hnd]. constructor; [auto|].
  rewrite List.Forall_forall in *. intros y Hy. specialize (Hall y Hy).
  assert (y <> x) by (intros ->; apply Hx, list_elem_of_In, Hy). lia.
Qed.

End PruneLists.

Section PruneLoop.
Context {P : Platform} {C : Constants}.
Hypothesis capacity : 0 < MAX_VOCAB_SIZE < 2^31.

Lemma count_type_app ty l1 l2 :
  count_type ty (l1 ++ l2) = count_type ty l1 + count_type ty l2.
Proof.
  unfold count_type. rewrite List.filter_app, length_app. lia.
Qed.

Lemma count_type_none ty l :
  (forall e, e ∈ l -> type e <> ty) -> count_type ty l = 0.
Proof.
  intros H. unfold count_type. rewrite filter_none; [done|].
  intros e He. apply bool_decide_eq_false_2, H, list_elem_of_In, He.
Qed.

Lemma drop_lookup_head {A} (l : list A) i x r :
  drop i l = x :: r -> l !! i = Some x /\ drop (S i) l = r.
Proof.
  intros H. split.
  - pose proof (lookup_drop l i 0) as H1. rewrite H, Nat.add_0_r in H1. done.
  - pose proof (drop_drop l 1 i) as H1. rewrite H in H1. simpl in H1.
    rewrite Nat.add_1_r in H1. done.
Qed.

Section Loop.
Variable d : Dictionary.
Variable W : list Z.
Let orig := words_ d.
Let nw := count_type entry_type.word orig.
Hypothesis Hsize : size_ d = Z.of_nat (length orig).
Hypothesis Hlen : Z.of_nat (length orig) <= MAX_VOCAB_SIZE.
Hypothesis HWsorted : StronglySorted Z.lt W.
Hypothesis HWnodup : NoDup W.
Hypothesis HWrange : forall x, x ∈ W -> 0 <= x < nw.
Hypothesis Hgroup : forall i e, orig !! i = Some e ->
  (type e = entry_type.word <-> Z.of_nat i < nw).

Let K (i : nat) : list entry := select_from 0 W (take i orig).

Lemma K_succ i e :
  orig !! i = Some e ->
  K (S i) = K i ++ (if bool_decide (type e = entry_type.label)
                       || bool_decide (Z.of_nat i ∈ W) then [e] else []).
Proof.
  intros He. unfold K. rewrite (take_S_r _ _ _ He), select_from_app.
  rewrite length_take_le by (apply lookup_lt_Some in He; lia). simpl.
  destruct (_ || _); done.
Qed.

Lemma K_length_le i : (length (K i) <= i)%nat.
Proof.
  unfold K. pose proof (sublist_length _ _ (select_from_sublist W (take i orig) 0)) as H.
  rewrite length_take in H. lia.
Qed.

Lemma K_length i :
  (i <= length orig)%nat ->
  Z.of_nat (length (K i))
  = Z.of_nat (length (List.filter (fun x => x <? Z.of_nat i) W))
    + count_type entry_type.label (take i orig).
Proof.
  induction i as [|i IH]; intros Hi.
  - unfold K. simpl. rewrite filter_none; [done|].
    intros x Hx. apply Z.ltb_ge. apply list_elem_of_In, HWrange in Hx. lia.
  - destruct (orig !! i) as [e|] eqn:He.
    2:{ apply lookup_ge_None in He. lia. }
    rewrite (K_succ i e He), length_app, (take_S_r _ _ _ He), count_type_app.
    rewrite Nat2Z.inj_add, IH by lia.
    replace (Z.of_nat (S i)) with (Z.of_nat i + 1) by lia.
    rewrite (filter_lt_succ W (Z.of_nat i) HWnodup).
    rewrite count_type_cons. unfold count_type at 3. simpl.
    destruct (decide (type e = entry_type.label)) as [Hl|Hl].
    + rewrite (bool_decide_eq_true_2 (type e = entry_type.label)) by done.
      rewrite bool_decide_eq_false_2.
      2:{ intros Hin. apply HWrange in Hin. destruct Hin as [_ Hin].
          apply (Hgroup _ _ He) in Hin. congruence. }
      simpl. lia.
    + rewrite (bool_decide_eq_false_2 (type e = entry_type.label)) by done.
      simpl. case_bool_decide; simpl; lia.
Qed.

(** The test [words[j] == i] of the loop selects the selected word ids. *)
Lemma prune_test i e :
  orig !! i = Some e -> type e = entry_type.word ->
  W !! length (K i) = Some (Z.of_nat i) <-> Z.of_nat i ∈ W.
Proof.
  intros He Hty. rewrite <- (sorted_index W (Z.of_nat i) HWsorted).
  assert (Hi : (i < length orig)%nat) by (eapply lookup_lt_Some; done).
  pose proof (K_length i ltac:(lia)) as HK.
  rewrite count_type_none in HK.
  2:{ intros e' He' Hl. apply list_elem_of_lookup in He' as [p Hp].
      apply lookup_take_Some in Hp as [Hp Hlt].
      assert (type e' = entry_type.word); [|congruence].
      apply (Hgroup _ _ Hp). apply (Hgroup _ _ He) in Hty. lia. }
  replace (length (K i)) with (length (List.filter (fun x => x <? Z.of_nat i) W)) by lia.
  done.
Qed.

Lemma prune_loop_spec : forall rest i ws index,
  (i <= length orig)%nat ->
  orig = take i orig ++ rest ->
  length ws = length orig ->
  drop i ws = rest ->
  take (length (K i)) ws = K i ->
  index_inv ws index (length (K i)) ->
  exists ws' index',
    for_loop (length rest) (Z.of_nat i) (prune_body d W)
             (ws, index, Z.of_nat (length (K i)))
    = Ok (ws', index', Z.of_nat (length (K (length orig))))
    /\ length ws' = length orig
    /\ take (length (K (length orig))) ws' = K (length orig)
    /\ index_inv ws' index' (length (K (length orig))).
Proof.
  induction rest as [|e rest IH]; intros i ws index Hile Hsplit Hwl Hdrop Htake Hinv.
  - assert (i = length orig) as ->.
    { apply (f_equal length) in Hsplit. rewrite length_app, length_take in Hsplit.
      simpl in Hsplit. lia. }
    exists ws, index. simpl. done.
  - assert (Hi : (i < length orig)%nat).
    { apply (f_equal length) in Hsplit. rewrite length_app, length_take in Hsplit.
      simpl in Hsplit. lia. }
    assert (He : orig !! i = Some e).
    { rewrite Hsplit at 1. rewrite lookup_app_r by (rewrite length_take; lia).
      rewrite length_take. replace (i - i `min` length orig)%nat with 0%nat by lia.
      done. }
    destruct (drop_lookup_head ws i e rest Hdrop) as [Hwi Hdrop'].
    pose proof (K_length_le i) as HKle.
    assert (Hsplit' : orig = take (S i) orig ++ rest).
    { rewrite (take_S_r _ _ _ He), <- app_assoc. done. }
    cbn [for_loop length]. unfold prune_body at 1.
    unfold getType. cbn [size_ set_words_ words_].
    unfold assert.
    destruct (Z.leb_spec 0 (Z.of_nat i)); [|lia]. cbn [bind].
    destruct (Z.ltb_spec (Z.of_nat i) (size_ d)); [|lia]. cbn [bind].
    rewrite (at_index_nat ws i e Hwi). cbn [bind].
    rewrite Nat2Z.id.
    assert (Hsel : bool_decide (type e = entry_type.label)
                   || bool_decide (W !! length (K i) = Some (Z.of_nat i))
                   = bool_decide (type e = entry_type.label)
                     || bool_decide (Z.of_nat i ∈ W)).
    { destruct (decide (type e = entry_type.label)) as [Hl|Hl].
      - rewrite !(bool_decide_eq_true_2 (type e = entry_type.label)) by done. done.
      - f_equal. apply bool_decide_ext. apply (prune_test i e He).
        destruct (type e); done. }
    rewrite Hsel. pose proof (K_succ i e He) as HKs.
    replace (Z.of_nat i + 1) with (Z.of_nat (S i)) by lia.
    destruct (bool_decide (type e = entry_type.label)
              || bool_decide (Z.of_nat i ∈ W)) eqn:Hc.
    + (* kept: words_[j] = words_[i]; word2int_[find(...)] = j; j++ *)
      rewrite store_at_Ok by lia. cbn [bind]. rewrite Nat2Z.id.
      set (ws1 := <[length (K i) := e]> ws).
      destruct Hinv as [Hok Hload].
      assert (Hok1 : index_ok ws1 index (length (K i))).
      { eapply (index_ok_ext capacity); [exact Hok | |].
        - intros p Hp. unfold ws1. rewrite list_lookup_insert_ne by lia. done.
        - unfold ws1. rewrite length_insert. lia. }
      destruct (find_in_total capacity ws1 index _ (word e) Hok1)
        as (k & Hk & Hf & Hs & Ho).
      { left. apply exists_empty_slot. rewrite (ok_length _ _ _ Hok). lia. }
      pose proof (probe_range capacity (home (word e)) k) as Hr.
      rewrite Hf. cbn [bind].
      rewrite store_at_Ok by (rewrite (ok_length _ _ _ Hok); lia). cbn [bind].
      rewrite int32_id by lia.
      assert (HlenK : length (K (S i)) = S (length (K i))).
      { rewrite HKs, length_app. simpl. lia. }
      replace (Z.of_nat (length (K i)) + 1) with (Z.of_nat (length (K (S i)))) by lia.
      apply (IH (S i)); try done.
      * unfold ws1. rewrite length_insert. done.
      * unfold ws1. rewrite drop_insert_lt by lia. done.
      * rewrite HlenK, HKs. unfold ws1.
        rewrite (take_S_r _ _ e) by (apply list_lookup_insert_eq; lia).
        rewrite take_insert_ge by lia. rewrite Htake. done.
      * rewrite HlenK.
        apply (index_inv_insert capacity ws1 ws1 index _ (word e) e k);
          try done.
        unfold ws1. apply list_lookup_insert_eq. lia.
    + (* skipped *)
      assert (HKeq : K (S i) = K i) by (rewrite HKs, app_nil_r; done).
      rewrite <- HKeq. apply (IH (S i)); try done; try lia; rewrite HKeq; done.
Qed.

End Loop.

End PruneLoop.

Section Prune.
Context {P : Platform} {C : Constants}.
Hypothesis capacity : 0 < MAX_VOCAB_SIZE < 2^31.


Lemma grouped_position l : grouped_sorted l ->
  forall i e, l !! i = Some e ->
    (type e = entry_type.word <-> Z.of_nat i < count_type entry_type.word l).
Proof.
  induction l as [|e0 l IH]; intros Hg i e He; [done|].
  assert (Hg' : grouped_sorted l).
  { intros a b e1 e2 Hab H1 H2. apply (Hg (S a) (S b)); [lia | done | done]. }
  rewrite count_type_cons. pose proof (count_type_bound entry_type.word l) as Hb.
  destruct (decide (type e0 = entry_type.word)) as [Hw|Hl].
  - destruct i as [|i]; simpl in He.
    + inversion He; subst. split; [lia | done].
    + rewrite (IH Hg' i e He). lia.
  - assert (Hall : forall e', e' ∈ l -> type e' <> entry_type.word).
    { intros e' Hin Hw'. apply list_elem_of_lookup in Hin as [j Hj].
      apply Hl. destruct (Hg 0%nat (S j) e0 e') as [H1 _]; [lia | done | exact Hj |].
      exact (H1 Hw'). }
    rewrite (count_type_none entry_type.word l Hall).
    destruct i as [|i]; simpl in He.
    + inversion He; subst. split; [done | lia].
    + split; [|lia]. intros Hw. exfalso. apply (Hall e); [|done].
      apply list_elem_of_lookup. eauto.
Qed.

Lemma count_label_select W l : forall i,
  count_type entry_type.label (select_from i W l) = count_type entry_type.label l.
Proof.
  induction l as [|e l IH]; intros i; simpl; [done|].
  destruct (decide (type e = entry_type.label)) as [Hl|Hl].
  - rewrite (bool_decide_eq_true_2 _ Hl). simpl. rewrite !count_type_cons, IH. done.
  - rewrite (bool_decide_eq_false_2 _ Hl). simpl.
    destruct (bool_decide _); rewrite ?count_type_cons, IH;
      repeat case_decide; try done; lia.
Qed.

Lemma convertNgrams_Ok d input ng d' r :
  convertNgrams d input ng = Ok (d', r) -> exists q, d' = set_quantidx_ q d.
Proof.
  unfold convertNgrams. destruct input as [content|]; [|done].
  intros H. apply bind_Ok in H as (cm & _ & H).
  apply bind_Ok in H as ([q rem] & _ & H). inversion H. eauto.
Qed.

Lemma prune_words_sorted d idx :
  NoDup (List.filter (fun it => it <? nwords_ d) idx) ->
  StronglySorted Z.lt (prune_words d idx) /\ NoDup (prune_words d idx).
Proof.
  intros Hnd. unfold prune_words.
  assert (Hnd' : NoDup (merge_sort Z.le (List.filter (fun it => it <? nwords_ d) idx))).
  { rewrite merge_sort_Permutation. done. }
  split; [|done]. apply sorted_le_NoDup_lt; [|done]. apply Sorted_merge_sort. 
  intros x y. lia.
Qed.

Lemma prune_words_range d idx x :
  (forall y, y ∈ idx -> 0 <= y) ->
  x ∈ prune_words d idx -> 0 <= x < nwords_ d.
Proof.
  intros Hpos Hx. unfold prune_words in Hx. rewrite merge_sort_Permutation in Hx.
  apply list_elem_of_In, List.filter_In in Hx as [Hin Hlt].
  apply Z.ltb_lt in Hlt. apply list_elem_of_In, Hpos in Hin. lia.
Qed.

(** [prune] with the quantization step set aside: the store keeps the labels
    and the selected words, in their order, and the dictionary stays well
    formed. *)
Lemma prune_spec d input idx q ng :
  store_ok d ->
  NoDup (List.filter (fun it => it <? nwords_ d) idx) ->
  (forall x, x ∈ idx -> 0 <= x) ->
  (prune_ngrams d idx = [] /\ q = quantidx_ d /\ ng = [])
  \/ (prune_ngrams d idx <> []
      /\ convertNgrams d input (prune_ngrams d idx) = Ok (set_quantidx_ q d, ng)) ->
  exists d',
    prune d input idx = Ok (d', prune_words d idx ++ ng)
    /\ words_ d' = select_from 0 (prune_words d idx) (words_ d)
    /\ nwords_ d' = Z.of_nat (length (prune_words d idx))
    /\ nlabels_ d' = nlabels_ d
    /\ quantidx_ d' = q
    /\ args_ d' = args_ d /\ quant_ d' = quant_ d
    /\ store_ok d'.
Proof.
  intros [[[Hok Hload] Hsize Hnd] Hcap Hnw Hnl Hord] HndW Hpos Hq.
  set (W := prune_words d idx).
  destruct (prune_words_sorted d idx HndW) as [HWs HWn]. fold W in HWs, HWn.
  assert (HWr : forall x, x ∈ W -> 0 <= x < count_type entry_type.word (words_ d)).
  { intros x Hx. rewrite <- Hnw. eapply prune_words_range; done. }
  pose proof (grouped_position _ Hord) as Hgroup.
  set (K := select_from 0 W (words_ d)).
  assert (HKlen : Z.of_nat (length K) = Z.of_nat (length W) + nlabels_ d).
  { pose proof (K_length d W HWn HWr Hgroup (length (words_ d)) ltac:(lia)) as HK.
    rewrite !firstn_all in HK. fold K in HK. rewrite HK, Hnl.
    rewrite filter_lt_all; [done|]. intros x Hx. apply HWr in Hx.
    pose proof (count_type_bound entry_type.word (words_ d)). lia. }
  assert (HKle : (length K <= length (words_ d))%nat).
  { apply sublist_length, select_from_sublist. }
  destruct (prune_loop_spec capacity d W Hsize Hcap HWs HWn HWr Hgroup
              (words_ d) 0%nat (words_ d)
              (replicate (length (word2int_ d)) (-1)))
    as (ws' & index' & Hloop & Hwl & Htake & Hinv); try done.
  { lia. }
  { simpl. rewrite (ok_length _ _ _ Hok). apply index_inv_replicate. }
  rewrite !firstn_all in Hloop, Htake, Hinv. fold K in Hloop, Htake, Hinv.
  change (Z.of_nat (length (select_from 0 W (take 0 (words_ d))))) with 0 in Hloop.
  change (Z.of_nat 0) with 0 in Hloop.
  assert (Hfin : forall dq : Dictionary,
    prune_body dq W = prune_body d W ->
    words_ dq = words_ d -> word2int_ dq = word2int_ d ->
    nlabels_ dq = nlabels_ d ->
    exists d', (let index := replicate (length (word2int_ dq)) (-1) in
      let* '(ws, index, _) :=
        for_loop (length (words_ dq)) 0 (prune_body dq W) (words_ dq, index, 0) in
      let nwords := int32 (Z.of_nat (length W)) in
      let size := int32 (nwords + nlabels_ dq) in
      let* _ := (if (0 <=? size) && (size <=? Z.of_nat (length ws))
                 then Ok tt else Err OutOfRange) in
      Ok (set_counters size nwords (nlabels_ dq)
            (set_word2int_ index (set_words_ (take (Z.to_nat size) ws) dq)),
          prune_words d idx ++ ng))
      = Ok (d', prune_words d idx ++ ng)
      /\ words_ d' = K /\ nwords_ d' = Z.of_nat (length W)
      /\ nlabels_ d' = nlabels_ d /\ quantidx_ d' = quantidx_ dq
      /\ args_ d' = args_ dq /\ quant_ d' = quant_ dq
      /\ store_ok d').
  { intros dq Hs Hw Hi Hl. cbv zeta.
    pose proof (count_type_bound entry_type.label (words_ d)) as Hlb.
    rewrite Hs, Hw, Hi, Hloop. cbn [bind].
    rewrite (int32_id (Z.of_nat (length W))) by lia.
    rewrite Hl, <- HKlen. rewrite int32_id by lia.
    destruct (Z.leb_spec 0 (Z.of_nat (length K))); [|lia].
    destruct (Z.leb_spec (Z.of_nat (length K)) (Z.of_nat (length ws'))); [|lia].
    cbn [andb bind]. rewrite Nat2Z.id, Htake.
    eexists. split; [reflexivity|]. cbn.
    do 6 (split; [try reflexivity; lia|]).
    split; cbn.
    - split; cbn.
      + split.
        * eapply (index_ok_ext capacity); [exact (proj1 Hinv) | | lia].
          intros p Hp. rewrite <- Htake. rewrite lookup_take_lt by done. done.
        * exact (proj2 Hinv).
      + lia.
      + apply (sublist_NoDup _ (map word (words_ d))); [exact Hnd|].
        apply (fmap_sublist word), select_from_sublist.
    - lia.
    - pose proof (count_type_total K) as Ht.
      assert (Hcl : count_type entry_type.label K
                    = count_type entry_type.label (words_ d))
        by apply count_label_select.
      lia.
    - unfold K. rewrite count_label_select. done.
    - eapply grouped_sorted_sublist; [|exact Hord]. apply select_from_sublist. }
  unfold prune. fold (prune_words d idx). fold (prune_ngrams d idx). fold W.
  cbv zeta.
  destruct Hq as [(Hng & -> & ->) | (Hng & Hconv)].
  - rewrite Hng. rewrite bool_decide_eq_true_2 by done. cbn [bind].
    destruct (Hfin d) as (d' & Hp & Hrest); try done.
    exists d'. split; [|exact Hrest]. rewrite app_nil_r in *. exact Hp.
  - rewrite bool_decide_eq_false_2 by done. rewrite Hconv. cbn [bind].
    destruct (Hfin (set_quantidx_ q d)) as (d' & Hp & Hrest); try done.
    exists d'. split; [exact Hp | exact Hrest].
Qed.

End Prune.

Section PruneTheorems.
Context {P : Platform} {C : Constants}.
Hypothesis capacity : 0 < MAX_VOCAB_SIZE < 2^31.

Lemma list_filter_sublist {A} (f : A -> bool) (l : list A) :
  List.filter f l `sublist_of` l.
Proof.
  induction l as [|x l IH]; simpl; [constructor|].
  destruct (f x); [apply sublist_skip | apply sublist_cons]; done.
Qed.

(** [threshold] on a store without a repeated word leaves a well-formed
    dictionary. *)
Lemma threshold_store_ok `{!PlatformLaws P} d t tl :
  NoDup (map word (words_ d)) ->
  length (word2int_ d) = Z.to_nat MAX_VOCAB_SIZE ->
  Z.of_nat (length (words_ d)) <= MAX_VOCAB_SIZE ->
  exists d', threshold d t tl = Ok d'
    /\ store_ok d'
    /\ words_ d' = threshold_store (words_ d) t tl
    /\ args_ d' = args_ d /\ ntokens_ d' = ntokens_ d
    /\ quant_ d' = quant_ d /\ quantidx_ d' = quantidx_ d
    /\ pdiscard_ d' = pdiscard_ d.
Proof.
  intros Hnd Hlen Hcap.
  destruct (threshold_spec capacity d t tl _ Hlen Hcap) as (index & Hth & Hinv).
  eexists. split; [exact Hth|].
  split; [|cbn; repeat split; reflexivity].
  assert (Hsub : threshold_store (words_ d) t tl `sublist_of` std_sort (words_ d))
    by apply list_filter_sublist.
  split; cbn.
  - split; cbn.
    + done.
    + done.
    + apply (sublist_NoDup _ (map word (std_sort (words_ d)))).
      * rewrite (std_sort_perm (words_ d)). done.
      * apply (fmap_sublist word). done.
  - apply sublist_length in Hsub.
    pose proof (Permutation_length (std_sort_perm (words_ d))). lia.
  - done.
  - done.
  - apply (threshold_store_ordered capacity).
Qed.

(** C3 (as amended).  After every call to [threshold] that the hash index
    has room for, and after [prune] of a well-formed dictionary with
    distinct, non-negative selected word ids, the entries are grouped with
    the words before the labels and sorted by count, largest first, within
    each group, and [size = nwords + nlabels] holds, [size] being the length
    of the store.  [threshold] always returns; [prune] returns whenever its
    quantization step ([convertNgrams], run when n-gram ids are selected)
    does. *)
Theorem order_after_threshold_and_prune `{!PlatformLaws P} :
  (forall (d : Dictionary) (t tl : Z),
     length (word2int_ d) = Z.to_nat MAX_VOCAB_SIZE ->
     Z.of_nat (length (words_ d)) <= MAX_VOCAB_SIZE ->
     exists d', threshold d t tl = Ok d'
       /\ grouped_sorted (words_ d')
       /\ size_ d' = nwords_ d' + nlabels_ d'
       /\ size_ d' = Z.of_nat (length (words_ d')))
  /\ (forall (d : Dictionary) (input : option (list ascii)) (idx : list Z),
        store_ok d ->
        NoDup (List.filter (fun it => it <? nwords_ d) idx) ->
        (forall x, x ∈ idx -> 0 <= x) ->
        (prune_ngrams d idx = []
         \/ exists r, convertNgrams d input (prune_ngrams d idx) = Ok r) ->
        exists d' idx', prune d input idx = Ok (d', idx')
          /\ grouped_sorted (words_ d')
          /\ size_ d' = nwords_ d' + nlabels_ d'
          /\ size_ d' = Z.of_nat (length (words_ d'))).
Proof.
  split.
  - intros d t tl Hlen Hcap. apply threshold_ordered; done.
  - intros d input idx Hok Hnd Hpos Hq.
    assert (exists q ng,
      (prune_ngrams d idx = [] /\ q = quantidx_ d /\ ng = [])
      \/ (prune_ngrams d idx <> []
          /\ convertNgrams d input (prune_ngrams d idx)
             = Ok (set_quantidx_ q d, ng))) as (q & ng & Hcase).
    { destruct (decide (prune_ngrams d idx = [])) as [Hn|Hn].
      - exists (quantidx_ d), []. left. done.
      - destruct Hq as [Hq | [[d' r] Hq]]; [done|].
        destruct (convertNgrams_Ok _ _ _ _ _ Hq) as [q ->].
        exists q, r. right. done. }
    destruct (prune_spec capacity d input idx q ng Hok Hnd Hpos Hcase)
      as (d' & Hp & Hw & Hnw & Hnl & _ & _ & _ & Hok').
    exists d', (prune_words d idx ++ ng). split; [exact Hp|].
    split; [apply (so_order _ Hok')|].
    pose proof (di_size _ (so_inv _ Hok')) as Hsz.
    split; [|exact Hsz].
    rewrite Hsz, (so_nwords _ Hok'), (so_nlabels _ Hok'), count_type_total. done.
Qed.

Lemma seqZ_filter_lt (idx : list Z) k n :
  Permutation idx (seqZ 0 k) -> k <= n ->
  List.filter (fun it => it <? n) idx = idx
  /\ List.filter (fun it => negb (it <? n)) idx = [].
Proof.
  intros Hp Hk.
  assert (H : forall x, In x idx -> x < n).
  { intros x Hx. apply list_elem_of_In in Hx. rewrite Hp in Hx.
    apply elem_of_seqZ in Hx. lia. }
  split.
  - apply filter_all. intros x Hx. apply Z.ltb_lt. auto.
  - apply filter_none. intros x Hx. apply negb_false_iff, Z.ltb_lt. auto.
Qed.

(** C8 (as amended).  When the selected ids are word ids only -- the ids
    [0 .. k-1] for some [k <= nwords], in any order -- [prune] never replays
    the corpus: a first and a second run with these ids both return, and
    the QuantizationMap after the second run is the one after the first
    (which is the one before). *)
Theorem prune_twice_word_ids (d : Dictionary) (input : option (list ascii))
    (idx : list Z) (k : Z) :
  store_ok d ->
  Permutation idx (seqZ 0 k) -> 0 <= k <= nwords_ d ->
  exists d1 idx1 d2 idx2,
    prune d input idx = Ok (d1, idx1)
    /\ prune d1 input idx = Ok (d2, idx2)
    /\ quantidx_ d2 = quantidx_ d1
    /\ quantidx_ d1 = quantidx_ d.
Proof.
  intros Hok Hp Hk.
  assert (Hnd : NoDup idx) by (rewrite Hp; apply NoDup_seqZ).
  assert (Hpos : forall x, x ∈ idx -> 0 <= x).
  { intros x Hx. rewrite Hp in Hx. apply elem_of_seqZ in Hx. lia. }
  destruct (seqZ_filter_lt idx k (nwords_ d) Hp ltac:(lia)) as [Hf1 Hf2].
  destruct (prune_spec capacity d input idx (quantidx_ d) [] Hok) as
    (d1 & Hp1 & _ & Hnw1 & _ & Hq1 & _ & _ & Hok1); try done.
  { rewrite Hf1. done. }
  { left. done. }
  assert (Hk1 : nwords_ d1 = k).
  { rewrite Hnw1. unfold prune_words. rewrite merge_sort_Permutation, Hf1, Hp.
    rewrite length_seqZ. lia. }
  destruct (seqZ_filter_lt idx k (nwords_ d1) Hp ltac:(lia)) as [Hg1 Hg2].
  destruct (prune_spec capacity d1 input idx (quantidx_ d1) [] Hok1) as
    (d2 & Hp2 & _ & _ & _ & Hq2 & _ & _ & _); try done.
  { rewrite Hg1. done. }
  { left. done. }
  exists d1, (prune_words d idx ++ []), d2, (prune_words d1 idx ++ []).
  done.
Qed.

End PruneTheorems.

Section Witnesses.
#[local] Existing Instance small_constants.

Lemma small_capacity : 0 < MAX_VOCAB_SIZE < 2^31.
Proof. split; reflexivity. Qed.

Lemma fastText_capacity : 0 < MAX_VOCAB_SIZE (Constants := fastText_constants) < 2^31.
Proof. split; reflexivity. Qed.

Lemma demo_ingested_inv : dict_inv demo_ingested.
Proof.
  destruct (add_all_dict_inv small_capacity demo_tokens
              (Dictionary_new (default_args sup)) (dict_inv_new _))
    as (d & Hd & Hinv & _).
  { vm_compute. discriminate. }
  assert (Heq : add_all (Dictionary_new (default_args sup)) demo_tokens
                = Ok demo_ingested) by reflexivity.
  rewrite Heq in Hd. inversion Hd as [Hdd]. rewrite Hdd. exact Hinv.
Qed.

Lemma demo_dict_ok : store_ok demo_dict.
Proof.
  destruct (threshold_store_ok small_capacity demo_ingested 1 1)
    as (d & Hd & Hok & _).
  - apply (di_nodup _ demo_ingested_inv).
  - reflexivity.
  - vm_compute. discriminate.
  - assert (Heq : threshold demo_ingested 1 1 = Ok demo_dict) by reflexivity.
    rewrite Heq in Hd. inversion Hd as [Hdd]. rewrite Hdd. exact Hok.
Qed.

Lemma getId_spec_witness :
  exists id, getId demo_dict (lit "b") = Ok id
    /\ (id = -1 <-> forall e, e ∈ words_ demo_dict -> word e <> lit "b")
    /\ (id <> -1 ->
        0 <= id < size_ demo_dict
        /\ exists e, words_ demo_dict !! Z.to_nat id = Some e /\ word e = lit "b").
Proof.
  apply (getId_spec small_capacity demo_dict (lit "b")).
  - exact (proj1 (di_index _ (so_inv _ demo_dict_ok))).
  - reflexivity.
  - exists 0%nat. reflexivity.
Defined.

Lemma ingest_scenario_witness :
  exists d,
    (let* d := add_all (C := fastText_constants)
                 (Dictionary_new (C := fastText_constants) (default_args sup))
                 scenario_tokens in
     threshold (C := fastText_constants) d 1 1) = Ok d
    /\ Permutation (map triple (words_ d))
         [(lit "a", 2, entry_type.word); (lit "b", 1, entry_type.word);
          (EOS, 1, entry_type.word)]
    /\ ntokens_ d = 4 /\ nwords_ d = 3 /\ nlabels_ d = 0 /\ size_ d = 3.
Proof.
  refine (ingest_scenario (C := fastText_constants) fastText_capacity
            (default_args sup) _ _ _ _).
  - vm_compute. discriminate.
  - reflexivity.
  - reflexivity.
  - reflexivity.
Defined.

Lemma order_after_threshold_and_prune_witness :
  (exists d', threshold demo_ingested 1 1 = Ok d'
     /\ grouped_sorted (words_ d')
     /\ size_ d' = nwords_ d' + nlabels_ d'
     /\ size_ d' = Z.of_nat (length (words_ d')))
  /\ (exists d' idx', prune demo_dict None [2; 0] = Ok (d', idx')
        /\ grouped_sorted (words_ d')
        /\ size_ d' = nwords_ d' + nlabels_ d'
        /\ size_ d' = Z.of_nat (length (words_ d'))).
Proof.
  destruct (order_after_threshold_and_prune small_capacity) as [Ht Hp].
  split.
  - apply Ht; [reflexivity | vm_compute; discriminate].
  - apply Hp.
    + exact demo_dict_ok.
    + vm_compute. repeat (constructor; [set_solver|]). constructor.
    + intros x Hx. vm_compute in Hx. set_solver by lia.
    + left. reflexivity.
Defined.

Lemma prune_twice_word_ids_witness :
  exists d1 idx1 d2 idx2,
    prune demo_dict None [1; 0] = Ok (d1, idx1)
    /\ prune d1 None [1; 0] = Ok (d2, idx2)
    /\ quantidx_ d2 = quantidx_ d1
    /\ quantidx_ d1 = quantidx_ demo_dict.
Proof.
  apply (prune_twice_word_ids small_capacity demo_dict None [1; 0] 2).
  - exact demo_dict_ok.
  - change (seqZ 0 2) with [0; 1]. apply perm_swap.
  - vm_compute. split; discriminate.
Defined.

End Witnesses.

Section QuantizationTwice.
#[local] Existing Instance small_constants.

(** C8 (as stated) fails.  The corpus is the four lines "c a", "", "", "c"
    (the last without a newline); the dictionary read from it has the words
    "</s>" (3), "c" (2), "a" (1), so [nwords = 3].  With bucket = 2 and word
    bigrams, [prune] with the ids 0, 1, 2 and the n-gram id 3 returns with
    the QuantizationMap {1 -> 0}; the same call on the pruned dictionary
    returns with {0 -> 0}. *)
Lemma prune_twice_differs :
  (let* '(d, _) := readFromFile (Dictionary_new quant_args)
                                (open_stream quant_corpus) in
   let* '(d1, _) := prune d (Some quant_corpus) [0; 1; 2; 3] in
   let* '(d2, _) := prune d1 (Some quant_corpus) [0; 1; 2; 3] in
   Ok (map triple (words_ d), nwords_ d,
       map_to_list (quantidx_ d1), map_to_list (quantidx_ d2)))
  = Ok ([(EOS, 3, entry_type.word); (lit "c", 2, entry_type.word);
         (lit "a", 1, entry_type.word)], 3,
        [(1, 0)], [(0, 0)]).
Proof. reflexivity. Qed.

End QuantizationTwice.

Section PruneSelections.
#[local] Existing Instance small_constants.

(** C3 (as stated) fails for [prune].  The dictionary is the one [threshold]
    leaves after the tokens of [demo_tokens]: the words "a" (3), "b" (2) and
    "</s>" (1), then the label "__label__x" (1), in order.  When the word id
    0 is selected twice, [nwords] becomes 2 while only "a" is kept: the
    store is "a", "__label__x", "</s>", a label before a word.  When the
    selection is -1 and 0, no word is kept and the store is "__label__x",
    "b", "</s>".  In both cases [size = nwords + nlabels = 3] holds. *)
Lemma prune_repeated_id_unordered :
  grouped_sorted (words_ demo_dict)
  /\ (exists d' idx', prune demo_dict None [0; 0] = Ok (d', idx')
        /\ map triple (words_ d')
           = [(lit "a", 3, entry_type.word);
              (lit "__label__x", 1, entry_type.label);
              (EOS, 1, entry_type.word)]
        /\ nwords_ d' = 2 /\ nlabels_ d' = 1 /\ size_ d' = 3
        /\ ~ grouped_sorted (words_ d'))
  /\ (exists d' idx', prune demo_dict None [-1; 0] = Ok (d', idx')
        /\ map triple (words_ d')
           = [(lit "__label__x", 1, entry_type.label);
              (lit "b", 2, entry_type.word);
              (EOS, 1, entry_type.word)]
        /\ nwords_ d' = 2 /\ nlabels_ d' = 1 /\ size_ d' = 3
        /\ ~ grouped_sorted (words_ d')).
Proof.
  split; [apply (so_order _ demo_dict_ok)|].
  split.
  - eexists _, _. split; [reflexivity|].
    do 4 (split; [reflexivity|]).
    intros H.
    destruct (H 1%nat 2%nat _ _ ltac:(lia) eq_refl eq_refl) as [H1 _].
    specialize (H1 eq_refl). discriminate.
  - eexists _, _. split; [reflexivity|].
    do 4 (split; [reflexivity|]).
    intros H.
    destruct (H 0%nat 1%nat _ _ ltac:(lia) eq_refl eq_refl) as [H1 _].
    specialize (H1 eq_refl). discriminate.
Qed.

End PruneSelections.

Section Tokenizer.
Context {P : Platform} {C : Constants}.


Lemma blank_not_EOF c : blank c -> equals_EOF c = false.
Proof.
  intros [Hd _]. unfold is_delimiter in Hd.
  repeat (apply orb_prop in Hd as [Hd | Hd]);
    apply bool_decide_eq_true in Hd; subst c; reflexivity.
Qed.

Lemma newline_delimiter : is_delimiter newline = true /\ equals_EOF newline = false.
Proof. split; reflexivity. Qed.

(** The loop skips the delimiters before a token. *)
Lemma readWord_loop_blanks ds : forall rest bef,
  Forall blank ds ->
  readWord_loop (ds ++ rest) bef [] = readWord_loop rest (rev ds ++ bef) [].
Proof.
  induction ds as [|c ds IH]; intros rest bef Hds; [done|].
  apply Forall_cons in Hds as [Hc Hds]. cbn [app readWord_loop].
  rewrite (blank_not_EOF c Hc). destruct Hc as [Hd Hn]. rewrite Hd.
  rewrite (bool_decide_eq_true_2 (@nil ascii = [])) by done.
  rewrite bool_decide_eq_false_2 by done.
  rewrite IH by done. cbn [rev]. rewrite <- app_assoc. done.
Qed.

(** The loop collects the bytes of a token. *)
Lemma readWord_loop_plain w : forall rest bef word,
  Forall plain w ->
  readWord_loop (w ++ rest) bef word
  = readWord_loop rest (rev w ++ bef) (word ++ w).
Proof.
  induction w as [|c w IH]; intros rest bef word Hw.
  - simpl. rewrite app_nil_r. done.
  - apply Forall_cons in Hw as [[Hd He] Hw]. cbn [app readWord_loop].
    rewrite He, Hd. rewrite IH by done. cbn [rev]. rewrite <- !app_assoc. done.
Qed.

(** What the loop returns: a token is never empty, and it is the end marker
    or free of delimiters. *)
Lemma readWord_loop_shape aft : forall bef word r bef' aft' word',
  Forall plain word ->
  readWord_loop aft bef word = (r, (bef', aft'), word') ->
  (r = Some false -> False)
  /\ (r = Some true -> word' <> [] /\ (word' = EOS \/ Forall plain word'))
  /\ (r = None -> Forall plain word')
  /\ (word = [] -> aft = [] -> word' = [])
  /\ (length aft' <= length aft)%nat
  /\ (word = [] -> aft <> [] -> (length aft' < length aft)%nat).
Proof.
  induction aft as [|c rest IH]; intros bef word r bef' aft' word' Hw H;
    cbn [readWord_loop] in H.
  - inversion H; subst. split_and!; try done.
  - destruct (equals_EOF c) eqn:He.
    { inversion H; subst. cbn [length]. split_and!; try done; intros; lia. }
    destruct (is_delimiter c) eqn:Hd.
    + destruct (decide (word = [])) as [->|Hne].
      * rewrite (bool_decide_eq_true_2 (@nil ascii = [])) in H by done.
        destruct (decide (c = newline)) as [->|Hc].
        -- rewrite bool_decide_eq_true_2 in H by done. inversion H; subst.
           cbn [length]. split_and!; try done; try (intros; lia).
           intros _. split; [done | left; done].
        -- rewrite bool_decide_eq_false_2 in H by done.
           destruct (IH _ _ _ _ _ _ Hw H) as (I1 & I2 & I3 & I4 & I5 & I6).
           cbn [length]. split_and!; try done; try (intros; lia).
      * rewrite bool_decide_eq_false_2 in H by done.
        destruct (bool_decide (c = newline)); inversion H; subst; cbn [length];
          split_and!; try done; try (intros; lia); intros _; split; auto.
    + assert (Hw' : Forall plain (word ++ [c])).
      { apply Forall_app. split; [done|]. apply Forall_singleton. done. }
      destruct (IH _ _ _ _ _ _ Hw' H) as (I1 & I2 & I3 & I4 & I5 & I6).
      cbn [length]. split_and!; try done; try (intros; lia).
Qed.


Lemma readWord_unfold s :
  readWord s
  = let '(r, (bef, aft), word) := readWord_loop (after s) (before s) [] in
    let s1 := {| before := bef; after := aft;
                 eofbit := eofbit s; failbit := failbit s |} in
    match r with
    | Some b => (b, s1, word)
    | None => (negb (bool_decide (word = [])), snd (istream_get s1), word)
    end.
Proof. reflexivity. Qed.

Lemma istream_get_after s :
  (length (after (snd (istream_get s))) <= length (after s))%nat.
Proof.
  unfold istream_get. destruct (good s); [|simpl; lia].
  destruct (after s); simpl; lia.
Qed.

(** What [readWord] returns, and how far it moves the stream. *)
Lemma readWord_shape (s s' : istream) (b : bool) (w : str) :
  readWord s = (b, s', w) ->
  (b = true -> w <> [] /\ (w = EOS \/ Forall plain w))
  /\ (b = false -> w = [])
  /\ (length (after s') <= length (after s))%nat
  /\ (b = true -> (length (after s') < length (after s))%nat).
Proof.
  rewrite readWord_unfold.
  destruct (readWord_loop (after s) (before s) []) as [[r [bef aft]] word] eqn:E.
  destruct (readWord_loop_shape _ _ _ _ _ _ _ (Forall_nil_2 plain) E)
    as (I1 & I2 & I3 & I4 & I5 & I6).
  destruct r as [[|]|]; intros H; inversion H; subst; clear H.
  - cbn [after]. split; [intros _; apply I2; done|]. split; [done|].
    split; [exact I5|]. intros _.
    destruct (after s); [|apply I6; done].
    cbn [readWord_loop] in E. inversion E.
  - exfalso. apply I1. done.
  - pose proof (istream_get_after
                  {| before := bef; after := aft; eofbit := eofbit s;
                     failbit := failbit s |}) as Hg. cbn [after] in Hg.
    destruct (decide (w = [])) as [->|Hne].
    + rewrite bool_decide_eq_true_2 by done. cbn [negb].
      split; [done|]. split; [done|]. split; [lia | done].
    + rewrite bool_decide_eq_false_2 by done. cbn [negb].
      split; [intros _; split; [done | right; auto]|]. split; [done|].
      split; [lia|]. intros _.
      destruct (after s) eqn:Ea; [|specialize (I6 eq_refl ltac:(done)); lia].
      exfalso. apply Hne. apply I4; done.
Qed.

(** X1.  A token that [readWord] reports is never empty: it is the end
    marker "</s>" or a run of bytes none of which is a delimiter (or 0xFF);
    when [readWord] reports no token the word is empty.  A reported token
    has taken at least one byte from the stream, and [readWord] never moves
    the stream backwards. *)
Theorem readWord_token (s s' : istream) (b : bool) (w : str) :
  readWord s = (b, s', w) ->
  (b = true -> w <> [] /\ (w = EOS \/ Forall plain w))
  /\ (b = false -> w = [])
  /\ (length (after s') <= length (after s))%nat
  /\ (b = true -> (length (after s') < length (after s))%nat).
Proof. apply readWord_shape. Qed.

(** X2.  A newline read when no token is pending yields the end marker
    "</s>" and is consumed; a newline that ends a token is pushed back, so
    that the token is returned first and the next call returns the end
    marker; any other delimiter that ends a token is consumed. *)
Theorem readWord_newline (s : istream) (ds w rest : list ascii) :
  Forall blank ds -> Forall plain w ->
  (after s = ds ++ newline :: rest ->
   readWord s = (true, {| before := newline :: rev ds ++ before s; after := rest;
                          eofbit := eofbit s; failbit := failbit s |}, EOS))
  /\ (w <> [] -> after s = ds ++ w ++ newline :: rest ->
      let s1 := {| before := rev w ++ rev ds ++ before s;
                   after := newline :: rest;
                   eofbit := eofbit s; failbit := failbit s |} in
      readWord s = (true, s1, w)
      /\ readWord s1
         = (true, {| before := newline :: before s1; after := rest;
                     eofbit := eofbit s; failbit := failbit s |}, EOS))
  /\ (forall c, w <> [] -> blank c -> after s = ds ++ w ++ c :: rest ->
      readWord s = (true, {| before := c :: rev w ++ rev ds ++ before s;
                             after := rest;
                             eofbit := eofbit s; failbit := failbit s |}, w)).
Proof.
  intros Hds Hw.
  assert (Hnl : forall bef r, readWord_loop (newline :: r) bef []
                              = (Some true, (newline :: bef, r), EOS)).
  { intros bef r. reflexivity. }
  split_and!.
  - intros Ha. rewrite readWord_unfold, Ha, readWord_loop_blanks, Hnl by done.
    reflexivity.
  - intros Hne Ha s1. split.
    + rewrite readWord_unfold, Ha, readWord_loop_blanks by done.
      rewrite readWord_loop_plain by done. cbn [readWord_loop app].
      rewrite bool_decide_eq_false_2 by done.
      rewrite bool_decide_eq_true_2 by done. reflexivity.
    + rewrite readWord_unfold. unfold s1. cbn [after before eofbit failbit].
      rewrite Hnl. reflexivity.
  - intros c Hne Hc Ha.
    rewrite readWord_unfold, Ha, readWord_loop_blanks by done.
    rewrite readWord_loop_plain by done. cbn [readWord_loop app].
    rewrite (blank_not_EOF c Hc). destruct Hc as [Hd Hn]. rewrite Hd.
    rewrite bool_decide_eq_false_2 by done.
    rewrite bool_decide_eq_false_2 by done. reflexivity.
Qed.

(** X3.  At the end of the stream a pending token is still returned, once:
    the call after it reports no token; with no token pending [readWord]
    reports no token at once.  In both cases the whole stream has been read
    and, if the stream was good, its end-of-file bit is set. *)
Theorem readWord_end_of_stream (s : istream) (ds w : list ascii) :
  Forall blank ds -> Forall plain w -> after s = ds ++ w ->
  exists s1,
    readWord s = (negb (bool_decide (w = [])), s1, w)
    /\ after s1 = []
    /\ (good s = true -> eofbit s1 = true)
    /\ exists s2, readWord s1 = (false, s2, []) /\ after s2 = [].
Proof.
  intros Hds Hw Ha.
  assert (Hloop : readWord_loop (after s) (before s) []
                  = (None, (rev w ++ rev ds ++ before s, []), w)).
  { rewrite Ha, readWord_loop_blanks by done.
    rewrite <- (app_nil_r w) at 1. rewrite readWord_loop_plain by done.
    reflexivity. }
  rewrite readWord_unfold, Hloop. cbv zeta.
  unfold istream_get at 1, good. cbn [after before eofbit failbit].
  destruct (negb (eofbit s) && negb (failbit s)) eqn:Hg; cbn [snd].
  - eexists. split; [reflexivity|]. split; [reflexivity|].
    split; [reflexivity|]. eexists. split; reflexivity.
  - eexists. split; [reflexivity|]. split; [reflexivity|].
    split; [discriminate|]. eexists. rewrite readWord_unfold.
    cbn [after before eofbit failbit readWord_loop].
    unfold istream_get, good. cbn [after before eofbit failbit].
    rewrite andb_false_r. split; reflexivity.
Qed.


Lemma getLine_tokens_loop_spec (d : Dictionary) : forall fuel s tokens,
  (length (after s) < fuel)%nat ->
  exists s' new,
    getLine_tokens_loop fuel d s tokens = Ok (s', tokens ++ new)
    /\ Forall (fun t => t <> []) new
    /\ (forall i, new !! i = Some EOS -> S i = length new)
    /\ (model (args_ d) <> sup ->
        Z.of_nat (length tokens) <= uint64 MAX_LINE_SIZE ->
        Z.of_nat (length (tokens ++ new)) <= uint64 MAX_LINE_SIZE + 1)
    /\ (length (after s') <= length (after s))%nat.
Proof.
  induction fuel as [|fuel IH]; intros s tokens Hfuel; [lia|].
  cbn [getLine_tokens_loop].
  destruct (readWord s) as [[b s1] tok] eqn:Hr.
  destruct (readWord_shape s s1 b tok Hr) as (T1 & T2 & T3 & T4).
  destruct b.
  - destruct (T1 eq_refl) as [Hne _]. specialize (T4 eq_refl).
    destruct (decide (tok = EOS)) as [He|He].
    { exists s1, [tok]. split; [done|]. split; [constructor; done|].
      split; [intros [|i] Hi; [done | destruct i; done]|].
      split; [|lia]. intros _ Hl. rewrite length_app. simpl. lia. }
    destruct ((uint64 MAX_LINE_SIZE <? Z.of_nat (length (tokens ++ [tok])))
              && bool_decide (model (args_ d) <> sup)) eqn:Hcap.
    { exists s1, [tok]. split; [done|]. split; [constructor; done|].
      split; [intros [|i] Hi; [done | destruct i; done]|].
      split; [|lia]. intros _ Hl. rewrite length_app. simpl. lia. }
    destruct (IH s1 (tokens ++ [tok]) ltac:(lia)) as (s' & new & Hl & Hf & He' & Hc & Ha).
    exists s', (tok :: new). rewrite Hl, <- app_assoc. split; [done|].
    split; [constructor; done|].
    split.
    { intros [|i] Hi; simpl in Hi.
      - inversion Hi. done.
      - simpl. f_equal. apply He'. done. }
    split; [|lia].
    intros Hm Hlen. rewrite <- app_assoc in Hc. apply Hc; [done|].
    apply andb_false_iff in Hcap as [Hcap | Hcap].
    + apply Z.ltb_ge in Hcap. done.
    + apply bool_decide_eq_false in Hcap. done.
  - exists s1, []. rewrite app_nil_r. split; [done|]. split; [constructor|].
    split; [intros i Hi; done|]. split; [|lia]. intros _ Hl. lia.
Qed.

(** X4.  The token [getLine] always returns: the loop over [readWord] ends
    on every stream.  No token of the line is empty, the end marker "</s>"
    can only be its last token, the returned count is the number of tokens,
    and for a model that is not supervised the line has at most
    [MAX_LINE_SIZE + 1] tokens. *)
Theorem getLine_tokens_returns (d : Dictionary) (s : istream) :
  exists s' tokens,
    getLine_tokens d s = Ok (s', tokens, int32 (Z.of_nat (length tokens)))
    /\ Forall (fun t => t <> []) tokens
    /\ (forall i, tokens !! i = Some EOS -> S i = length tokens)
    /\ (model (args_ d) <> sup -> 0 <= MAX_LINE_SIZE < 2^31 ->
        Z.of_nat (length tokens) <= MAX_LINE_SIZE + 1).
Proof.
  unfold getLine_tokens.
  set (s0 := if eofbit s then istream_rewind s else s).
  destruct (getLine_tokens_loop_spec d (S (length (after s0))) s0 [] ltac:(lia))
    as (s' & new & Hl & Hf & He & Hc & _).
  exists s', new. rewrite Hl. cbn [bind app]. split; [done|].
  split; [done|]. split; [done|]. intros Hm Hr.
  rewrite <- (uint64_id MAX_LINE_SIZE) by lia. apply Hc; [done|].
  rewrite uint64_id by lia. simpl. lia.
Qed.

End Tokenizer.

Section TokenizerExamples.
Lemma plain_ab : Forall plain (lit "ab").
Proof. repeat constructor. Qed.

Lemma readWord_token_witness :
  let s := open_stream (lit "ab cd") in
  let s' := {| before := lit " ba"; after := lit "cd";
               eofbit := false; failbit := false |} in
  readWord s = (true, s', lit "ab")
  /\ ((true = true -> lit "ab" <> [] /\ (lit "ab" = EOS \/ Forall plain (lit "ab")))
      /\ (true = false -> lit "ab" = [])
      /\ (length (after s') <= length (after s))%nat
      /\ (true = true -> (length (after s') < length (after s))%nat)).
Proof.
  split; [reflexivity|].
  apply (readWord_token (open_stream (lit "ab cd"))). reflexivity.
Defined.

Lemma readWord_newline_witness :
  let s := open_stream (lit " ab" ++ newline :: lit "cd") in
  let s1 := {| before := lit "ba "; after := newline :: lit "cd";
               eofbit := false; failbit := false |} in
  Forall blank (lit " ") /\ Forall plain (lit "ab")
  /\ readWord s = (true, s1, lit "ab")
  /\ readWord s1 = (true, {| before := newline :: lit "ba "; after := lit "cd";
                             eofbit := false; failbit := false |}, EOS).
Proof.
  assert (Hb : Forall blank (lit " ")) by (repeat constructor; discriminate).
  split; [exact Hb|]. split; [exact plain_ab|].
  apply (proj1 (proj2 (readWord_newline
           (open_stream (lit " ab" ++ newline :: lit "cd"))
           (lit " ") (lit "ab") (lit "cd") Hb plain_ab)));
    [discriminate | reflexivity].
Defined.

Lemma readWord_end_of_stream_witness :
  let s := open_stream (lit " ab") in
  Forall blank (lit " ") /\ Forall plain (lit "ab") /\ after s = lit " " ++ lit "ab"
  /\ exists s1,
       readWord s = (negb (bool_decide (lit "ab" = [])), s1, lit "ab")
       /\ after s1 = []
       /\ (good s = true -> eofbit s1 = true)
       /\ exists s2, readWord s1 = (false, s2, []) /\ after s2 = [].
Proof.
  assert (Hb : Forall blank (lit " ")) by (repeat constructor; discriminate).
  split; [exact Hb|]. split; [exact plain_ab|]. split; [reflexivity|].
  apply (readWord_end_of_stream (open_stream (lit " ab")) (lit " ") (lit "ab")
           Hb plain_ab eq_refl).
Defined.

End TokenizerExamples.

Section Lookup.
Context {P : Platform} {C : Constants}.
Hypothesis capacity : 0 < MAX_VOCAB_SIZE < 2^31.

(** ** Looking words up *)

Lemma getId_found d p e :
  dict_inv d -> words_ d !! p = Some e -> getId d (word e) = Ok (Z.of_nat p).
Proof.
  intros [[Hok Hload] Hsize Hnd] Hp.
  destruct (find_in_present capacity (words_ d) (word2int_ d) _ (word e) Hok)
    as (k & Hk & Hf & (id & e' & H1 & H2 & H3 & H4) & Ho).
  { eapply ok_reach; [exact Hok | | exact Hp]. eapply lookup_lt_Some; done. }
  assert (Z.to_nat id = p) as Hid.
  { eapply (NoDup_map_lookup word); [exact Hnd | exact H3 | exact Hp | congruence]. }
  pose proof (probe_range capacity (home (word e)) k) as Hr.
  unfold getId, find. rewrite Hf. simpl.
  apply at_index_Ok. split; [lia|]. unfold slot in H1. rewrite H1. f_equal. lia.
Qed.

Lemma getId_missing d w :
  dict_inv d -> Z.of_nat (length (words_ d)) < MAX_VOCAB_SIZE ->
  (forall e, e ∈ words_ d -> word e <> w) -> getId d w = Ok (-1).
Proof.
  intros [[Hok Hload] Hsize Hnd] Hroom Hnew.
  destruct (find_in_absent capacity (words_ d) (word2int_ d) _ w Hok)
    as (k & Hk & Hf & He & Ho).
  { eapply index_inv_empty_slot; [done | split; done | done]. }
  { intros (p & e & Hp & Hpe & Hw). apply (Hnew e); [|done].
    apply list_elem_of_lookup. eauto. }
  pose proof (probe_range capacity (home w) k) as Hr.
  unfold getId, find. rewrite Hf. simpl.
  apply at_index_Ok. split; [lia | exact He].
Qed.

(** What [find] returns is an empty slot or a slot of the word. *)
Lemma find_loop_Ok words index w : forall fuel h h' id,
  find_loop fuel words index w h = Ok h' ->
  at_index index h' = Ok id -> id <> -1 ->
  exists e, at_index words id = Ok e /\ word e = w.
Proof.
  induction fuel as [|fuel IH]; intros h h' id Hf Hat Hid; [discriminate|].
  cbn [find_loop] in Hf. apply bind_Ok in Hf as (id0 & Hat0 & Hf).
  destruct (Z.eqb_spec id0 (-1)) as [->|Hne].
  - inversion Hf; subst h'. congruence.
  - apply bind_Ok in Hf as (e & He & Hf). case_decide as Hw.
    + eapply IH; done.
    + inversion Hf; subst h'. exists e. split; [congruence|].
      destruct (decide (word e = w)); [done | contradiction].
Qed.


(** X5.  Insert then look up: while the store has fewer than
    [MAX_VOCAB_SIZE] entries, [add w] returns and afterwards [getId w] finds
    [w]: at the id it had before when it was in the vocabulary (its count
    one higher), and at the old [size_] with count 1 when it was not.  The
    token count goes up by one, and every other entry keeps its place, its
    contents and its id. *)
Theorem add_then_getId (d : Dictionary) (w : str) :
  dict_inv d -> Z.of_nat (length (words_ d)) < MAX_VOCAB_SIZE ->
  exists d' id e,
    add d w = Ok d' /\ dict_inv d'
    /\ getId d' w = Ok id
    /\ words_ d' !! Z.to_nat id = Some e /\ 0 <= id /\ word e = w
    /\ ((exists e0, getId d w = Ok id /\ words_ d !! Z.to_nat id = Some e0
                    /\ count e = int64 (count e0 + 1)
                    /\ size_ d' = size_ d)
        \/ (getId d w = Ok (-1) /\ id = size_ d /\ count e = 1
            /\ size_ d' = size_ d + 1))
    /\ ntokens_ d' = int64 (ntokens_ d + 1)
    /\ (forall p e', words_ d !! p = Some e' -> word e' <> w ->
          words_ d' !! p = Some e' /\ getId d' (word e') = Ok (Z.of_nat p)).
Proof.
  intros Hinv Hroom.
  destruct (in_store_dec (words_ d) (length (words_ d)) w)
    as [(p & e & Hp & Hpe & Hw) | Hnot].
  - destruct (add_present capacity d w p e Hinv Hpe Hw) as [Hadd Hinv'].
    assert (Hnew : words_ (set_words_ (<[p:=bump_count e]> (words_ d))
                     (set_ntokens_ (int64 (ntokens_ d + 1)) d)) !! p
                   = Some (bump_count e)).
    { simpl. apply list_lookup_insert_eq. done. }
    eexists _, (Z.of_nat p), (bump_count e).
    split; [exact Hadd|]. split; [exact Hinv'|].
    split. { rewrite <- Hw. apply (getId_found _ p (bump_count e) Hinv' Hnew). }
    rewrite Nat2Z.id. split; [exact Hnew|]. split; [lia|]. split; [exact Hw|].
    split.
    { left. exists e. split; [rewrite <- Hw; apply getId_found; done|].
      split; [done|]. split; reflexivity. }
    split; [reflexivity|].
    intros q e' Hq Hne.
    assert (q <> p) by (intros ->; congruence).
    assert (Hq' : words_ (set_words_ (<[p:=bump_count e]> (words_ d))
                     (set_ntokens_ (int64 (ntokens_ d + 1)) d)) !! q = Some e').
    { simpl. rewrite list_lookup_insert_ne by done. done. }
    split; [exact Hq'|]. apply (getId_found _ q e' Hinv' Hq').
  - assert (Hall : forall e, e ∈ words_ d -> word e <> w).
    { intros e Hin Hw. apply Hnot. apply list_elem_of_lookup in Hin as [p Hp].
      exists p, e. split; [eapply lookup_lt_Some; done | done]. }
    destruct (add_absent capacity d w Hinv Hroom Hall)
      as (d' & Hadd & Hws & Hsz & Hnt & _ & _ & _ & _ & _ & _ & Hinv').
    pose proof (di_size _ Hinv) as Hsize.
    assert (Hnew : words_ d' !! length (words_ d) = Some (new_entry d w)).
    { rewrite Hws, lookup_app_r by lia. rewrite Nat.sub_diag. done. }
    exists d', (size_ d), (new_entry d w).
    split; [exact Hadd|]. split; [exact Hinv'|].
    split. { rewrite Hsize. apply (getId_found d' _ (new_entry d w) Hinv' Hnew). }
    rewrite Hsize, Nat2Z.id. split; [exact Hnew|]. split; [lia|].
    split; [reflexivity|].
    split.
    { right. split; [apply getId_missing; done|]. split; [done|].
      split; [reflexivity | lia]. }
    split; [exact Hnt|].
    intros q e' Hq Hne.
    assert (Hq' : words_ d' !! q = Some e').
    { rewrite Hws, lookup_app_l by (eapply lookup_lt_Some; done). done. }
    split; [exact Hq'|]. apply (getId_found d' q e' Hinv' Hq').
Qed.


(** X7.  [getWord] and [getId] are inverse to each other on the ids of the
    vocabulary, and [getWord] fails its assertion on every other id. *)
Theorem getWord_getId (d : Dictionary) :
  dict_inv d ->
  (forall id w, getWord d id = Ok w -> getId d w = Ok id)
  /\ (forall w id, getId d w = Ok id -> id <> -1 -> getWord d id = Ok w)
  /\ (forall id, 0 <= id < size_ d -> exists w, getWord d id = Ok w)
  /\ (forall id, ~ 0 <= id < size_ d -> getWord d id = Err AssertionFailed).
Proof.
  intros Hinv. pose proof (di_size _ Hinv) as Hsize.
  split; [|split; [|split]].
  - intros id w Hg. unfold getWord in Hg.
    apply bind_Ok in Hg as ([] & _ & Hg). apply bind_Ok in Hg as ([] & _ & Hg).
    apply bind_Ok in Hg as (e & He & Hg). inversion Hg; subst w.
    apply at_index_Ok in He as [H0 He].
    rewrite (getId_found d _ e Hinv He). f_equal. lia.
  - intros w id Hg Hid. unfold getId in Hg. apply bind_Ok in Hg as (h & Hf & Hat).
    destruct (find_loop_Ok _ _ _ _ _ _ _ Hf Hat Hid) as (e & He & Hw).
    pose proof He as He'. apply at_index_Ok in He' as [H0 He'].
    apply lookup_lt_Some in He'.
    unfold getWord. destruct (Z.leb_spec 0 id); [|lia].
    destruct (Z.ltb_spec id (size_ d)); [|lia]. cbn [assert bind].
    rewrite He. cbn [bind]. congruence.
  - intros id Hid.
    destruct (lookup_lt_is_Some_2 (words_ d) (Z.to_nat id)) as [e He]; [lia|].
    exists (word e). unfold getWord. destruct (Z.leb_spec 0 id); [|lia].
    destruct (Z.ltb_spec id (size_ d)); [|lia]. cbn [assert bind].
    rewrite (proj2 (at_index_Ok _ _ e)) by (split; [lia | exact He]). reflexivity.
  - intros id Hid. unfold getWord. destruct (Z.leb_spec 0 id); [|reflexivity].
    destruct (Z.ltb_spec id (size_ d)); [lia|]. reflexivity.
Qed.

Lemma NoDup_map_elem_of {A B} (f : A -> B) (l : list A) a b :
  NoDup (map f l) -> a ∈ l -> b ∈ l -> f a = f b -> a = b.
Proof.
  intros Hnd Ha Hb Hf.
  apply list_elem_of_lookup in Ha as [i Hi]. apply list_elem_of_lookup in Hb as [j Hj].
  assert (i = j) by (eapply (NoDup_map_lookup f); done). subst j. congruence.
Qed.

(** X8.  [threshold] keeps exactly the entries that reach their minimum
    count.  Afterwards [getId] returns for every kept word its new position
    in the store, and -1 for every removed word (as long as the kept entries
    do not fill the whole table). *)
Theorem threshold_then_getId `{!PlatformLaws P} (d : Dictionary) (t tl : Z) :
  NoDup (map word (words_ d)) ->
  length (word2int_ d) = Z.to_nat MAX_VOCAB_SIZE ->
  Z.of_nat (length (words_ d)) <= MAX_VOCAB_SIZE ->
  exists d', threshold d t tl = Ok d'
    /\ (forall e, e ∈ words_ d' <-> e ∈ words_ d /\ below_threshold t tl e = false)
    /\ (forall p e, words_ d' !! p = Some e -> getId d' (word e) = Ok (Z.of_nat p))
    /\ (Z.of_nat (length (words_ d')) < MAX_VOCAB_SIZE ->
        forall e, e ∈ words_ d -> below_threshold t tl e = true ->
          getId d' (word e) = Ok (-1)).
Proof.
  intros Hnd Hlen Hcap.
  destruct (threshold_store_ok capacity d t tl Hnd Hlen Hcap)
    as (d' & Hth & Hok & Hws & _).
  pose proof (so_inv _ Hok) as Hinv.
  assert (Hmem : forall e, e ∈ words_ d'
                   <-> e ∈ words_ d /\ below_threshold t tl e = false).
  { intros e. rewrite Hws. unfold threshold_store.
    rewrite list_elem_of_In, filter_In, <- list_elem_of_In.
    rewrite (std_sort_perm (words_ d)), negb_true_iff. done. }
  exists d'. split; [exact Hth|]. split; [exact Hmem|]. split.
  - intros p e Hp. apply getId_found; done.
  - intros Hroom e Hin Hbelow. apply getId_missing; [done | done |].
    intros e' Hin' Hw. apply Hmem in Hin' as [Hin' Hkeep].
    assert (e' = e) by (eapply (NoDup_map_elem_of word); done). subst e'.
    congruence.
Qed.

End Lookup.

Section LookupExamples.
#[local] Existing Instance small_constants.

Lemma add_then_getId_witness :
  let d := demo_dict in
  let w := lit "b" in
  dict_inv d /\ Z.of_nat (length (words_ d)) < MAX_VOCAB_SIZE
  /\ exists d' id e,
    add d w = Ok d' /\ dict_inv d'
    /\ getId d' w = Ok id
    /\ words_ d' !! Z.to_nat id = Some e /\ 0 <= id /\ word e = w
    /\ ((exists e0, getId d w = Ok id /\ words_ d !! Z.to_nat id = Some e0
                    /\ count e = int64 (count e0 + 1)
                    /\ size_ d' = size_ d)
        \/ (getId d w = Ok (-1) /\ id = size_ d /\ count e = 1
            /\ size_ d' = size_ d + 1))
    /\ ntokens_ d' = int64 (ntokens_ d + 1)
    /\ (forall p e', words_ d !! p = Some e' -> word e' <> w ->
          words_ d' !! p = Some e' /\ getId d' (word e') = Ok (Z.of_nat p)).
Proof.
  split; [exact (so_inv _ demo_dict_ok)|]. split; [reflexivity|].
  apply (add_then_getId small_capacity demo_dict (lit "b")
           (so_inv _ demo_dict_ok)).
  reflexivity.
Defined.


Lemma getWord_getId_witness :
  dict_inv demo_dict
  /\ (forall id w, getWord demo_dict id = Ok w -> getId demo_dict w = Ok id)
  /\ (forall w id, getId demo_dict w = Ok id -> id <> -1 -> getWord demo_dict id = Ok w)
  /\ (forall id, 0 <= id < size_ demo_dict -> exists w, getWord demo_dict id = Ok w)
  /\ (forall id, ~ 0 <= id < size_ demo_dict ->
        getWord demo_dict id = Err AssertionFailed).
Proof.
  split; [exact (so_inv _ demo_dict_ok)|].
  apply (getWord_getId small_capacity demo_dict (so_inv _ demo_dict_ok)).
Defined.

Lemma threshold_then_getId_witness :
  let d := demo_ingested in
  NoDup (map word (words_ d))
  /\ length (word2int_ d) = Z.to_nat MAX_VOCAB_SIZE
  /\ Z.of_nat (length (words_ d)) <= MAX_VOCAB_SIZE
  /\ exists d', threshold d 2 1 = Ok d'
    /\ (forall e, e ∈ words_ d' <-> e ∈ words_ d /\ below_threshold 2 1 e = false)
    /\ (forall p e, words_ d' !! p = Some e -> getId d' (word e) = Ok (Z.of_nat p))
    /\ (Z.of_nat (length (words_ d')) < MAX_VOCAB_SIZE ->
        forall e, e ∈ words_ d -> below_threshold 2 1 e = true ->
          getId d' (word e) = Ok (-1)).
Proof.
  assert (H3 : Z.of_nat (length (words_ demo_ingested)) <= MAX_VOCAB_SIZE)
    by (vm_compute; discriminate).
  split; [exact (di_nodup _ demo_ingested_inv)|]. split; [reflexivity|].
  split; [exact H3|].
  apply (threshold_then_getId small_capacity demo_ingested 2 1
           (di_nodup _ demo_ingested_inv) eq_refl H3).
Defined.

End LookupExamples.

Section CharNgrams.
Context {P : Platform} {C : Constants}.


(** ** Character n-grams *)

Lemma nchars_cons c s :
  nchars (c :: s) = (if is_continuation c then 0 else 1) + nchars s.
Proof.
  unfold nchars. cbn [List.filter]. destruct (is_continuation c); cbn [negb length]; lia.
Qed.

Lemma nchars_app s1 s2 : nchars (s1 ++ s2) = nchars s1 + nchars s2.
Proof.
  induction s1 as [|c s1 IH]; [done|]. cbn [app]. rewrite !nchars_cons, IH. lia.
Qed.

Lemma nchars_nonneg s : 0 <= nchars s.
Proof. unfold nchars. lia. Qed.

Lemma nchars_continuation s :
  Forall (fun c => is_continuation c = true) s -> nchars s = 0.
Proof.
  induction 1 as [|c s Hc _ IH]; [done|]. rewrite nchars_cons, Hc, IH. reflexivity.
Qed.

Lemma take_continuation_spec rest : forall ngram,
  exists conts rest',
    rest = conts ++ rest'
    /\ Forall (fun c => is_continuation c = true) conts
    /\ at_boundary rest'
    /\ take_continuation rest ngram = (ngram ++ conts, rest').
Proof.
  induction rest as [|c rest IH]; intros ngram.
  - exists [], []. cbn [take_continuation].
    split; [done|]. split; [by apply Forall_nil|]. split; [exact I | by rewrite app_nil_r].
  - cbn [take_continuation]. destruct (is_continuation c) eqn:Hc.
    + destruct (IH (ngram ++ [c])) as (conts & rest' & -> & Hall & Hb & Ht).
      exists (c :: conts), rest'. rewrite Ht, <- app_assoc.
      split; [done|]. split; [by apply Forall_cons|]. split; done.
    + exists [], (c :: rest).
      split; [done|]. split; [by apply Forall_nil|]. split; [exact Hc | by rewrite app_nil_r].
Qed.

(** A run of continuation bytes before a boundary belongs to the character
    before it. *)
Lemma continuation_prefix conts : forall rest t post,
  conts ++ rest = t ++ post ->
  Forall (fun c => is_continuation c = true) conts ->
  at_boundary rest -> at_boundary post ->
  exists t', t = conts ++ t' /\ rest = t' ++ post.
Proof.
  induction conts as [|x conts IH]; intros rest t post Heq Hall Hr Hp.
  - exists t. done.
  - apply Forall_cons in Hall as [Hx Hall]. destruct t as [|y t].
    + cbn [app] in Heq. subst post. cbn in Hp. congruence.
    + cbn [app] in Heq. inversion Heq; subst y.
      destruct (IH rest t post) as (t' & -> & ->); [done..|].
      exists t'. done.
Qed.

Ltac app_assoc_eq :=
  repeat (rewrite <- app_assoc || rewrite <- app_comm_cons); cbn [app]; reflexivity.

Section Inner.
Variable d : Dictionary.
Variable i : Z.

Let emits (n : Z) (rest' : str) : bool :=
  (uint64 (minn (args_ d)) <=? n)
  && negb ((n =? 1) && ((i =? 0) || bool_decide (rest' = []))).

Lemma computeNgrams_sub_inner_mem : forall fuel rest n ngram out s,
  (length rest <= fuel)%nat -> at_boundary rest ->
  s ∈ snd (computeNgrams_sub_inner fuel d i rest n ngram out) <->
  s ∈ snd out
  \/ exists t post,
       rest = t ++ post /\ t <> [] /\ at_boundary post /\ s = ngram ++ t
       /\ uint64 (minn (args_ d)) <= n - 1 + nchars t <= uint64 (maxn (args_ d))
       /\ ~ (n - 1 + nchars t = 1 /\ (i = 0 \/ post = [])).
Proof.
  induction fuel as [|fuel IH]; intros rest n ngram out s Hfuel Hb.
  { destruct rest; [|cbn in Hfuel; lia]. cbn. split; [auto|].
    intros [H | (t & post & Heq & Ht & _)]; [done|].
    symmetry in Heq. apply app_eq_nil in Heq as [-> _]. done. }
  destruct rest as [|c rest'].
  { cbn. split; [auto|].
    intros [H | (t & post & Heq & Ht & _)]; [done|].
    symmetry in Heq. apply app_eq_nil in Heq as [-> _]. done. }
  cbn [computeNgrams_sub_inner]. cbn in Hb.
  destruct (Z.leb_spec n (uint64 (maxn (args_ d)))) as [Hmax | Hmax].
  2:{ split; [auto|]. intros [H | (t & post & Heq & Ht & _ & _ & Hr & _)]; [done|].
      destruct t as [|c' t]; [done|]. inversion Heq; subst c'.
      rewrite nchars_cons, Hb in Hr. pose proof (nchars_nonneg t). lia. }
  destruct (take_continuation_spec rest' (ngram ++ [c]))
    as (conts & rest'' & Hrest & Hall & Hb'' & Htake).
  rewrite Htake.
  rewrite IH; [| subst rest' | done].
  2:{ cbn [length] in Hfuel. rewrite length_app in Hfuel. lia. }
  clear IH.
  assert (Hone : nchars (c :: conts) = 1).
  { rewrite nchars_cons, Hb, (nchars_continuation conts Hall). reflexivity. }
  assert (Hn : forall t', nchars (c :: conts ++ t') = 1 + nchars t').
  { intros t'. change (c :: conts ++ t') with ((c :: conts) ++ t').
    rewrite nchars_app, Hone. done. }
  assert (Hemit :
    s ∈ snd (if (uint64 (minn (args_ d)) <=? n)
                && negb ((n =? 1) && ((i =? 0) || bool_decide (rest'' = [])))
             then (fst out ++ [ngram_id d ((ngram ++ [c]) ++ conts)],
                   snd out ++ [(ngram ++ [c]) ++ conts])
             else out)
    <-> s ∈ snd out
        \/ (s = ngram ++ c :: conts /\ uint64 (minn (args_ d)) <= n
            /\ ~ (n = 1 /\ (i = 0 \/ rest'' = [])))).
  { destruct ((uint64 (minn (args_ d)) <=? n)
              && negb ((n =? 1) && ((i =? 0) || bool_decide (rest'' = [])))) eqn:Hc.
    - cbn [snd]. rewrite elem_of_app, list_elem_of_singleton, <- app_assoc.
      apply andb_true_iff in Hc as [Hmin Hc]. apply Z.leb_le in Hmin.
      apply negb_true_iff in Hc.
      split; [|tauto]. intros [H | H]; [by left|]. right.
      split; [done|]. split; [done|]. intros [H1 [H2 | H2]].
      + subst n i. discriminate.
      + subst n. rewrite H2 in Hc. rewrite orb_true_r in Hc. discriminate.
    - split; [by left|]. intros [H | (_ & Hmin & Hne)]; [done|]. exfalso.
      apply andb_false_iff in Hc as [Hc | Hc]; [apply Z.leb_gt in Hc; lia|].
      apply negb_false_iff, andb_true_iff in Hc as [H1 H2].
      apply Z.eqb_eq in H1. apply Hne. split; [done|].
      apply orb_true_iff in H2 as [H2 | H2].
      + left. apply Z.eqb_eq in H2. done.
      + right. apply bool_decide_eq_true in H2. done. }
  rewrite Hemit. clear Hemit. split.
  - intros [[Hout | (Hs & Hmin & Hne)] | (t' & post & Heq & Ht' & Hp & Hs & Hr & Hne)].
    + by left.
    + right. exists (c :: conts), rest''. rewrite Hone.
      split; [by subst rest'|]. split; [done|]. split; [done|]. split; [done|].
      split; [lia|]. intros [H1 H2]. apply Hne. split; [lia | done].
    + right. exists (c :: conts ++ t'), post. rewrite Hn.
      subst rest' rest'' s.
      split; [app_assoc_eq|]. split; [done|]. split; [done|]. split; [app_assoc_eq|].
      split; [lia|]. intros [H1 H2]. apply Hne. split; [lia | done].
  - intros [Hout | (t & post & Heq & Ht & Hp & Hs & Hr & Hne)]; [by left; left|].
    destruct t as [|c' t0]; [done|]. inversion Heq as [[Hc' Heq']]. subst c'.
    rewrite Hrest in Heq'.
    destruct (continuation_prefix conts rest'' t0 post Heq' Hall Hb'' Hp)
      as (t' & -> & Hr'').
    rewrite Hn in Hr, Hne.
    destruct t' as [|x t'].
    + left. right. cbn [app] in Hr''. subst post. rewrite app_nil_r in *.
      change (nchars []) with 0 in *.
      split; [done|]. split; [lia|]. intros [H1 H2]. apply Hne. split; [lia | done].
    + right. exists (x :: t'), post. rewrite Hs.
      split; [done|]. split; [done|]. split; [done|]. split; [app_assoc_eq|].
      split; [lia|]. intros [H1 H2]. apply Hne. split; [lia | done].
Qed.

End Inner.

Lemma computeNgrams_sub_outer_mem d : forall rest i out s,
  0 <= i ->
  s ∈ snd (computeNgrams_sub_outer d i rest out) <->
  s ∈ snd out
  \/ exists pre post,
       rest = pre ++ s ++ post /\ s <> [] /\ at_boundary s /\ at_boundary post
       /\ uint64 (minn (args_ d)) <= nchars s <= uint64 (maxn (args_ d))
       /\ ~ (nchars s = 1 /\ ((i = 0 /\ pre = []) \/ post = [])).
Proof.
  induction rest as [|c rest IH]; intros i out s Hi.
  { cbn. split; [auto|]. intros [H | (pre & post & Heq & Ht & _)]; [done|].
    symmetry in Heq. apply app_eq_nil in Heq as [_ Heq].
    apply app_eq_nil in Heq as [-> _]. done. }
  cbn [computeNgrams_sub_outer]. rewrite IH by lia. clear IH.
  assert (Htail : (exists pre post,
             rest = pre ++ s ++ post /\ s <> [] /\ at_boundary s /\ at_boundary post
             /\ uint64 (minn (args_ d)) <= nchars s <= uint64 (maxn (args_ d))
             /\ ~ (nchars s = 1 /\ ((i + 1 = 0 /\ pre = []) \/ post = [])))
          <-> (exists pre post,
             c :: rest = (c :: pre) ++ s ++ post /\ s <> [] /\ at_boundary s
             /\ at_boundary post
             /\ uint64 (minn (args_ d)) <= nchars s <= uint64 (maxn (args_ d))
             /\ ~ (nchars s = 1 /\ post = []))).
  { split; intros (pre & post & Heq & Ht & Hb & Hp & Hr & Hne);
      exists pre, post.
    - split; [by rewrite Heq|]. do 4 (split; [done|]).
      intros [G1 G2]. apply Hne. auto.
    - inversion Heq. do 5 (split; [done|]). intros [G1 [[G2 _] | G2]]; [lia|].
      apply Hne. auto. }
  destruct (is_continuation c) eqn:Hc.
  - rewrite Htail. split.
    + intros [H | (pre & post & Heq & Ht & Hb & Hp & Hr & Hne)]; [by left|].
      right. exists (c :: pre), post. do 5 (split; [done|]).
      intros [G1 [[_ G2] | G2]]; [done|]. apply Hne. auto.
    + intros [H | (pre & post & Heq & Ht & Hb & Hp & Hr & Hne)]; [by left|].
      right. destruct pre as [|c' pre].
      * destruct s as [|c' t]; [done|]. inversion Heq; subst c'. cbn in Hb. congruence.
      * inversion Heq; subst c'. exists pre, post.
        do 5 (split; [done|]). intros [G1 G2]. apply Hne. auto.
  - rewrite (computeNgrams_sub_inner_mem d i) by (cbn; done || lia).
    rewrite Htail. split.
    + intros [[H | (t & post & Heq & Ht & Hp & Hs & Hr & Hne)]
             | (pre & post & Heq & Ht & Hb & Hp & Hr & Hne)].
      * by left.
      * right. exists [], post. cbn [app] in Hs. subst t.
        replace (1 - 1 + nchars s) with (nchars s) in * by lia.
        split; [done|]. split; [done|].
        split. { destruct s as [|c' t]; [done|]. inversion Heq; subst c'. done. }
        split; [done|]. split; [done|].
        intros [G1 [[G2 _] | G2]]; apply Hne; auto.
      * right. exists (c :: pre), post. do 5 (split; [done|]).
        intros [G1 [[_ G2] | G2]]; [done|]. apply Hne. auto.
    + intros [H | (pre & post & Heq & Ht & Hb & Hp & Hr & Hne)]; [by left; left|].
      destruct pre as [|c' pre].
      * left. right. exists s, post.
        replace (1 - 1 + nchars s) with (nchars s) by lia.
        do 5 (split; [done|]).
        intros [G1 [G2 | G2]]; apply Hne; auto.
      * right. inversion Heq; subst c'. exists pre, post.
        do 5 (split; [done|]). intros [G1 G2]. apply Hne. auto.
Qed.

(** The two overloads run the same loops: what one appends to the ids is the
    image of what the other appends to the substrings. *)
Lemma computeNgrams_inner_agree d i : forall fuel rest n ngram,
  exists l, forall out ng,
    computeNgrams_sub_inner fuel d i rest n ngram out
    = (fst out ++ map (ngram_id d) l, snd out ++ l)
    /\ computeNgrams_inner fuel d i rest n ngram ng = ng ++ map (ngram_id d) l.
Proof.
  induction fuel as [|fuel IH]; intros rest n ngram.
  { exists []. intros [o1 o2] ng. cbn. rewrite !app_nil_r. done. }
  destruct rest as [|c rest'].
  { exists []. intros [o1 o2] ng. cbn. rewrite !app_nil_r. done. }
  cbn [computeNgrams_sub_inner computeNgrams_inner].
  destruct (n <=? uint64 (maxn (args_ d))).
  2:{ exists []. intros [o1 o2] ng. cbn. rewrite !app_nil_r. done. }
  destruct (take_continuation rest' (ngram ++ [c])) as [ngram' rest''].
  destruct (IH rest'' (n + 1) ngram') as [l Hl].
  destruct ((uint64 (minn (args_ d)) <=? n)
            && negb ((n =? 1) && ((i =? 0) || bool_decide (rest'' = [])))).
  - exists (ngram' :: l). intros out ng.
    destruct (Hl (fst out ++ [ngram_id d ngram'], snd out ++ [ngram'])
                 (ng ++ [ngram_id d ngram'])) as [-> ->].
    cbn [fst snd map]. rewrite <- !app_assoc. done.
  - exists l. intros out ng. destruct (Hl out ng) as [-> ->]. done.
Qed.

Lemma computeNgrams_outer_agree d : forall rest i,
  exists l, forall out ng,
    computeNgrams_sub_outer d i rest out
    = (fst out ++ map (ngram_id d) l, snd out ++ l)
    /\ computeNgrams_outer d i rest ng = ng ++ map (ngram_id d) l.
Proof.
  induction rest as [|c rest IH]; intros i.
  { exists []. intros [o1 o2] ng. cbn. rewrite !app_nil_r. done. }
  cbn [computeNgrams_sub_outer computeNgrams_outer].
  destruct (IH (i + 1)) as [l Hl].
  destruct (is_continuation c).
  - exists l. intros out ng. apply Hl.
  - destruct (computeNgrams_inner_agree d i (length (c :: rest)) (c :: rest) 1 [])
      as [l1 Hl1].
    exists (l1 ++ l). intros out ng.
    destruct (Hl1 out ng) as [-> ->].
    destruct (Hl (fst out ++ map (ngram_id d) l1, snd out ++ l1)
                 (ng ++ map (ngram_id d) l1)) as [-> ->].
    cbn [fst snd]. rewrite map_app, <- !app_assoc. done.
Qed.



Lemma hash_range s : 0 <= hash s < 2^32.
Proof.
  unfold hash.
  assert (forall h, 0 <= h < 2^32 -> 0 <= fold_left hash_step s h < 2^32) as Hgen.
  { induction s as [|c s IH]; intros h Hh; [done|]. cbn [fold_left].
    apply IH. unfold hash_step. apply uint32_range. }
  apply Hgen. lia.
Qed.

Lemma ngram_id_range d s :
  0 < bucket (args_ d) -> 0 <= nwords_ d -> nwords_ d + bucket (args_ d) <= 2^31 ->
  nwords_ d <= ngram_id d s < nwords_ d + bucket (args_ d).
Proof.
  intros Hb Hn Hsum. unfold ngram_id.
  rewrite (uint32_id (bucket (args_ d))) by lia.
  pose proof (hash_range s) as Hh.
  pose proof (Z.mod_pos_bound (hash s) (bucket (args_ d)) Hb) as Hm.
  rewrite (int32_id (hash s mod bucket (args_ d))) by lia.
  rewrite int32_id by lia. lia.
Qed.

(** X11.  With a positive number of buckets and [nwords_ + bucket] within
    [int32_t], every id that [computeNgrams] appends lies in the bucket
    range [nwords_ <= id < nwords_ + bucket], past the ids of the words. *)
Theorem computeNgrams_range (d : Dictionary) (w : str) (ng : list Z) :
  0 < bucket (args_ d) -> 0 <= nwords_ d ->
  nwords_ d + bucket (args_ d) <= 2^31 ->
  exists l, computeNgrams d w ng = ng ++ l
    /\ Forall (fun id => nwords_ d <= id < nwords_ d + bucket (args_ d)) l.
Proof.
  intros Hb Hn Hsum.
  destruct (computeNgrams_outer_agree d w 0) as [l Hl].
  exists (map (ngram_id d) l). split; [apply (Hl ([], []) ng)|].
  apply Forall_forall. intros id Hin.
  apply list_elem_of_fmap in Hin as (s & -> & _). apply ngram_id_range; done.
Qed.

End CharNgrams.

Section Subwords.
Context {P : Platform} {C : Constants}.
Hypothesis capacity : 0 < MAX_VOCAB_SIZE < 2^31.

(** ** The subword cache *)

(** A loop that rewrites the cells of a vector one after the other. *)
Lemma for_loop_cells {A} (f : nat -> A -> A) (body : Z -> list A -> result (list A)) :
  (forall i ws e, ws !! i = Some e -> body (Z.of_nat i) ws = Ok (<[i := f i e]> ws)) ->
  forall k i ws, (i + k <= length ws)%nat ->
  exists ws', for_loop k (Z.of_nat i) body ws = Ok ws'
    /\ length ws' = length ws
    /\ forall p, ws' !! p
         = if decide (i <= p < i + k)%nat then f p <$> ws !! p else ws !! p.
Proof.
  intros Hbody. induction k as [|k IH]; intros i ws Hlen.
  { exists ws. split; [done|]. split; [done|]. intros p.
    rewrite decide_False by lia. done. }
  destruct (lookup_lt_is_Some_2 ws i) as [e He]; [lia|].
  cbn [for_loop]. rewrite (Hbody i ws e He). cbn [bind].
  replace (Z.of_nat i + 1) with (Z.of_nat (S i)) by lia.
  destruct (IH (S i) (<[i := f i e]> ws)) as (ws' & Hrun & Hl & Hcells).
  { rewrite length_insert. lia. }
  exists ws'. split; [exact Hrun|]. split; [by rewrite Hl, length_insert|].
  intros p. rewrite Hcells. destruct (decide (p = i)) as [->|Hne].
  - rewrite decide_False by lia. rewrite decide_True by lia.
    rewrite list_lookup_insert_eq by lia. rewrite He. done.
  - rewrite list_lookup_insert_ne by done.
    destruct (decide (S i <= p < S i + k)%nat);
      [rewrite decide_True by lia | rewrite decide_False by lia]; done.
Qed.

Lemma find_loop_words words words' index w :
  map word words = map word words' ->
  forall fuel h, find_loop fuel words index w h = find_loop fuel words' index w h.
Proof.
  intros Hmap. induction fuel as [|fuel IH]; intros h; [done|].
  cbn [find_loop]. destruct (at_index index h) as [id|]; [|done]. cbn [bind].
  destruct (id =? -1); [done|].
  unfold at_index. destruct (id <? 0); [done|].
  assert (Hl : word <$> words !! Z.to_nat id = word <$> words' !! Z.to_nat id).
  { rewrite <- !list_lookup_fmap. change (word <$> words) with (map word words).
    change (word <$> words') with (map word words'). by rewrite Hmap. }
  destruct (words !! Z.to_nat id) as [e|], (words' !! Z.to_nat id) as [e'|];
    try discriminate; [|done].
  cbn [bind]. inversion Hl as [Hw]. rewrite Hw.
  destruct (decide (word e' ≠ w)); [apply IH | done].
Qed.

Lemma computeNgrams_app d w ng :
  computeNgrams d w ng = ng ++ computeNgrams d w [].
Proof.
  unfold computeNgrams. destruct (computeNgrams_outer_agree d w 0) as [l Hl].
  destruct (Hl ([], []) ng) as [_ ->]. destruct (Hl ([], []) []) as [_ ->]. done.
Qed.

(** What [initNgrams] does to the store. *)
Lemma initNgrams_run d :
  size_ d = Z.of_nat (length (words_ d)) ->
  Z.of_nat (length (words_ d)) < 2^31 ->
  exists ws', initNgrams d = Ok (set_words_ ws' d)
    /\ length ws' = length (words_ d)
    /\ map word ws' = map word (words_ d)
    /\ forall p e, words_ d !! p = Some e ->
         ws' !! p = Some (set_subwords
                 (subwords e ++ Z.of_nat p
                    :: computeNgrams d (BOW ++ word e ++ EOW) []) e).
Proof.
  intros Hsize Hlen. unfold initNgrams.
  rewrite Hsize, uint64_id by lia. rewrite Nat2Z.id.
  destruct (for_loop_cells
              (fun i e => set_subwords
                 (computeNgrams d (BOW ++ word e ++ EOW)
                    (subwords e ++ [int32 (Z.of_nat i)])) e)
              (initNgrams_body d)) with (k := length (words_ d))
              (i := 0%nat) (ws := words_ d)
    as (ws' & Hrun & Hl & Hcells).
  { intros i ws e He. unfold initNgrams_body.
    rewrite (at_index_nat _ _ _ He). cbn [bind].
    rewrite store_at_Ok by (apply lookup_lt_Some in He; lia).
    rewrite Nat2Z.id. done. }
  { lia. }
  change (Z.of_nat 0) with 0 in Hrun. rewrite Hrun. cbn [bind].
  assert (Hcell : forall p e, words_ d !! p = Some e ->
            ws' !! p = Some (set_subwords
                 (subwords e ++ Z.of_nat p
                    :: computeNgrams d (BOW ++ word e ++ EOW) []) e)).
  { intros p e He. rewrite Hcells, He.
    rewrite decide_True by (apply lookup_lt_Some in He; lia).
    rewrite int32_id by (apply lookup_lt_Some in He; lia).
    cbn [fmap option_fmap option_map].
    rewrite (computeNgrams_app d _ (subwords e ++ [Z.of_nat p])), <- app_assoc.
    done. }
  exists ws'. split; [done|]. split; [exact Hl|]. split; [|exact Hcell].
  apply list_eq. intros p. change (map word ?l) with (word <$> l).
  rewrite !list_lookup_fmap.
  destruct (words_ d !! p) as [e|] eqn:He.
  - rewrite (Hcell p e He). done.
  - rewrite Hcells, He. by destruct (decide _).
Qed.

Lemma initNgrams_dict_inv d d' :
  dict_inv d -> Z.of_nat (length (words_ d)) < 2^31 ->
  initNgrams d = Ok d' -> dict_inv d'.
Proof.
  intros [[Hok Hload] Hsize Hnd] Hlen Hrun.
  destruct (initNgrams_run d Hsize Hlen) as (ws' & Hrun' & Hl & Hmap & _).
  rewrite Hrun' in Hrun. inversion Hrun; subst d'. split; cbn.
  - rewrite Hl. split; [|done]. eapply index_ok_same_words; done.
  - by rewrite Hl.
  - by rewrite Hmap.
Qed.



End Subwords.

Section SubwordsExamples.
#[local] Existing Instance small_constants.

Lemma computeNgrams_range_witness :
  let d := demo_dict in
  0 < bucket (args_ d) /\ 0 <= nwords_ d
  /\ nwords_ d + bucket (args_ d) <= 2^31
  /\ exists l, computeNgrams d (lit "<where>") [7] = [7] ++ l
       /\ Forall (fun id => nwords_ d <= id < nwords_ d + bucket (args_ d)) l.
Proof.
  assert (H1 : 0 < bucket (args_ demo_dict)) by reflexivity.
  assert (H2 : 0 <= nwords_ demo_dict) by (vm_compute; discriminate).
  assert (H3 : nwords_ demo_dict + bucket (args_ demo_dict) <= 2^31)
    by (vm_compute; discriminate).
  split; [exact H1|]. split; [exact H2|]. split; [exact H3|].
  apply (computeNgrams_range demo_dict (lit "<where>") [7] H1 H2 H3).
Defined.


Lemma demo_subwords_inv : dict_inv demo_subwords.
Proof.
  apply (initNgrams_dict_inv demo_dict).
  - exact (so_inv _ demo_dict_ok).
  - reflexivity.
  - reflexivity.
Qed.

Lemma demo_subwords_cached p e :
  words_ demo_subwords !! p = Some e -> Z.of_nat p < nwords_ demo_subwords ->
  subwords e = Z.of_nat p :: computeNgrams demo_subwords (BOW ++ word e ++ EOW) [].
Proof.
  intros He Hp. change (nwords_ demo_subwords) with 3 in Hp.
  destruct p as [|[|[|p]]]; [| | |lia]; inversion He; subst e; reflexivity.
Qed.


End SubwordsExamples.

Section WordNgrams.
Context {P : Platform} {C : Constants}.


(** ** Word n-grams *)

Lemma ngram_hash_snoc g x :
  g <> [] -> ngram_hash (g ++ [x]) = ngram_step (ngram_hash g) x.
Proof.
  destruct g as [|y g]; [done|]. intros _. cbn [app ngram_hash].
  rewrite fold_left_app. done.
Qed.

Lemma addNgrams_inner_spec d : forall rest j bound g ln,
  g <> [] -> -2^31 <= j -> j + Z.of_nat (length rest) < 2^31 ->
  addNgrams_inner d rest j bound (ngram_hash g) ln
  = ln ++ omap (wordngram_id d)
            (map (fun k => g ++ take k rest)
                 (seq 1 (Nat.min (Z.to_nat (bound - j)) (length rest)))).
Proof.
  induction rest as [|x rest IH]; intros j bound g ln Hg Hj Hlen.
  { cbn. rewrite Nat.min_0_r. cbn. by rewrite app_nil_r. }
  cbn [addNgrams_inner]. destruct (Z.ltb_spec j bound) as [Hlt | Hge].
  2:{ replace (Z.to_nat (bound - j)) with 0%nat by lia. cbn. by rewrite app_nil_r. }
  cbn [length] in Hlen.
  change (uint64 (ngram_hash g * 116049371 + uint64 x))
    with (ngram_step (ngram_hash g) x).
  rewrite <- (ngram_hash_snoc g x Hg).
  rewrite (int32_id (j + 1)) by lia.
  rewrite IH; [| by destruct g | lia | lia].
  replace (Nat.min (Z.to_nat (bound - j)) (length (x :: rest)))
    with (S (Nat.min (Z.to_nat (bound - (j + 1))) (length rest)))
    by (cbn [length]; lia).
  set (m := Nat.min (Z.to_nat (bound - (j + 1))) (length rest)).
  cbn [seq map]. rewrite <- (seq_shift m 1), map_map.
  assert (Hmap : map (fun k => g ++ take (S k) (x :: rest)) (seq 1 m)
               = map (fun k => (g ++ [x]) ++ take k rest) (seq 1 m)).
  { apply map_ext. intros k. cbn [take]. by rewrite <- app_assoc. }
  rewrite Hmap. clear Hmap.
  change (take 1 (x :: rest)) with ([x] ++ take 0 rest). rewrite take_0.
  cbn [omap list_omap]. unfold wordngram_id at 2.
  destruct (decide (quantidx_ d = ∅)) as [Hq | Hq].
  - rewrite <- app_assoc. done.
  - destruct (quantidx_ d !! _) as [q|]; cbn [fmap option_fmap option_map];
      [by rewrite <- app_assoc | done].
Qed.

Lemma addNgrams_outer_spec d n : forall rest i ln,
  0 <= i -> -2^31 <= n -> i + Z.of_nat (length rest) < 2^31 ->
  i + Z.of_nat (length rest) + n < 2^31 ->
  addNgrams_outer d rest i n ln
  = ln ++ omap (wordngram_id d) (word_ngrams n rest).
Proof.
  induction rest as [|x rest IH]; intros i ln Hi Hn Hlen Hsum.
  { cbn. by rewrite app_nil_r. }
  cbn [addNgrams_outer word_ngrams]. cbn [length] in Hlen, Hsum.
  rewrite (int32_id (i + 1)), (int32_id (i + n)) by lia.
  change (uint64 x) with (ngram_hash [x]).
  rewrite addNgrams_inner_spec by (done || lia).
  rewrite IH by lia. rewrite omap_app, <- app_assoc. do 3 f_equal.
  unfold grams_from.
  replace (Nat.min (Z.to_nat n) (length (x :: rest)) - 1)%nat
    with (Nat.min (Z.to_nat (i + n - (i + 1))) (length rest))
    by (cbn [length]; lia).
  rewrite <- (seq_shift _ 1), map_map. apply map_ext. intros k. done.
Qed.

Lemma word_ngrams_none n l : n <= 1 -> word_ngrams n l = [].
Proof.
  intros Hn. induction l as [|x l IH]; [done|]. cbn [word_ngrams]. rewrite IH.
  unfold grams_from.
  replace (Nat.min (Z.to_nat n) (length (x :: l)) - 1)%nat with 0%nat by lia.
  done.
Qed.


Lemma uint64_range z : 0 <= uint64 z < 2^64.
Proof. unfold uint64. apply Z.mod_pos_bound. lia. Qed.

Section Range.
Variable d : Dictionary.
Hypothesis Hbucket : 0 < bucket (args_ d).
Hypothesis Hnwords : 0 <= nwords_ d.
Hypothesis Hsum : nwords_ d + bucket (args_ d) <= 2^31.

Let in_range (id : Z) : Prop :=
  (quantidx_ d = ∅ -> nwords_ d <= id < nwords_ d + bucket (args_ d))
  /\ (quantidx_ d <> ∅ ->
      exists k q, quantidx_ d !! k = Some q /\ id = int32 (nwords_ d + q)).

Lemma addNgrams_inner_range : forall rest j bound h ln,
  Forall in_range ln -> Forall in_range (addNgrams_inner d rest j bound h ln).
Proof.
  induction rest as [|x rest IH]; intros j bound h ln Hln; [done|].
  cbn [addNgrams_inner]. destruct (j <? bound); [|done]. apply IH.
  destruct (decide (quantidx_ d = ∅)) as [Hq | Hq].
  - apply Forall_app. split; [done|]. apply Forall_singleton. split; [|done].
    intros _. rewrite (uint64_id (bucket (args_ d))) by lia.
    pose proof (Z.mod_pos_bound (uint64 (h * 116049371 + uint64 x))
                  (bucket (args_ d)) Hbucket) as Hm.
    rewrite (int64_id (_ mod _)) by lia. rewrite int32_id by lia. lia.
  - destruct (quantidx_ d !! _) as [q|] eqn:Hk; [|done].
    apply Forall_app. split; [done|]. apply Forall_singleton. split; [done|].
    intros _. eauto.
Qed.

Lemma addNgrams_outer_range n : forall rest i ln,
  Forall in_range ln -> Forall in_range (addNgrams_outer d rest i n ln).
Proof.
  induction rest as [|x rest IH]; intros i ln Hln; [done|].
  cbn [addNgrams_outer]. apply IH. apply addNgrams_inner_range. done.
Qed.

End Range.

(** X15.  The ids of word n-grams never collide with word ids: without a
    quantization map every id [addNgrams] appends lies in
    [nwords_, nwords_ + bucket), and with one every appended id is
    [nwords_ + q] for a value [q] of the map. *)
Theorem addNgrams_range (d : Dictionary) (hashes : list Z) (n : Z) (id : Z) :
  0 < bucket (args_ d) -> 0 <= nwords_ d ->
  nwords_ d + bucket (args_ d) <= 2^31 ->
  id ∈ addNgrams d [] hashes n ->
  (quantidx_ d = ∅ -> nwords_ d <= id < nwords_ d + bucket (args_ d))
  /\ (quantidx_ d <> ∅ ->
      exists k q, quantidx_ d !! k = Some q /\ id = int32 (nwords_ d + q)).
Proof.
  intros Hb Hn Hsum Hin.
  pose proof (addNgrams_outer_range d Hb Hn Hsum n hashes 0 [] (Forall_nil_2 _)) as Hall.
  rewrite Forall_forall in Hall. apply (Hall id Hin).
Qed.

End WordNgrams.

Section Lines.
Context {P : Platform} {C : Constants}.
Hypothesis capacity : 0 < MAX_VOCAB_SIZE < 2^31.


(** ** Reading a line *)

Lemma getId_vocab_entry d tok :
  dict_inv d -> Z.of_nat (length (words_ d)) < MAX_VOCAB_SIZE ->
  exists h, find d tok = Ok h
    /\ at_index (word2int_ d) h
       = Ok (match vocab_entry d tok with
             | Some (i, _) => Z.of_nat i
             | None => -1
             end).
Proof.
  intros Hinv Hroom. apply bind_Ok. change (bind (find d tok) _) with (getId d tok).
  unfold vocab_entry.
  destruct (list_find (fun e => word e = tok) (words_ d)) as [[i e]|] eqn:Hf.
  - apply list_find_Some in Hf as (He & Hw & _). rewrite <- Hw.
    apply getId_found; done.
  - apply list_find_None in Hf. rewrite Forall_forall in Hf.
    apply getId_missing; done.
Qed.

Section Line.
Variable d : Dictionary.
Hypothesis Hok : store_ok d.
Hypothesis Hroom : Z.of_nat (length (words_ d)) < MAX_VOCAB_SIZE.
Hypothesis Hpd : model (args_ d) <> sup -> nwords_ d <= Z.of_nat (length (pdiscard_ d)).

Lemma getLine_ids_loop_spec : forall tokens l rng,
  0 <= line_ntokens l ->
  line_ntokens l + Z.of_nat (length tokens) < 2^31 ->
  exists l' rng' ws hs,
    getLine_ids_loop d tokens l rng = Ok (l', rng')
    /\ line_ntokens l'
       = line_ntokens l + Z.of_nat (length (List.filter (in_vocab d) tokens))
    /\ line_labels l' = line_labels l ++ omap (label_id d) tokens
    /\ line_words l' = line_words l ++ ws
    /\ line_hashes l' = line_hashes l ++ hs
    /\ ws `sublist_of` omap (word_id d) tokens
    /\ hs `sublist_of` omap (token_hash d) tokens
    /\ (model (args_ d) = sup ->
        ws = omap (word_id d) tokens /\ hs = omap (token_hash d) tokens).
Proof.
  pose proof (so_inv _ Hok) as Hinv. pose proof (di_size _ Hinv) as Hsize.
  induction tokens as [|tok tokens IH]; intros l rng Hn Hlen.
  { exists l, rng, [], []. cbn. rewrite !app_nil_r.
    split; [done|]. split; [lia|]. do 3 (split; [done|]).
    split; [constructor|]. split; [constructor|]. done. }
  cbn [length] in Hlen.
  destruct (getId_vocab_entry d tok Hinv Hroom) as (h & Hfind & Hat).
  cbn [getLine_ids_loop]. rewrite Hfind. cbn [bind]. rewrite Hat. cbn [bind].
  cbn [List.filter omap list_omap].
  assert (Hin : in_vocab d tok
                = match vocab_entry d tok with Some _ => true | None => false end).
  { unfold in_vocab. destruct (vocab_entry d tok).
    - apply bool_decide_eq_true_2. eauto.
    - apply bool_decide_eq_false_2. intros [? ?]. discriminate. }
  assert (Hwid : word_id d tok
                 = match vocab_entry d tok with
                   | Some (i, e) => if decide (type e = entry_type.word)
                                    then Some (Z.of_nat i) else None
                   | None => None
                   end) by reflexivity.
  assert (Hlid : label_id d tok
                 = match vocab_entry d tok with
                   | Some (i, e) => if decide (type e = entry_type.label)
                                    then Some (Z.of_nat i - nwords_ d) else None
                   | None => None
                   end) by reflexivity.
  assert (Hth : token_hash d tok
                = match vocab_entry d tok with
                  | Some (_, e) => if decide (type e = entry_type.word)
                                   then Some (int32 (hash tok)) else None
                  | None => Some (int32 (hash tok))
                  end) by reflexivity.
  rewrite Hin, Hwid, Hlid, Hth. clear Hin Hwid Hlid Hth.
  destruct (vocab_entry d tok) as [[i e]|] eqn:Hv.
  - (* a token of the vocabulary *)
    pose proof Hv as Hv'. apply list_find_Some in Hv' as (He & Hw & _).
    pose proof (lookup_lt_Some _ _ _ He) as Hi.
    destruct (Z.ltb_spec (Z.of_nat i) 0) as [|_]; [lia|].
    assert (Hty : getType d (Z.of_nat i) = Ok (type e)).
    { unfold getType. destruct (Z.leb_spec 0 (Z.of_nat i)); [|lia].
      destruct (Z.ltb_spec (Z.of_nat i) (size_ d)); [|lia]. cbn [assert bind].
      rewrite (at_index_nat _ _ _ He). done. }
    rewrite Hty. cbn [bind].
    rewrite (int32_id (line_ntokens l + 1)) by lia.
    destruct (type e) eqn:Htype.
    + (* a word *)
      assert (Hlt : Z.of_nat i < nwords_ d).
      { rewrite (so_nwords _ Hok).
        apply (grouped_position _ (so_order _ Hok) i e He). done. }
      unfold kept_word. rewrite decide_True by done.
      destruct (uniform rng) as [rand rng1].
      assert (Hdis : exists b, discard d (Z.of_nat i) rand = Ok b
                       /\ (model (args_ d) = sup -> b = false)).
      { unfold discard. destruct (Z.leb_spec 0 (Z.of_nat i)); [|lia].
        destruct (Z.ltb_spec (Z.of_nat i) (nwords_ d)); [|lia]. cbn [assert bind].
        destruct (decide (model (args_ d) = sup)) as [Hs | Hs].
        { exists false. split; reflexivity. }
        destruct (lookup_lt_is_Some_2 (pdiscard_ d) i) as [p Hp];
          [specialize (Hpd Hs); lia|].
        rewrite (at_index_nat _ _ _ Hp). cbn [bind]. eexists. split; [done|].
        intros Hs'. done. }
      destruct Hdis as (b & -> & Hsup). cbn [bind].
      repeat (case_decide; try congruence).
      match goal with |- context [getLine_ids_loop d tokens ?l1 rng1] =>
        destruct (IH l1 rng1) as (l' & rng' & ws & hs & Hrun & H1 & H2 & H3 & H4 & H5 & H6 & H7);
          [cbn; lia | cbn; lia |] end.
      cbn [line_ntokens line_labels line_words line_hashes] in H1, H2, H3, H4.
      destruct b; cbn [negb] in *.
      * exists l', rng', ws, hs. split; [exact Hrun|].
        split; [cbn [length]; lia|]. do 3 (split; [done|]).
        split; [by apply sublist_cons|]. split; [by apply sublist_cons|].
        intros Hs. specialize (Hsup Hs). discriminate.
      * exists l', rng', (Z.of_nat i :: ws), (int32 (hash tok) :: hs).
        split; [exact Hrun|]. split; [cbn [length]; lia|].
        split; [done|]. split; [by rewrite H3, <- app_assoc|].
        split; [by rewrite H4, <- app_assoc|].
        split; [by apply sublist_skip|]. split; [by apply sublist_skip|].
        intros Hs. destruct (H7 Hs) as [-> ->]. done.
    + (* a label *)
      unfold kept_word. repeat (case_decide; try congruence). cbn [bind].
      match goal with |- context [getLine_ids_loop d tokens ?l1 rng] =>
        destruct (IH l1 rng) as (l' & rng' & ws & hs & Hrun & H1 & H2 & H3 & H4 & H5 & H6 & H7);
          [cbn; lia | cbn; lia |] end.
      cbn [line_ntokens line_labels line_words line_hashes] in H1, H2, H3, H4.
      assert (Hge : nwords_ d <= Z.of_nat i).
      { rewrite (so_nwords _ Hok).
        pose proof (proj2 (grouped_position _ (so_order _ Hok) i e He)) as Hg.
        destruct (Z.lt_ge_cases (Z.of_nat i)
                    (count_type entry_type.word (words_ d))) as [Hc|Hc]; [|lia].
        specialize (Hg Hc). congruence. }
      pose proof (count_type_bound entry_type.word (words_ d)) as Hb.
      pose proof (so_nwords _ Hok) as Hnw.
      rewrite (int32_id (Z.of_nat i - nwords_ d)) in H2 by lia.
      exists l', rng', ws, hs. split; [exact Hrun|].
      split; [cbn [length]; lia|].
      split; [by rewrite H2, <- app_assoc|]. do 4 (split; [done|]). done.
  - (* an unknown token *)
    change (-1 <? 0) with true. cbn iota.
    match goal with |- context [getLine_ids_loop d tokens ?l1 rng] =>
      destruct (IH l1 rng) as (l' & rng' & ws & hs & Hrun & H1 & H2 & H3 & H4 & H5 & H6 & H7);
        [cbn; lia | cbn; lia |] end.
    cbn [line_ntokens line_labels line_words line_hashes] in H1, H2, H3, H4.
    exists l', rng', ws, (int32 (hash tok) :: hs). split; [exact Hrun|].
    do 3 (split; [done|]). split; [by rewrite H4, <- app_assoc|].
    split; [done|]. split; [by apply sublist_skip|].
    intros Hs. destruct (H7 Hs) as [-> ->]. done.
Qed.

End Line.

Lemma omap_length_le {A B} (f : A -> option B) (l : list A) :
  (length (omap f l) <= length l)%nat.
Proof.
  induction l as [|a l IH]; [done|]. cbn [omap list_omap].
  destruct (f a); cbn [length]; lia.
Qed.

(** X16.  What [getLine] extracts from the tokens of a line, on a dictionary
    as [threshold] leaves it: the returned count is the number of tokens that
    are in the vocabulary, discarded words included; the labels are the label
    ids (position minus [nwords_]) of the label tokens, in order; the words
    are a subsequence of the ids of the word tokens, and all of them for a
    supervised model, which never discards; out-of-vocabulary tokens only
    leave their hash. *)
Theorem getLine_ids_spec (d : Dictionary) (s s' : istream) (rng : minstd_rand)
    (tokens : list str) (n : Z) :
  store_ok d ->
  Z.of_nat (length (words_ d)) < MAX_VOCAB_SIZE ->
  (model (args_ d) <> sup -> nwords_ d <= Z.of_nat (length (pdiscard_ d))) ->
  getLine_tokens d s = Ok (s', tokens, n) ->
  Z.of_nat (length tokens) < 2^31 ->
  exists rng' l,
    getLine_ids d s rng = Ok (s', rng', l)
    /\ line_ntokens l = Z.of_nat (length (List.filter (in_vocab d) tokens))
    /\ line_labels l = omap (label_id d) tokens
    /\ line_words l `sublist_of` omap (word_id d) tokens
    /\ line_hashes l `sublist_of` omap (token_hash d) tokens
    /\ (model (args_ d) = sup ->
        line_words l = omap (word_id d) tokens
        /\ line_hashes l = omap (token_hash d) tokens).
Proof.
  intros Hok Hroom Hpd Htok Hlen.
  destruct (getLine_ids_loop_spec d Hok Hroom Hpd tokens empty_line rng)
    as (l & rng' & ws & hs & Hrun & H1 & H2 & H3 & H4 & H5 & H6 & H7);
    [cbn; lia | cbn; lia |].
  cbn in H1, H2, H3, H4.
  exists rng', l. unfold getLine_ids. rewrite Htok. cbn [bind]. rewrite Hrun.
  split; [done|]. split; [lia|]. split; [done|]. rewrite H3, H4. done.
Qed.


End Lines.

Section LinesExamples.
#[local] Existing Instance small_constants.


Lemma addNgrams_range_witness :
  let d := demo_dict in
  let id := 493733 in
  0 < bucket (args_ d) /\ 0 <= nwords_ d
  /\ nwords_ d + bucket (args_ d) <= 2^31
  /\ id ∈ addNgrams d [] [10; 20] 2
  /\ (quantidx_ d = ∅ -> nwords_ d <= id < nwords_ d + bucket (args_ d))
  /\ (quantidx_ d <> ∅ ->
      exists k q, quantidx_ d !! k = Some q /\ id = int32 (nwords_ d + q)).
Proof.
  assert (H1 : 0 < bucket (args_ demo_dict)) by reflexivity.
  assert (H2 : 0 <= nwords_ demo_dict) by (vm_compute; discriminate).
  assert (H3 : nwords_ demo_dict + bucket (args_ demo_dict) <= 2^31)
    by (vm_compute; discriminate).
  assert (H4 : 493733 ∈ addNgrams demo_dict [] [10; 20] 2).
  { vm_compute. apply list_elem_of_singleton. reflexivity. }
  split; [exact H1|]. split; [exact H2|]. split; [exact H3|]. split; [exact H4|].
  apply (addNgrams_range demo_dict [10; 20] 2 _ H1 H2 H3 H4).
Defined.

Lemma getLine_ids_spec_witness :
  let d := demo_dict in
  let s := open_stream (lit "a zz __label__x b" ++ [newline]) in
  let s' := {| before := rev (lit "a zz __label__x b" ++ [newline]);
               after := []; eofbit := false; failbit := false |} in
  let tokens := [lit "a"; lit "zz"; lit "__label__x"; lit "b"; EOS] in
  store_ok d
  /\ Z.of_nat (length (words_ d)) < MAX_VOCAB_SIZE
  /\ (model (args_ d) <> sup -> nwords_ d <= Z.of_nat (length (pdiscard_ d)))
  /\ getLine_tokens d s = Ok (s', tokens, 5)
  /\ Z.of_nat (length tokens) < 2^31
  /\ exists rng' l,
       getLine_ids d s 1 = Ok (s', rng', l)
       /\ line_ntokens l = Z.of_nat (length (List.filter (in_vocab d) tokens))
       /\ line_labels l = omap (label_id d) tokens
       /\ line_words l `sublist_of` omap (word_id d) tokens
       /\ line_hashes l `sublist_of` omap (token_hash d) tokens
       /\ (model (args_ d) = sup ->
           line_words l = omap (word_id d) tokens
           /\ line_hashes l = omap (token_hash d) tokens).
Proof.
  assert (H3 : model (args_ demo_dict) <> sup ->
               nwords_ demo_dict <= Z.of_nat (length (pdiscard_ demo_dict))).
  { intros H. exfalso. apply H. reflexivity. }
  split; [exact demo_dict_ok|]. split; [reflexivity|]. split; [exact H3|].
  split; [reflexivity|]. split; [reflexivity|].
  apply (getLine_ids_spec small_capacity demo_dict
           (open_stream (lit "a zz __label__x b" ++ [newline])) _ 1
           [lit "a"; lit "zz"; lit "__label__x"; lit "b"; EOS] 5
           demo_dict_ok eq_refl H3 eq_refl eq_refl).
Defined.

End LinesExamples.

Section Files.
Context {P : Platform} {C : Constants}.
Hypothesis capacity : 0 < MAX_VOCAB_SIZE < 2^31.



(** ** The binary format *)

Lemma byte_value_ascii m :
  0 <= m < 256 -> byte_value (ascii_of_N (Z.to_N m)) = m.
Proof.
  intros Hm. unfold byte_value. rewrite N_ascii_embedding by lia. lia.
Qed.

Lemma le_bytes_length n z : length (le_bytes n z) = n.
Proof. revert z. induction n as [|n IH]; intros z; [done|]. cbn. by rewrite IH. Qed.

Lemma le_value_le_bytes n z : le_value (le_bytes n z) = z mod 256 ^ Z.of_nat n.
Proof.
  revert z. induction n as [|n IH]; intros z.
  { cbn. by rewrite Z.mod_1_r. }
  cbn [le_bytes le_value]. rewrite IH.
  rewrite byte_value_ascii by (apply Z.mod_pos_bound; lia).
  rewrite Nat2Z.inj_succ, Z.pow_succ_r by lia.
  rewrite Z.rem_mul_r by lia. done.
Qed.

Lemma int32_uint32 z : -2^31 <= z < 2^31 -> int32 (z mod 2^32) = z.
Proof.
  intros Hz. unfold int32.
  rewrite Zplus_mod_idemp_l.
  rewrite Z.mod_small by lia. lia.
Qed.

Lemma int64_uint64 z : -2^63 <= z < 2^63 -> int64 (z mod 2^64) = z.
Proof.
  intros Hz. unfold int64.
  rewrite Zplus_mod_idemp_l.
  rewrite Z.mod_small by lia. lia.
Qed.

Lemma istream_read_app bs rest s :
  ready s (bs ++ rest) ->
  exists s', istream_read (length bs) s = Ok (bs, s') /\ ready s' rest.
Proof.
  intros [Hg Ha]. unfold istream_read. rewrite Hg, Ha. cbn [andb].
  rewrite (proj2 (Nat.leb_le _ _)) by (rewrite length_app; lia).
  rewrite take_app_length, drop_app_length. eexists. split; [done|]. done.
Qed.

Lemma read_int32_le z rest s :
  -2^31 <= z < 2^31 -> ready s (le_bytes 4 z ++ rest) ->
  exists s', read_int32 s = Ok (z, s') /\ ready s' rest.
Proof.
  intros Hz Hs. destruct (istream_read_app _ _ _ Hs) as (s' & Hr & Hs').
  rewrite le_bytes_length in Hr. exists s'. split; [|done].
  unfold read_int32. rewrite Hr. cbn [bind].
  rewrite le_value_le_bytes. change (256 ^ Z.of_nat 4) with (2^32).
  by rewrite int32_uint32.
Qed.

Lemma read_int64_le z rest s :
  -2^63 <= z < 2^63 -> ready s (le_bytes 8 z ++ rest) ->
  exists s', read_int64 s = Ok (z, s') /\ ready s' rest.
Proof.
  intros Hz Hs. destruct (istream_read_app _ _ _ Hs) as (s' & Hr & Hs').
  rewrite le_bytes_length in Hr. exists s'. split; [|done].
  unfold read_int64. rewrite Hr. cbn [bind].
  rewrite le_value_le_bytes. change (256 ^ Z.of_nat 8) with (2^64).
  by rewrite int64_uint64.
Qed.

Lemma load_word_loop_app w : forall rest bef acc,
  NUL ∉ w ->
  load_word_loop (w ++ NUL :: rest) bef acc
  = Ok (acc ++ w, (NUL :: rev w ++ bef, rest)).
Proof.
  induction w as [|c w IH]; intros rest bef acc Hnul.
  { cbn. rewrite decide_True by done. by rewrite app_nil_r. }
  cbn [app load_word_loop]. rewrite decide_False by set_solver.
  rewrite IH by set_solver. cbn [rev]. rewrite <- !app_assoc. done.
Qed.

Lemma load_word_app w rest s :
  NUL ∉ w -> ready s (w ++ NUL :: rest) ->
  exists s', load_word s = Ok (w, s') /\ ready s' rest.
Proof.
  intros Hnul [Hg Ha]. unfold load_word. rewrite Hg, Ha.
  rewrite load_word_loop_app by done. cbn [bind]. eexists. split; [done|]. done.
Qed.

Lemma entry_type_tag ty :
  entry_type_of_tag (le_value (le_bytes 1 (entry_type.tag ty))) = Ok ty.
Proof. destruct ty; reflexivity. Qed.

Lemma save_loop d : forall k i out,
  (i + k <= length (words_ d))%nat ->
  for_loop k (Z.of_nat i) (save_body d) out
  = Ok (out ++ flat_map save_entry (take k (drop i (words_ d)))).
Proof.
  induction k as [|k IH]; intros i out Hlen.
  { cbn. by rewrite app_nil_r. }
  destruct (lookup_lt_is_Some_2 (words_ d) i) as [e He]; [lia|].
  cbn [for_loop]. unfold save_body at 1. rewrite (at_index_nat _ _ _ He).
  cbn [bind]. replace (Z.of_nat i + 1) with (Z.of_nat (S i)) by lia.
  rewrite IH by lia. rewrite (drop_S _ _ _ He). cbn [take flat_map].
  by rewrite <- app_assoc.
Qed.

Lemma save_run d :
  size_ d = Z.of_nat (length (words_ d)) ->
  save d = Ok (le_bytes 4 (size_ d) ++ le_bytes 4 (nwords_ d)
               ++ le_bytes 4 (nlabels_ d) ++ le_bytes 8 (ntokens_ d)
               ++ flat_map save_entry (words_ d) ++ save_quant d).
Proof.
  intros Hsize. unfold save.
  replace (Z.to_nat (size_ d)) with (length (words_ d)) by lia.
  pose proof (save_loop d (length (words_ d)) 0) as Hrun.
  change (Z.of_nat 0) with 0 in Hrun. rewrite Hrun by lia. cbn [bind].
  rewrite drop_0, firstn_all. by rewrite <- !app_assoc.
Qed.

Lemma load_loop es : forall words index s rest,
  index_inv words index (length words) ->
  Z.of_nat (length words + length es) <= MAX_VOCAB_SIZE ->
  Forall entry_wf es ->
  ready s (flat_map save_entry es ++ rest) ->
  exists s' index',
    for_loop (length es) (Z.of_nat (length words)) load_body (s, words, index)
    = Ok (s', words ++ map stored es, index')
    /\ ready s' rest
    /\ index_inv (words ++ map stored es) index' (length words + length es).
Proof.
  induction es as [|e es IH]; intros words index s rest Hinv Hcap Hwf Hs.
  { exists s, index. cbn. rewrite app_nil_r, Nat.add_0_r. done. }
  apply Forall_cons in Hwf as [[Hnul Hcount] Hwf].
  cbn [flat_map] in Hs. unfold save_entry in Hs at 1.
  rewrite <- !app_assoc in Hs. cbn [app] in Hs.
  destruct (load_word_app _ _ _ Hnul Hs) as (s1 & Hr1 & Hs1).
  destruct (read_int64_le _ _ _ Hcount Hs1) as (s2 & Hr2 & Hs2).
  destruct (istream_read_app _ _ _ Hs2) as (s3 & Hr3 & Hs3).
  rewrite le_bytes_length in Hr3.
  cbn [length for_loop]. unfold load_body at 1.
  rewrite Hr1. cbn [bind]. rewrite Hr2. cbn [bind]. rewrite Hr3. cbn [bind].
  rewrite entry_type_tag. cbn [bind].
  change {| word := word e; count := count e; type := type e; subwords := [] |}
    with (stored e).
  set (words' := words ++ [stored e]).
  cbn [length] in Hcap.
  assert (Hsame : forall p, (p < length words)%nat -> words' !! p = words !! p).
  { intros p Hp. unfold words'. by rewrite lookup_app_l. }
  assert (Hinv' : index_inv words' index (length words)).
  { destruct Hinv as [Hok Hocc]. split; [|done].
    eapply index_ok_ext; [done | exact Hok | | ].
    - intros p Hp. by apply Hsame.
    - unfold words'. rewrite length_app. lia. }
  destruct (find_in_total capacity words' index (length words) (word e)
              (proj1 Hinv')) as (k & Hk & Hf & Hstop & Hocc).
  { left. eapply index_inv_empty_slot; [done | exact Hinv' | lia]. }
  rewrite Hf. cbn [bind].
  pose proof (probe_range capacity (home (word e)) k) as Hr.
  pose proof (ok_length _ _ _ (proj1 Hinv')) as Hlen.
  rewrite store_at_Ok by lia. cbn [bind].
  assert (Hins : index_inv words'
                   (<[Z.to_nat (probe (home (word e)) k) := Z.of_nat (length words)]> index)
                   (S (length words))).
  { apply (index_inv_insert capacity words' words' index (length words) (word e)
             (stored e) k); try done.
    unfold words'. rewrite lookup_app_r by lia. by rewrite Nat.sub_diag. }
  replace (S (length words)) with (length words') in Hins
    by (unfold words'; rewrite length_app; cbn; lia).
  replace (Z.of_nat (length words) + 1) with (Z.of_nat (length words'))
    by (unfold words'; rewrite length_app; cbn; lia).
  destruct (IH words' _ s3 rest Hins) as (s' & index' & Hrun & Hs' & Hfin).
  { unfold words'. rewrite length_app. cbn [length]. lia. }
  { done. }
  { done. }
  exists s', index'. unfold words' in *. rewrite <- app_assoc in Hrun, Hfin.
  cbn [app] in Hrun, Hfin. split; [exact Hrun|]. split; [done|].
  rewrite length_app in Hfin. cbn [length] in Hfin.
  replace (length words + S (length es))%nat
    with (length words + 1 + length es)%nat by lia. done.
Qed.

(** The fuel [load] gives the pair loop is never used up. *)
Lemma load_quant_loop_fuel : forall fuel i size s q,
  (length (after s) < fuel)%nat ->
  load_quant_loop fuel i size (s, q) <> Err Diverges.
Proof.
  clear capacity.
  induction fuel as [|fuel IH]; intros i size s q Hf; [lia|].
  cbn [load_quant_loop]. destruct (uint64 i <? size); [|done].
  unfold load_quant_body, read_int32, istream_read.
  destruct (good s && (4 <=? length (after s))%nat) eqn:H1; [|done].
  cbn [bind good after eofbit failbit].
  apply andb_true_iff in H1 as [_ H1]. apply Nat.leb_le in H1.
  destruct (_ && (4 <=? length (drop 4 (after s)))%nat) eqn:H2; [|done].
  cbn [bind after]. apply IH. cbn [after]. rewrite !length_drop. lia.
Qed.

Lemma save_pair_length l :
  length (flat_map save_pair l) = (8 * length l)%nat.
Proof.
  clear capacity. induction l as [|kv l IH]; [done|].
  cbn [flat_map length]. unfold save_pair at 1.
  rewrite !length_app, !le_bytes_length, IH. lia.
Qed.

Lemma load_quant_pairs l : forall fuel (i : nat) size s q rest,
  Forall (fun kv => int32_range (fst kv) /\ int32_range (snd kv)) l ->
  ready s (flat_map save_pair l ++ rest) ->
  size = Z.of_nat i + Z.of_nat (length l) -> size < 2^31 ->
  (length l <= fuel)%nat ->
  exists s',
    load_quant_loop fuel (Z.of_nat i) size (s, q)
    = Ok (s', foldl (fun q kv => <[fst kv := snd kv]> q) q l)
    /\ ready s' rest.
Proof.
  clear capacity.
  induction l as [|[k v] l IH]; intros fuel i size s q rest Hl Hs Hsize Hlt Hf.
  { exists s. split; [|done]. cbn [length] in Hsize.
    destruct fuel; cbn [load_quant_loop foldl];
      rewrite uint64_id by lia;
      (destruct (Z.ltb_spec (Z.of_nat i) size); [lia|done]). }
  apply Forall_cons in Hl as [[Hk Hv] Hl]. cbn [fst snd] in Hk, Hv.
  cbn [flat_map] in Hs. unfold save_pair in Hs at 1. cbn [fst snd] in Hs.
  rewrite <- !app_assoc in Hs.
  destruct (read_int32_le _ _ _ Hk Hs) as (s1 & Hr1 & Hs1).
  destruct (read_int32_le _ _ _ Hv Hs1) as (s2 & Hr2 & Hs2).
  cbn [length] in Hsize, Hf. destruct fuel as [|fuel]; [lia|].
  cbn [load_quant_loop]. rewrite uint64_id by lia.
  destruct (Z.ltb_spec (Z.of_nat i) size); [|lia].
  unfold load_quant_body at 1.
  rewrite Hr1. cbn [bind]. rewrite Hr2. cbn [bind].
  rewrite (int32_id (Z.of_nat i + 1)) by lia.
  replace (Z.of_nat i + 1) with (Z.of_nat (S i)) by lia.
  destruct (IH fuel (S i) size s2 (<[k := v]> q) rest Hl Hs2) as (s' & Hrun & Hs');
    [lia | lia | lia |].
  exists s'. done.
Qed.

Lemma foldl_insert_union (l : list (Z * Z)) : forall q : gmap Z Z,
  NoDup (l.*1) ->
  foldl (fun q kv => <[fst kv := snd kv]> q) q l = list_to_map l ∪ q.
Proof.
  induction l as [|[k v] l IH]; intros q Hnd.
  { cbn. by rewrite (left_id_L ∅ (∪)). }
  cbn [fmap list_fmap fst] in Hnd. apply NoDup_cons in Hnd as [Hk Hnd].
  cbn [foldl fst snd list_to_map foldr uncurry]. rewrite IH by done.
  rewrite <- insert_union_l, <- insert_union_r; [done|].
  by apply not_elem_of_list_to_map.
Qed.

Lemma load_quant_run `{!PlatformLaws P} (m q : gmap Z Z) s rest :
  map_Forall (fun k v => int32_range k /\ int32_range v) m ->
  Z.of_nat (size m) < 2^31 ->
  ready s (le_bytes 8 (Z.of_nat (size m)) ++ flat_map save_pair (umap_iter m) ++ rest) ->
  exists s',
    (let* '(bs, s) := istream_read 8 s in
     load_quant_loop (S (length (after s))) 0 (le_value bs) (s, q))
    = Ok (s', m ∪ q)
    /\ ready s' rest.
Proof.
  clear capacity. intros Hm Hsize Hs.
  destruct (istream_read_app _ _ _ Hs) as (s1 & Hr1 & Hs1).
  rewrite le_bytes_length in Hr1. rewrite Hr1. cbn [bind].
  rewrite le_value_le_bytes. change (256 ^ Z.of_nat 8) with (2^64).
  rewrite Z.mod_small by lia.
  pose proof (umap_iter_perm m) as Hperm.
  assert (Hlen : length (umap_iter m) = size m).
  { rewrite (Permutation_length Hperm). apply length_map_to_list. }
  destruct (load_quant_pairs (umap_iter m) (S (length (after s1))) 0
              (Z.of_nat (size m)) s1 q rest) as (s' & Hrun & Hs').
  { rewrite Hperm. apply map_Forall_to_list in Hm.
    eapply Forall_impl; [exact Hm|]. intros [k v]. done. }
  { done. }
  { rewrite Hlen. lia. }
  { done. }
  { rewrite (proj2 Hs1), length_app, save_pair_length. lia. }
  exists s'. split; [|done]. change (Z.of_nat 0) with 0 in Hrun.
  rewrite Hrun. do 2 f_equal.
  assert (Hnd : NoDup ((umap_iter m).*1)).
  { rewrite Hperm. apply NoDup_fst_map_to_list. }
  rewrite foldl_insert_union by done. f_equal.
  rewrite (list_to_map_proper _ _ Hnd Hperm). apply list_to_map_to_list.
Qed.

Lemma initTableDiscard_loop d : forall k i pd,
  (i + k <= length (words_ d))%nat ->
  for_loop k (Z.of_nat i) (initTableDiscard_body d) pd
  = Ok (pd ++ map (fun e => discard_threshold (t (args_ d)) (count e) (ntokens_ d))
                  (take k (drop i (words_ d)))).
Proof.
  induction k as [|k IH]; intros i pd Hlen.
  { cbn. by rewrite app_nil_r. }
  destruct (lookup_lt_is_Some_2 (words_ d) i) as [e He]; [lia|].
  cbn [for_loop]. unfold initTableDiscard_body at 1. rewrite (at_index_nat _ _ _ He).
  cbn [bind]. replace (Z.of_nat i + 1) with (Z.of_nat (S i)) by lia.
  rewrite IH by lia. rewrite (drop_S _ _ _ He). cbn [take map].
  by rewrite <- app_assoc.
Qed.

Lemma initTableDiscard_run d :
  size_ d = Z.of_nat (length (words_ d)) ->
  Z.of_nat (length (words_ d)) < 2^31 ->
  initTableDiscard d
  = Ok (set_pdiscard_
          (map (fun e => discard_threshold (t (args_ d)) (count e) (ntokens_ d))
               (words_ d)) d).
Proof.
  intros Hsize Hlen. unfold initTableDiscard.
  rewrite Hsize, uint64_id by lia. rewrite Nat2Z.id.
  pose proof (initTableDiscard_loop d (length (words_ d)) 0 []) as Hrun.
  change (Z.of_nat 0) with 0 in Hrun. rewrite Hrun by lia.
  cbn [bind app]. by rewrite drop_0, firstn_all.
Qed.

(** [computeNgrams] reads the arguments and [nwords_] only. *)
Lemma computeNgrams_inner_ext d1 d2 i :
  args_ d1 = args_ d2 -> nwords_ d1 = nwords_ d2 ->
  forall fuel rest n ngram ngrams,
    computeNgrams_inner fuel d1 i rest n ngram ngrams
    = computeNgrams_inner fuel d2 i rest n ngram ngrams.
Proof.
  intros Ha Hn. induction fuel as [|fuel IH]; intros rest n ngram ngrams; [done|].
  destruct rest as [|c rest]; [done|]. cbn [computeNgrams_inner].
  unfold ngram_id. rewrite Ha, Hn.
  destruct (n <=? uint64 (maxn (args_ d2))); [|done].
  destruct (take_continuation rest (ngram ++ [c])) as [ngram' rest']. apply IH.
Qed.

Lemma computeNgrams_ext d1 d2 w ngrams :
  args_ d1 = args_ d2 -> nwords_ d1 = nwords_ d2 ->
  computeNgrams d1 w ngrams = computeNgrams d2 w ngrams.
Proof.
  intros Ha Hn. unfold computeNgrams. generalize 0 as i. revert ngrams.
  induction w as [|c w IH]; intros ngrams i; [done|].
  cbn [computeNgrams_outer].
  rewrite (computeNgrams_inner_ext d1 d2 i Ha Hn). apply IH.
Qed.

Lemma ready_open bytes : ready (open_stream bytes) bytes.
Proof. split; reflexivity. Qed.

(** [load] undoes [save]. *)
Lemma save_load_run `{!PlatformLaws P} (d d0 : Dictionary)
    (rest : list ascii) :
  size_ d = Z.of_nat (length (words_ d)) ->
  Z.of_nat (length (words_ d)) <= MAX_VOCAB_SIZE ->
  Forall entry_wf (words_ d) ->
  int32_range (nwords_ d) -> int32_range (nlabels_ d) ->
  -2^63 <= ntokens_ d < 2^63 ->
  length (word2int_ d0) = Z.to_nat MAX_VOCAB_SIZE ->
  quant_ d0 = quant_ d ->
  map_Forall (fun k v => int32_range k /\ int32_range v) (quantidx_ d) ->
  Z.of_nat (size (quantidx_ d)) < 2^31 ->
  exists bytes d' s',
    save d = Ok bytes
    /\ load d0 (open_stream (bytes ++ rest)) = Ok (d', s')
    /\ after s' = rest
    /\ map triple (words_ d') = map triple (words_ d)
    /\ size_ d' = size_ d /\ nwords_ d' = nwords_ d
    /\ nlabels_ d' = nlabels_ d /\ ntokens_ d' = ntokens_ d
    /\ quantidx_ d'
       = (if quant_ d then quantidx_ d ∪ quantidx_ d0 else quantidx_ d0)
    /\ args_ d' = args_ d0 /\ quant_ d' = quant_ d
    /\ index_inv (words_ d') (word2int_ d') (length (words_ d'))
    /\ (NoDup (map word (words_ d)) -> dict_inv d')
    /\ (forall p e, words_ d' !! p = Some e ->
          subwords e = Z.of_nat p :: computeNgrams d' (BOW ++ word e ++ EOW) []).
Proof.
  intros Hsize Hcap Hwf Hnw Hnl Hnt Hlen0 Hq Hqr Hqs.
  assert (Hsz : int32_range (size_ d)) by (unfold int32_range; lia).
  pose proof (ready_open
    ((le_bytes 4 (size_ d) ++ le_bytes 4 (nwords_ d) ++ le_bytes 4 (nlabels_ d)
      ++ le_bytes 8 (ntokens_ d) ++ flat_map save_entry (words_ d)
      ++ save_quant d) ++ rest)) as Hs0.
  rewrite <- !app_assoc in Hs0.
  destruct (read_int32_le _ _ _ Hsz Hs0) as (s1 & Hr1 & Hs1).
  destruct (read_int32_le _ _ _ Hnw Hs1) as (s2 & Hr2 & Hs2).
  destruct (read_int32_le _ _ _ Hnl Hs2) as (s3 & Hr3 & Hs3).
  destruct (read_int64_le _ _ _ Hnt Hs3) as (s4 & Hr4 & Hs4).
  destruct (load_loop (words_ d) [] (replicate (length (word2int_ d0)) (-1)) s4
              (save_quant d ++ rest)) as (s5 & index & Hr5 & Hs5 & Hinv).
  { rewrite Hlen0. apply index_inv_replicate. }
  { cbn [length]. lia. }
  { done. }
  { done. }
  cbn [app length] in Hr5, Hinv. rewrite Nat.add_0_l in Hinv.
  change (Z.of_nat 0) with 0 in Hr5.
  assert (Hquant : exists s6,
            (if quant_ d0 then
               let* '(bs, s) := istream_read 8 s5 in
               load_quant_loop (S (length (after s))) 0 (le_value bs)
                               (s, quantidx_ d0)
             else Ok (s5, quantidx_ d0))
            = Ok (s6, if quant_ d then quantidx_ d ∪ quantidx_ d0 else quantidx_ d0)
            /\ ready s6 rest).
  { rewrite Hq. unfold save_quant in Hs5. destruct (quant_ d).
    - rewrite <- app_assoc in Hs5.
      apply (load_quant_run (quantidx_ d) (quantidx_ d0) s5 rest Hqr Hqs Hs5).
    - exists s5. done. }
  destruct Hquant as (s6 & Hr6 & Hs6).
  set (words1 := map stored (words_ d)) in *.
  assert (Hl1 : length words1 = length (words_ d)) by apply length_map.
  set (d1 := set_quantidx_
               (if quant_ d then quantidx_ d ∪ quantidx_ d0 else quantidx_ d0)
               (set_ntokens_ (ntokens_ d)
                  (set_counters (size_ d) (nwords_ d) (nlabels_ d)
                     (set_word2int_ index (set_words_ words1 d0))))).
  assert (Hsize1 : size_ d1 = Z.of_nat (length (words_ d1))) by (cbn; lia).
  assert (Hlt1 : Z.of_nat (length (words_ d1)) < 2^31) by (cbn; lia).
  pose proof (initTableDiscard_run d1 Hsize1 Hlt1) as Hr7.
  set (d2 := set_pdiscard_ _ d1) in Hr7.
  destruct (initNgrams_run d2 Hsize1 Hlt1) as (ws & Hr8 & Hl8 & Hmap & Hcell).
  assert (Hload : load d0 (open_stream
            ((le_bytes 4 (size_ d) ++ le_bytes 4 (nwords_ d)
              ++ le_bytes 4 (nlabels_ d) ++ le_bytes 8 (ntokens_ d)
              ++ flat_map save_entry (words_ d) ++ save_quant d) ++ rest))
          = Ok (set_words_ ws d2, s6)).
  { unfold load. rewrite <- !app_assoc. rewrite Hr1. cbn [bind]. rewrite Hr2. cbn [bind].
    rewrite Hr3. cbn [bind]. rewrite Hr4. cbn [bind].
    replace (Z.to_nat (size_ d)) with (length (words_ d)) by lia.
    rewrite Hr5. cbn [bind].
    rewrite Hr6. cbn [bind]. fold words1. fold d1. rewrite Hr7. cbn [bind].
    rewrite Hr8. done. }
  eexists _, (set_words_ ws d2), s6.
  split; [exact (save_run d Hsize)|].
  split; [exact Hload|]. split; [exact (proj2 Hs6)|].
  cbn [words_ set_words_ size_ nwords_ nlabels_ ntokens_ quantidx_ args_ quant_
       word2int_ set_pdiscard_ d2 d1 set_quantidx_ set_ntokens_ set_counters
       set_word2int_].
  assert (Hentry : forall p e, words_ d !! p = Some e ->
            ws !! p = Some (set_subwords
               (Z.of_nat p :: computeNgrams d2 (BOW ++ word e ++ EOW) []) e)).
  { intros p e He.
    rewrite (Hcell p (stored e)); [done|].
    cbn. unfold words1. rewrite list_lookup_fmap, He. done. }
  assert (Htriple : map triple ws = map triple (words_ d)).
  { apply list_eq. intros p. change (map triple ?l) with (triple <$> l).
    rewrite !list_lookup_fmap. destruct (words_ d !! p) as [e|] eqn:He.
    - rewrite (Hentry p e He). done.
    - rewrite (lookup_ge_None_2 ws p); [done|].
      apply lookup_ge_None_1 in He. cbn in Hl8. lia. }
  assert (Hwords : map word ws = map word (words_ d)).
  { rewrite Hmap. cbn. unfold words1. rewrite map_map. done. }
  assert (Hinv' : index_inv ws index (length ws)).
  { cbn in Hl8. rewrite Hl8. destruct Hinv as [Hok Hocc]. rewrite Hl1.
    split; [|done]. eapply index_ok_same_words; [exact Hok|].
    rewrite Hwords. unfold words1. rewrite map_map. done. }
  split; [exact Htriple|]. do 4 (split; [reflexivity|]).
  split; [reflexivity|]. split; [reflexivity|]. split; [exact Hq|].
  split; [exact Hinv'|]. split.
  - intros Hnd. split; cbn.
    + exact Hinv'.
    + cbn in Hl8. lia.
    + by rewrite Hwords.
  - intros p e' He'.
    assert (Hp : (p < length (words_ d))%nat).
    { apply lookup_lt_Some in He'. cbn in Hl8. lia. }
    destruct (lookup_lt_is_Some_2 (words_ d) p Hp) as [e He].
    rewrite (Hentry p e He) in He'. inversion He'; subst e'.
    cbn [subwords set_subwords word]. f_equal.
    apply computeNgrams_ext; reflexivity.
Qed.


Lemma load_word_loop_unterminated aft : forall bef w,
  NUL ∉ aft -> load_word_loop aft bef w = Err Diverges.
Proof.
  clear capacity. induction aft as [|c aft IH]; intros bef w Hnul; [done|].
  cbn [load_word_loop]. rewrite decide_False by set_solver.
  apply IH. set_solver.
Qed.

(** X19.  A file that announces at least one entry but holds no NUL byte
    after its 20-byte header makes [load] read the first word for ever: at
    the end of the file [in.get()] returns [EOF], which is not 0. *)
Theorem load_unterminated_word (d0 : Dictionary) (s : istream)
    (hdr tail : list ascii) :
  good s = true -> after s = hdr ++ tail -> length hdr = 20%nat ->
  0 < int32 (le_value (take 4 hdr)) ->
  NUL ∉ tail ->
  load d0 s = Err Diverges.
Proof.
  clear capacity. intros Hg Ha Hlen Hsize Hnul.
  assert (Hsplit : hdr = take 4 hdr ++ take 4 (drop 4 hdr)
                         ++ take 4 (drop 8 hdr) ++ drop 12 hdr).
  { do 21 (destruct hdr as [|? hdr]; try discriminate). reflexivity. }
  assert (Hs0 : ready s (take 4 hdr ++ take 4 (drop 4 hdr)
                         ++ take 4 (drop 8 hdr) ++ drop 12 hdr ++ tail)).
  { split; [done|]. rewrite Ha. rewrite Hsplit at 1. by rewrite <- !app_assoc. }
  destruct (istream_read_app _ _ _ Hs0) as (s1 & Hr1 & Hs1).
  destruct (istream_read_app _ _ _ Hs1) as (s2 & Hr2 & Hs2).
  destruct (istream_read_app _ _ _ Hs2) as (s3 & Hr3 & Hs3).
  destruct (istream_read_app _ _ _ Hs3) as (s4 & Hr4 & Hs4).
  replace (length (take 4 hdr)) with 4%nat in Hr1
    by (rewrite length_take; lia).
  replace (length (take 4 (drop 4 hdr))) with 4%nat in Hr2
    by (rewrite length_take, length_drop; lia).
  replace (length (take 4 (drop 8 hdr))) with 4%nat in Hr3
    by (rewrite length_take, length_drop; lia).
  replace (length (drop 12 hdr)) with 8%nat in Hr4
    by (rewrite length_drop; lia).
  unfold load, read_int32, read_int64.
  rewrite Hr1. cbn [bind]. rewrite Hr2. cbn [bind]. rewrite Hr3. cbn [bind].
  rewrite Hr4. cbn [bind].
  destruct (Z.to_nat (int32 (le_value (take 4 hdr)))) as [|k] eqn:Hk; [lia|].
  cbn [for_loop]. unfold load_body at 1. unfold load_word.
  destruct Hs4 as [-> ->].
  rewrite load_word_loop_unterminated by done. done.
Qed.

End Files.

Section FilesExamples.
#[local] Existing Instance small_constants.

Lemma bigram_quantized_all_wf : Forall entry_wf (words_ bigram_quantized_all).
Proof.
  repeat (apply Forall_cons; split;
          [split; [apply (bool_decide_unpack _); reflexivity
                  | split; [discriminate | reflexivity]]|]).
  apply Forall_nil_2.
Qed.


Lemma load_unterminated_word_witness :
  let s := open_stream (le_bytes 4 1 ++ le_bytes 16 0 ++ lit "abc") in
  good s = true
  /\ after s = (le_bytes 4 1 ++ le_bytes 16 0) ++ lit "abc"
  /\ length (le_bytes 4 1 ++ le_bytes 16 0) = 20%nat
  /\ 0 < int32 (le_value (take 4 (le_bytes 4 1 ++ le_bytes 16 0)))
  /\ (NUL ∉ lit "abc")
  /\ load (Dictionary_new (default_args sup)) s = Err Diverges.
Proof.
  assert (H5 : NUL ∉ lit "abc") by (apply (bool_decide_unpack _); reflexivity).
  split; [reflexivity|]. split; [reflexivity|]. split; [reflexivity|].
  split; [reflexivity|]. split; [exact H5|].
  apply (load_unterminated_word (Dictionary_new (default_args sup))
           (open_stream (le_bytes 4 1 ++ le_bytes 16 0 ++ lit "abc"))
           (le_bytes 4 1 ++ le_bytes 16 0) (lit "abc")
           eq_refl eq_refl eq_refl eq_refl H5).
Defined.

End FilesExamples.

Section Corpus.
Context {P : Platform} {C : Constants}.
Hypothesis capacity : 0 < MAX_VOCAB_SIZE < 2^31.


(** ** Reading a corpus *)

Lemma occurrences_snoc w seen t :
  occurrences w (seen ++ [t])
  = occurrences w seen + (if decide (t = w) then 1 else 0).
Proof.
  unfold occurrences. rewrite List.filter_app, length_app. cbn [List.filter].
  destruct (decide (t = w)) as [->|Hne].
  - rewrite bool_decide_eq_true_2 by done. cbn [length]. lia.
  - rewrite bool_decide_eq_false_2 by done. cbn [length]. lia.
Qed.

Lemma occurrences_bound w seen : 0 <= occurrences w seen <= Z.of_nat (length seen).
Proof.
  unfold occurrences. pose proof (List.filter_length_le (fun t => bool_decide (t = w)) seen).
  lia.
Qed.

Lemma occurrences_absent w seen : w ∉ seen -> occurrences w seen = 0.
Proof.
  intros Hw. unfold occurrences. rewrite filter_none; [done|].
  intros t Ht. apply bool_decide_eq_false_2. intros ->. apply Hw.
  by apply list_elem_of_In.
Qed.

Lemma distinct_mono (l1 l2 : list str) :
  (forall x, x ∈ l1 -> x ∈ l2) ->
  (length (remove_dups l1) <= length (remove_dups l2))%nat.
Proof.
  intros Hsub. apply submseteq_length, NoDup_submseteq; [apply NoDup_remove_dups|].
  intros x Hx. rewrite elem_of_remove_dups in Hx |- *. by apply Hsub.
Qed.

Lemma counted_new args : counted args (Dictionary_new args) [].
Proof.
  split; [apply dict_inv_new | done | done | |].
  - intros e He. cbn in He. by apply elem_of_nil in He.
  - intros w Hw. by apply elem_of_nil in Hw.
Qed.

Lemma counted_size args d seen :
  counted args d seen ->
  (length (words_ d) <= length (remove_dups seen))%nat.
Proof.
  intros Hc. rewrite <- (length_map word (words_ d)).
  apply submseteq_length, NoDup_submseteq.
  - apply (di_nodup _ (ct_inv _ _ _ Hc)).
  - intros w Hw. rewrite elem_of_remove_dups.
    apply list_elem_of_fmap in Hw as (e & -> & He).
    apply (ct_entry _ _ _ Hc e He).
Qed.

Lemma counted_add args d seen w :
  counted args d seen ->
  Z.of_nat (length (words_ d)) < MAX_VOCAB_SIZE ->
  Z.of_nat (length seen) + 1 < 2^63 ->
  exists d', add d w = Ok d' /\ counted args d' (seen ++ [w]).
Proof.
  intros Hc Hroom Hlen. pose proof (ct_inv _ _ _ Hc) as Hinv.
  destruct (in_store_dec (words_ d) (length (words_ d)) w)
    as [(p & e & Hp & Hpe & Hw) | Hnot].
  - (* a word seen before *)
    destruct (add_present capacity d w p e Hinv Hpe Hw) as [Hadd Hinv'].
    eexists. split; [exact Hadd|].
    assert (Hin : e ∈ words_ d) by (apply list_elem_of_lookup; eauto).
    destruct (ct_entry _ _ _ Hc e Hin) as (He1 & He2 & He3 & He4).
    split; [exact Hinv' | exact (ct_args _ _ _ Hc) | | |].
    + cbn. rewrite (ct_ntokens _ _ _ Hc), length_app. cbn [length].
      rewrite int64_id by lia. lia.
    + intros e' He'. cbn in He'.
      apply list_elem_of_lookup in He' as [q Hq].
      destruct (decide (q = p)) as [->|Hne].
      * rewrite list_lookup_insert_eq in Hq by done. inversion Hq; subst e'.
        cbn [bump_count word count type subwords].
        rewrite occurrences_snoc, decide_True by done.
        pose proof (occurrences_bound (word e) seen).
        split; [set_solver|]. split; [rewrite He2, int64_id by lia; lia|]. done.
      * rewrite list_lookup_insert_ne in Hq by done.
        assert (Hin' : e' ∈ words_ d) by (apply list_elem_of_lookup; eauto).
        destruct (ct_entry _ _ _ Hc e' Hin') as (G1 & G2 & G3 & G4).
        assert (word e' <> w).
        { intros Heq. apply Hne.
          eapply (NoDup_map_lookup word); [apply (di_nodup _ Hinv) | done..|].
          congruence. }
        rewrite occurrences_snoc, decide_False by done.
        split; [set_solver|]. split; [lia|]. done.
    + intros w' Hw'. apply elem_of_app in Hw' as [Hw' | Hw'].
      * destruct (ct_seen _ _ _ Hc w' Hw') as (e' & He' & Hwe').
        apply list_elem_of_lookup in He' as [q Hq].
        destruct (decide (q = p)) as [->|Hne].
        -- exists (bump_count e). split.
           ++ cbn. apply list_elem_of_lookup. exists p.
              apply list_lookup_insert_eq. done.
           ++ cbn. congruence.
        -- exists e'. split; [|done]. cbn. apply list_elem_of_lookup. exists q.
           rewrite list_lookup_insert_ne by done. done.
      * apply list_elem_of_singleton in Hw'. subst w'.
        exists (bump_count e). split; [|done].
        cbn. apply list_elem_of_lookup. exists p.
        apply list_lookup_insert_eq. done.
  - (* a new word *)
    assert (Hall : forall e, e ∈ words_ d -> word e <> w).
    { intros e Hin Hw. apply Hnot. apply list_elem_of_lookup in Hin as [p Hp].
      exists p, e. split; [eapply lookup_lt_Some; done | done]. }
    assert (Hfresh : w ∉ seen).
    { intros Hw. destruct (ct_seen _ _ _ Hc w Hw) as (e & He & Hwe).
      by apply (Hall e). }
    destruct (add_absent capacity d w Hinv Hroom Hall)
      as (d' & Hadd & Hws & Hsz & Hnt & _ & _ & Hargs & _ & _ & _ & Hinv').
    exists d'. split; [exact Hadd|].
    split; [exact Hinv' | by rewrite Hargs, (ct_args _ _ _ Hc) | | |].
    + rewrite Hnt, (ct_ntokens _ _ _ Hc), length_app. cbn [length].
      rewrite int64_id by lia. lia.
    + intros e He. rewrite Hws in He. apply elem_of_app in He as [He | He].
      * destruct (ct_entry _ _ _ Hc e He) as (G1 & G2 & G3 & G4).
        rewrite occurrences_snoc, decide_False by (intros Heq; by apply (Hall e)).
        split; [set_solver|]. split; [lia|]. done.
      * apply list_elem_of_singleton in He. subst e.
        cbn [new_entry word count type subwords].
        rewrite occurrences_snoc, decide_True by done.
        rewrite occurrences_absent by done.
        split; [set_solver|]. split; [done|]. split; [|done].
        unfold token_type. by rewrite (ct_args _ _ _ Hc).
    + intros w' Hw'. rewrite Hws. apply elem_of_app in Hw' as [Hw' | Hw'].
      * destruct (ct_seen _ _ _ Hc w' Hw') as (e' & He' & Hwe').
        exists e'. split; [set_solver | done].
      * apply list_elem_of_singleton in Hw'. subst w'.
        exists (new_entry d w). split; [set_solver | done].
Qed.

Lemma readFromFile_loop_spec args : forall fuel s d seen m toks s_end,
  counted args d seen ->
  (length (after s) < fuel)%nat ->
  read_all fuel s = (toks, s_end) ->
  4 * Z.of_nat (length (remove_dups (seen ++ toks))) <= 3 * MAX_VOCAB_SIZE ->
  Z.of_nat (length (seen ++ toks)) < 2^63 - 1 ->
  exists d', readFromFile_loop fuel d s m = Ok (d', s_end)
    /\ counted args d' (seen ++ toks).
Proof.
  induction fuel as [|fuel IH]; intros s d seen m toks s_end Hc Hfuel Hread Hcap Hlen;
    [lia|].
  cbn [read_all readFromFile_loop] in *.
  destruct (readWord s) as [[b s1] w] eqn:Hr.
  destruct (readWord_shape s s1 b w Hr) as (_ & _ & _ & Hdec).
  destruct b.
  2:{ inversion Hread; subst. rewrite app_nil_r. eauto. }
  specialize (Hdec eq_refl).
  destruct (read_all fuel s1) as [l s2] eqn:Hrest. inversion Hread; subst toks s2.
  clear Hread.
  assert (Hd1 : (length (remove_dups (seen ++ [w]))
                 <= length (remove_dups (seen ++ w :: l)))%nat).
  { apply distinct_mono. intros x Hx. set_solver. }
  assert (Hd0 : (length (remove_dups seen)
                 <= length (remove_dups (seen ++ [w])))%nat).
  { apply distinct_mono. intros x Hx. set_solver. }
  pose proof (counted_size _ _ _ Hc) as Hsz.
  rewrite length_app in Hlen. cbn [length] in Hlen.
  destruct (counted_add args d seen w Hc) as (d1 & Hadd & Hc1); [lia | lia |].
  rewrite Hadd. cbn [bind].
  pose proof (counted_size _ _ _ Hc1) as Hsz1.
  pose proof (di_size _ (ct_inv _ _ _ Hc1)) as Hsize1.
  destruct (Z.ltb_spec (3 * MAX_VOCAB_SIZE) (4 * size_ d1)) as [Hbig | _]; [lia|].
  destruct (IH s1 d1 (seen ++ [w]) m l s_end Hc1) as (d' & Hrun & Hc');
    [lia | done | by rewrite <- app_assoc | rewrite <- app_assoc, length_app; cbn [app length]; lia |].
  exists d'. split; [exact Hrun|]. by rewrite <- app_assoc in Hc'.
Qed.

Lemma below_threshold_reaches_min args tokens e :
  count e = occurrences (word e) tokens ->
  type e = token_type args (word e) ->
  below_threshold (minCount args) (minCountLabel args) e
  = negb (reaches_min args tokens (word e)).
Proof.
  intros Hcount Htype. unfold below_threshold, reaches_min.
  rewrite Hcount, <- Htype. destruct (type e).
  - rewrite bool_decide_eq_true_2, bool_decide_eq_false_2 by done.
    cbn [andb orb]. rewrite orb_false_r. apply Z.ltb_antisym.
  - rewrite bool_decide_eq_false_2, bool_decide_eq_true_2 by done.
    cbn [andb orb]. apply Z.ltb_antisym.
Qed.

Lemma threshold_store_elem `{!PlatformLaws P} ws t tl e :
  e ∈ threshold_store ws t tl <-> e ∈ ws /\ below_threshold t tl e = false.
Proof.
  unfold threshold_store.
  rewrite list_elem_of_In, filter_In, <- list_elem_of_In.
  rewrite (std_sort_perm ws), negb_true_iff. done.
Qed.

Lemma triple_lookup l1 l2 i e1 :
  map triple l1 = map triple l2 -> l1 !! i = Some e1 ->
  exists e2, l2 !! i = Some e2 /\ triple e2 = triple e1.
Proof.
  intros Hmap Hi.
  assert (H : (map triple l2) !! i = Some (triple e1)).
  { rewrite <- Hmap. change (map triple l1) with (triple <$> l1).
    by rewrite list_lookup_fmap, Hi. }
  change (map triple l2) with (triple <$> l2) in H.
  rewrite list_lookup_fmap in H. destruct (l2 !! i) as [e2|]; [|done].
  exists e2. split; [done|]. cbn in H. congruence.
Qed.

Lemma count_type_triple ty l1 : forall l2,
  map triple l1 = map triple l2 -> count_type ty l1 = count_type ty l2.
Proof.
  induction l1 as [|a l1 IH]; intros [|b l2] Hmap; try done.
  cbn [map] in Hmap. inversion Hmap as [[Hw Hc Ht Hrest]].
  rewrite !count_type_cons, Ht, (IH l2 Hrest). done.
Qed.

Lemma store_ok_same_triples d ws pd :
  store_ok d -> map triple ws = map triple (words_ d) ->
  store_ok (set_words_ ws (set_pdiscard_ pd d)).
Proof.
  intros [[[Hok Hocc] Hsize Hnd] Hcap Hnw Hnl Hord] Hmap.
  assert (Hlen : length ws = length (words_ d)).
  { rewrite <- (length_map triple ws), Hmap. apply length_map. }
  assert (Hword : map word ws = map word (words_ d)).
  { assert (Hf : forall l, map word l = map (fun x => fst (fst x)) (map triple l)).
    { intros l. rewrite map_map. done. }
    rewrite Hf, Hmap, <- Hf. done. }
  split; cbn.
  - split; cbn.
    + rewrite Hlen. split; [|done]. eapply index_ok_same_words; done.
    + lia.
    + by rewrite Hword.
  - lia.
  - rewrite Hnw. symmetry. by apply count_type_triple.
  - rewrite Hnl. symmetry. by apply count_type_triple.
  - intros i j e1 e2 Hij H1 H2.
    destruct (triple_lookup _ _ _ _ Hmap H1) as (e1' & G1 & T1).
    destruct (triple_lookup _ _ _ _ Hmap H2) as (e2' & G2 & T2).
    inversion T1 as [[A1 A2 A3]]. inversion T2 as [[B1 B2 B3]].
    destruct (Hord i j e1' e2' Hij G1 G2) as [O1 O2]. split.
    + intros Hw. assert (type e1' = entry_type.word) by (apply O1; congruence).
      congruence.
    + intros Ht. assert (count e2' <= count e1') by (apply O2; congruence).
      lia.
Qed.

(** What [readFromFile] builds when the loop never prunes. *)
Lemma readFromFile_run `{!PlatformLaws P} (args : Args) (s : istream) :
  4 * Z.of_nat (length (remove_dups (fst (corpus s)))) <= 3 * MAX_VOCAB_SIZE ->
  Z.of_nat (length (fst (corpus s))) < 2^63 - 1 ->
  ((forall w, w ∈ fst (corpus s) -> reaches_min args (fst (corpus s)) w = false)
   /\ readFromFile (Dictionary_new args) s = Err ExitFailure)
  \/ exists d',
       readFromFile (Dictionary_new args) s = Ok (d', snd (corpus s))
       /\ store_ok d'
       /\ args_ d' = args
       /\ ntokens_ d' = Z.of_nat (length (fst (corpus s)))
       /\ (forall e, e ∈ words_ d' ->
             word e ∈ fst (corpus s)
             /\ reaches_min args (fst (corpus s)) (word e) = true
             /\ count e = occurrences (word e) (fst (corpus s))
             /\ type e = token_type args (word e))
       /\ (forall w, w ∈ fst (corpus s) ->
             reaches_min args (fst (corpus s)) w = true ->
             exists e, e ∈ words_ d' /\ word e = w)
       /\ (forall p e, words_ d' !! p = Some e ->
             subwords e
             = Z.of_nat p :: computeNgrams d' (BOW ++ word e ++ EOW) [])
       /\ length (pdiscard_ d') = length (words_ d').
Proof.
  unfold corpus. destruct (read_all (S (length (after s))) s) as [toks s_end] eqn:Hread.
  cbn [fst snd]. intros Hcap Hlen.
  destruct (readFromFile_loop_spec args (S (length (after s))) s
              (Dictionary_new args) [] 1 toks s_end (counted_new args))
    as (d1 & Hrun & Hc1); [lia | done | done | done |].
  cbn [app] in Hc1.
  pose proof (ct_inv _ _ _ Hc1) as Hinv1.
  pose proof (counted_size _ _ _ Hc1) as Hsz1.
  destruct (threshold_store_ok capacity d1 (minCount (args_ d1))
              (minCountLabel (args_ d1)))
    as (d2 & Hth & Hok2 & Hws2 & Hargs2 & Hnt2 & _).
  { apply (di_nodup _ Hinv1). }
  { apply (ok_length _ _ _ (proj1 (di_index _ Hinv1))). }
  { lia. }
  rewrite (ct_args _ _ _ Hc1) in Hth, Hws2.
  pose proof (di_size _ (so_inv _ Hok2)) as Hsize2.
  pose proof (so_cap _ Hok2) as Hcap2.
  assert (Hlt2 : Z.of_nat (length (words_ d2)) < 2^31) by lia.
  pose proof (initTableDiscard_run d2 Hsize2 Hlt2) as Hr3.
  set (pd := map _ (words_ d2)) in Hr3.
  destruct (initNgrams_run (set_pdiscard_ pd d2) Hsize2 Hlt2)
    as (ws & Hr4 & Hl4 & Hmap4 & Hcell4).
  cbn [words_ set_pdiscard_] in Hl4, Hmap4, Hcell4.
  assert (Hcells : forall p e, ws !! p = Some e ->
            exists e0, words_ d2 !! p = Some e0 /\ triple e = triple e0
              /\ subwords e
                 = subwords e0 ++ Z.of_nat p
                     :: computeNgrams (set_pdiscard_ pd d2) (BOW ++ word e0 ++ EOW) []).
  { intros p e He.
    destruct (lookup_lt_is_Some_2 (words_ d2) p) as [e0 He0].
    { apply lookup_lt_Some in He. lia. }
    rewrite (Hcell4 p e0 He0) in He. inversion He; subst e. eauto. }
  assert (Htriple : map triple ws = map triple (words_ d2)).
  { apply list_eq. intros p. change (map triple ?l) with (triple <$> l).
    rewrite !list_lookup_fmap. destruct (words_ d2 !! p) as [e0|] eqn:He0.
    - rewrite (Hcell4 p e0 He0). done.
    - rewrite (lookup_ge_None_2 ws p); [done|].
      apply lookup_ge_None_1 in He0. lia. }
  assert (Hmem2 : forall e0, e0 ∈ words_ d2 <->
            e0 ∈ words_ d1 /\ reaches_min args toks (word e0) = true).
  { intros e0. rewrite Hws2, threshold_store_elem. split.
    - intros [Hin Hb]. split; [done|].
      destruct (ct_entry _ _ _ Hc1 e0 Hin) as (_ & G2 & G3 & _).
      rewrite (below_threshold_reaches_min args toks e0 G2 G3) in Hb.
      by apply negb_false_iff in Hb.
    - intros [Hin Hr]. split; [done|].
      destruct (ct_entry _ _ _ Hc1 e0 Hin) as (_ & G2 & G3 & _).
      rewrite (below_threshold_reaches_min args toks e0 G2 G3), Hr. done. }
  assert (Hfinal : readFromFile (Dictionary_new args) s
                   = if size_ d2 =? 0 then Err ExitFailure
                     else Ok (set_words_ ws (set_pdiscard_ pd d2), s_end)).
  { unfold readFromFile. rewrite Hrun. cbn [bind].
    rewrite (ct_args _ _ _ Hc1), Hth. cbn [bind]. rewrite Hr3. cbn [bind].
    rewrite Hr4. cbn [bind]. done. }
  rewrite Hfinal. destruct (Z.eqb_spec (size_ d2) 0) as [Hz | Hnz].
  - left. split; [|done]. intros w Hw.
    destruct (reaches_min args toks w) eqn:Hr; [|done]. exfalso.
    destruct (ct_seen _ _ _ Hc1 w Hw) as (e & He & Hwe).
    assert (e ∈ words_ d2) as Hin by (apply Hmem2; by rewrite Hwe).
    apply list_elem_of_lookup in Hin as [p Hp]. apply lookup_lt_Some in Hp. lia.
  - right. eexists. split; [reflexivity|].
    split; [by apply store_ok_same_triples|].
    cbn [args_ ntokens_ words_ pdiscard_ set_words_ set_pdiscard_].
    split; [by rewrite Hargs2, (ct_args _ _ _ Hc1)|].
    split; [by rewrite Hnt2, (ct_ntokens _ _ _ Hc1)|].
    split.
    { intros e He. apply list_elem_of_lookup in He as [p Hp].
      destruct (Hcells p e Hp) as (e0 & He0 & Ht & _).
      inversion Ht as [[A1 A2 A3]]. rewrite A1, A2, A3.
      assert (Hin0 : e0 ∈ words_ d2) by (apply list_elem_of_lookup; eauto).
      apply Hmem2 in Hin0 as [Hin1 Hr].
      destruct (ct_entry _ _ _ Hc1 e0 Hin1) as (G1 & G2 & G3 & _). done. }
    split.
    { intros w Hw Hr. destruct (ct_seen _ _ _ Hc1 w Hw) as (e0 & He0 & Hwe).
      assert (e0 ∈ words_ d2) as Hin by (apply Hmem2; by rewrite Hwe).
      apply list_elem_of_lookup in Hin as [p Hp].
      eexists. split.
      - apply list_elem_of_lookup. exists p. apply (Hcell4 p e0 Hp).
      - done. }
    split.
    { intros p e Hp. destruct (Hcells p e Hp) as (e0 & He0 & Ht & Hsub).
      assert (Hin0 : e0 ∈ words_ d2) by (apply list_elem_of_lookup; eauto).
      apply Hmem2 in Hin0 as [Hin1 _].
      destruct (ct_entry _ _ _ Hc1 e0 Hin1) as (_ & _ & _ & G4).
      rewrite Hsub, G4. cbn [app]. inversion Ht as [[A1 A2 A3]]. rewrite A1.
      f_equal. apply computeNgrams_ext; reflexivity. }
    unfold pd. rewrite length_map. lia.
Qed.


End Corpus.

Section CorpusExamples.
#[local] Existing Instance small_constants.


End CorpusExamples.

Section CountsAndLabels.
Context {P : Platform} {C : Constants}.
Hypothesis capacity : 0 < MAX_VOCAB_SIZE < 2^31.

(** ** Counts and labels *)

Lemma filter_type_sorted ty l :
  grouped_sorted l ->
  StronglySorted (fun a b => b <= a)
    (map count (List.filter (fun w => bool_decide (type w = ty)) l)).
Proof.
  intros Hg. apply grouped_sorted_StronglySorted in Hg.
  induction Hg as [|e l Hl IH Hall]; [constructor|].
  cbn [List.filter]. destruct (bool_decide (type e = ty)) eqn:He; [|done].
  apply bool_decide_eq_true in He. cbn [map]. constructor; [done|].
  apply Forall_forall. intros c Hc.
  apply list_elem_of_fmap in Hc as (e' & -> & Hin).
  apply list_elem_of_In, filter_In in Hin as [Hin Hty].
  apply bool_decide_eq_true in Hty.
  rewrite Forall_forall in Hall. apply list_elem_of_In in Hin.
  destruct (Hall e' Hin) as [_ Hcount]. apply Hcount. congruence.
Qed.

(** X21.  On a dictionary as [threshold] leaves it, [getCounts] of a type
    has one count per entry of that type ([nwords_] for words, [nlabels_] for
    labels), in the order of the ids and never increasing; the counts of the
    words followed by the counts of the labels are the counts of all
    entries in id order. *)
Theorem getCounts_sorted (d : Dictionary) :
  store_ok d ->
  Z.of_nat (length (getCounts d entry_type.word)) = nwords_ d
  /\ Z.of_nat (length (getCounts d entry_type.label)) = nlabels_ d
  /\ (forall ty, StronglySorted (fun a b => b <= a) (getCounts d ty))
  /\ getCounts d entry_type.word ++ getCounts d entry_type.label
     = map count (words_ d).
Proof.
  clear capacity. intros Hok. unfold getCounts.
  split; [rewrite length_map, (so_nwords _ Hok); done|].
  split; [rewrite length_map, (so_nlabels _ Hok); done|].
  split; [intros ty; apply filter_type_sorted, (so_order _ Hok)|].
  pose proof (grouped_position _ (so_order _ Hok)) as Hpos.
  set (n := count_type entry_type.word (words_ d)) in *.
  rewrite <- map_app. f_equal.
  rewrite <- (take_drop (Z.to_nat n) (words_ d)) at 3.
  f_equal.
  - rewrite <- (take_drop (Z.to_nat n) (words_ d)) at 1.
    rewrite List.filter_app.
    rewrite (filter_all _ (take (Z.to_nat n) (words_ d))).
    + rewrite (filter_none _ (drop (Z.to_nat n) (words_ d))); [by rewrite app_nil_r|].
      intros e He. apply list_elem_of_In, list_elem_of_lookup in He as [i Hi].
      rewrite lookup_drop in Hi. apply bool_decide_eq_false_2. intros Hty.
      apply (Hpos _ e Hi) in Hty. lia.
    + intros e He. apply list_elem_of_In, list_elem_of_lookup in He as [i Hi].
      apply lookup_take_Some in Hi as [Hi Hlt]. apply bool_decide_eq_true_2.
      apply (Hpos _ e Hi). lia.
  - rewrite <- (take_drop (Z.to_nat n) (words_ d)) at 1.
    rewrite List.filter_app.
    rewrite (filter_none _ (take (Z.to_nat n) (words_ d))).
    + rewrite (filter_all _ (drop (Z.to_nat n) (words_ d))); [done|].
      intros e He. apply list_elem_of_In, list_elem_of_lookup in He as [i Hi].
      rewrite lookup_drop in Hi. apply bool_decide_eq_true_2.
      destruct (type e) eqn:Hty; [|done].
      apply (Hpos _ e Hi) in Hty. lia.
    + intros e He. apply list_elem_of_In, list_elem_of_lookup in He as [i Hi].
      apply lookup_take_Some in Hi as [Hi Hlt]. apply bool_decide_eq_false_2.
      intros Hty. assert (type e = entry_type.word) as Hw by (apply (Hpos _ e Hi); lia).
      congruence.
Qed.

(** X22.  [getLabel] inverts the label ids that [getLine] hands out: on a
    dictionary as [threshold] leaves it, a token that is a label of the
    vocabulary has a label id [lid] with [0 <= lid < nlabels_], and
    [getLabel lid] is the token; [getLabel] fails its assertion for any
    other argument. *)
Theorem getLabel_label_id (d : Dictionary) :
  store_ok d ->
  (forall tok lid, label_id d tok = Some lid ->
     0 <= lid < nlabels_ d /\ getLabel d lid = Ok tok)
  /\ (forall lid, 0 <= lid < nlabels_ d ->
        exists tok, getLabel d lid = Ok tok /\ label_id d tok = Some lid)
  /\ (forall lid, ~ 0 <= lid < nlabels_ d -> getLabel d lid = Err AssertionFailed).
Proof.
  intros Hok.
  pose proof (grouped_position _ (so_order _ Hok)) as Hpos.
  pose proof (so_nwords _ Hok) as Hnw. pose proof (so_nlabels _ Hok) as Hnl.
  pose proof (count_type_total (words_ d)) as Htot.
  pose proof (count_type_bound entry_type.word (words_ d)) as Hbw.
  pose proof (count_type_bound entry_type.label (words_ d)) as Hbl.
  pose proof (so_cap _ Hok) as Hcap.
  assert (Hget : forall i e, words_ d !! i = Some e -> type e = entry_type.label ->
            0 <= Z.of_nat i - nwords_ d < nlabels_ d
            /\ getLabel d (Z.of_nat i - nwords_ d) = Ok (word e)).
  { intros i e He Hty. pose proof (lookup_lt_Some _ _ _ He) as Hi.
    assert (nwords_ d <= Z.of_nat i).
    { destruct (Z.lt_ge_cases (Z.of_nat i) (nwords_ d)) as [Hlt|]; [|lia].
      rewrite Hnw in Hlt. apply (Hpos _ e He) in Hlt. congruence. }
    split; [lia|]. unfold getLabel.
    destruct (Z.leb_spec 0 (Z.of_nat i - nwords_ d)); [|lia].
    destruct (Z.ltb_spec (Z.of_nat i - nwords_ d) (nlabels_ d)); [|lia].
    cbn [assert bind].
    replace (Z.of_nat i - nwords_ d + nwords_ d) with (Z.of_nat i) by lia.
    rewrite int32_id by lia.
    rewrite (at_index_nat _ _ _ He). done. }
  split; [|split].
  - intros tok lid Hlid. unfold label_id, vocab_entry in Hlid.
    destruct (list_find _ _) as [[i e]|] eqn:Hf; [|done].
    apply list_find_Some in Hf as (He & Hw & _).
    destruct (decide (type e = entry_type.label)) as [Hty|]; [|done].
    inversion Hlid; subst lid. rewrite <- Hw. by apply Hget.
  - intros lid Hlid.
    destruct (lookup_lt_is_Some_2 (words_ d) (Z.to_nat (lid + nwords_ d)))
      as [e He]; [lia|].
    assert (Hty : type e = entry_type.label).
    { destruct (type e) eqn:Hty; [|done]. apply (Hpos _ e He) in Hty. lia. }
    destruct (Hget _ e He Hty) as [_ Hg].
    replace (Z.of_nat (Z.to_nat (lid + nwords_ d)) - nwords_ d) with lid in Hg by lia.
    exists (word e). split; [done|]. unfold label_id, vocab_entry.
    destruct (list_find _ _) as [[i e']|] eqn:Hf.
    + apply list_find_Some in Hf as (He' & Hw & _).
      assert (i = Z.to_nat (lid + nwords_ d)).
      { eapply (NoDup_map_lookup word);
          [apply (di_nodup _ (so_inv _ Hok)) | done..]. }
      subst i. rewrite He in He'. inversion He'; subst e'.
      rewrite decide_True by done. f_equal. lia.
    + apply list_find_None in Hf. rewrite Forall_forall in Hf.
      exfalso. apply (Hf e); [|done]. apply list_elem_of_lookup. eauto.
  - intros lid Hlid. unfold getLabel.
    destruct (Z.leb_spec 0 lid); [|done].
    destruct (Z.ltb_spec lid (nlabels_ d)); [lia | done].
Qed.

End CountsAndLabels.

Section QuantizationMap.
Context {P : Platform} {C : Constants}.


(** ** The quantization map *)

Lemma most_frequent_empty `{!PlatformLaws P} : most_frequent ∅ = None.
Proof.
  unfold most_frequent.
  pose proof (umap_iter_perm (∅ : gmap Z Z)) as Hperm.
  rewrite map_to_list_empty in Hperm. apply Permutation_nil_r in Hperm.
  rewrite Hperm. done.
Qed.

Lemma assign_loop_unseen `{!PlatformLaws P} d cmap it : forall ngramidx q sz rem,
  it ∈ ngramidx -> default ∅ (cmap !! it) = ∅ ->
  assign_loop d cmap ngramidx q sz rem = Err UninitRead.
Proof.
  induction ngramidx as [|x ngramidx IH]; intros q sz rem Hin Hempty.
  { by apply elem_of_nil in Hin. }
  cbn [assign_loop]. destruct (decide (x = it)) as [->|Hne].
  { rewrite Hempty, most_frequent_empty. done. }
  apply elem_of_cons in Hin as [Hin | Hin]; [congruence|].
  destruct (most_frequent (default ∅ (cmap !! x))) as [newhash|]; [|done].
  destruct (q !! int32 (newhash - nwords_ d)); by apply IH.
Qed.

(** X23.  [convertNgrams] needs every selected n-gram id to occur in the
    corpus: an id whose tally is still empty after the replay leaves the
    local [newhash] unassigned, and the function reads it.  Without an input
    file it exits. *)
Theorem convertNgrams_unseen `{!PlatformLaws P} (d : Dictionary)
    (content : list ascii) (ngramidx : list Z) (cmap : gmap Z (gmap Z Z))
    (it : Z) :
  replay_loop (S (length content)) d (open_stream content) minstd_rand_default
    (fold_left (fun m it => <[it := ∅]> m) ngramidx ∅) = Ok cmap ->
  it ∈ ngramidx -> cmap !! it = Some ∅ ->
  convertNgrams d (Some content) ngramidx = Err UninitRead
  /\ convertNgrams d None ngramidx = Err ExitFailure.
Proof.
  intros Hrun Hin Hempty. split; [|done].
  unfold convertNgrams. rewrite Hrun. cbn [bind].
  rewrite (assign_loop_unseen d cmap it); [done | done |]. by rewrite Hempty.
Qed.

Lemma compact_insert q n k :
  compact q n -> q !! k = None -> compact (<[k := Z.of_nat n]> q) (S n).
Proof.
  intros (Hs & Hv & Hk) Hnone. split; [|split].
  - rewrite map_size_insert_None by done. lia.
  - intros k' v Hl. destruct (decide (k' = k)) as [->|Hne].
    + rewrite lookup_insert_eq in Hl. inversion Hl. lia.
    + rewrite lookup_insert_ne in Hl by done. specialize (Hv _ _ Hl). lia.
  - intros v Hr. destruct (decide (v = Z.of_nat n)) as [->|Hne].
    + exists k. by rewrite lookup_insert_eq.
    + destruct (Hk v) as [k' Hk']; [lia|]. exists k'.
      rewrite lookup_insert_ne; [done|]. intros ->. congruence.
Qed.

Lemma assign_loop_compact d cmap : forall ngramidx q sz rem q' rem',
  assign_loop d cmap ngramidx q sz rem = Ok (q', rem') ->
  sz = Z.of_nat (length rem) -> compact q (length rem) ->
  Z.of_nat (length rem + length ngramidx) < 2^31 ->
  exists rem2, rem' = rem ++ rem2 /\ rem2 `sublist_of` ngramidx
    /\ compact q' (length rem').
Proof.
  induction ngramidx as [|x ngramidx IH]; intros q sz rem q' rem' Hrun Hsz Hc Hlen.
  { inversion Hrun; subst. exists []. rewrite app_nil_r. done. }
  cbn [assign_loop] in Hrun. cbn [length] in Hlen.
  destruct (most_frequent (default ∅ (cmap !! x))) as [newhash|]; [|done].
  destruct (q !! int32 (newhash - nwords_ d)) eqn:Hq.
  - destruct (IH _ _ _ _ _ Hrun Hsz Hc) as (rem2 & -> & Hsub & Hc'); [lia|].
    exists rem2. split; [done|]. split; [by apply sublist_cons | done].
  - rewrite (int32_id (sz + 1)) in Hrun by lia.
    destruct (IH _ _ _ _ _ Hrun) as (rem2 & -> & Hsub & Hc').
    + rewrite length_app. cbn [length]. lia.
    + rewrite length_app. cbn [length]. rewrite Nat.add_1_r. subst sz.
      by apply compact_insert.
    + rewrite length_app. cbn [length]. lia.
    + exists (x :: rem2). split; [by rewrite <- app_assoc|].
      split; [by apply sublist_skip | done].
Qed.

(** X24.  When [convertNgrams] returns, the ids it keeps are a subsequence
    of the ids it was given, one for each key of the new quantization map,
    and the map numbers its keys 0, 1, ..., [k - 1] without gaps; nothing
    else of the dictionary changes. *)
Theorem convertNgrams_compact (d d' : Dictionary) (input : option (list ascii))
    (ngramidx remaining : list Z) :
  Z.of_nat (length ngramidx) < 2^31 ->
  convertNgrams d input ngramidx = Ok (d', remaining) ->
  remaining `sublist_of` ngramidx
  /\ compact (quantidx_ d') (length remaining)
  /\ d' = set_quantidx_ (quantidx_ d') d.
Proof.
  intros Hlen Hrun. unfold convertNgrams in Hrun.
  destruct input as [content|]; [|done].
  apply bind_Ok in Hrun as (cmap & _ & Hrun).
  apply bind_Ok in Hrun as ([q rem] & Hassign & Hrun).
  inversion Hrun; subst d' remaining. clear Hrun.
  destruct (assign_loop_compact d cmap ngramidx ∅ 0 [] q rem Hassign)
    as (rem2 & Hrem & Hsub & Hc).
  - done.
  - split; [done|]. split.
    + intros k v Hl. by rewrite lookup_empty in Hl.
    + intros v Hv. cbn in Hv. lia.
  - cbn [length]. lia.
  - cbn [app] in Hrem. subst rem2. done.
Qed.

End QuantizationMap.

Section MoreExamples.
#[local] Existing Instance small_constants.

Lemma getCounts_sorted_witness :
  let d := demo_dict in
  store_ok d
  /\ Z.of_nat (length (getCounts d entry_type.word)) = nwords_ d
  /\ Z.of_nat (length (getCounts d entry_type.label)) = nlabels_ d
  /\ (forall ty, StronglySorted (fun a b => b <= a) (getCounts d ty))
  /\ getCounts d entry_type.word ++ getCounts d entry_type.label
     = map count (words_ d).
Proof.
  split; [exact demo_dict_ok|]. apply (getCounts_sorted demo_dict demo_dict_ok).
Defined.

Lemma getLabel_label_id_witness :
  let d := demo_dict in
  store_ok d
  /\ (forall tok lid, label_id d tok = Some lid ->
        0 <= lid < nlabels_ d /\ getLabel d lid = Ok tok)
  /\ (forall lid, 0 <= lid < nlabels_ d ->
        exists tok, getLabel d lid = Ok tok /\ label_id d tok = Some lid)
  /\ (forall lid, ~ 0 <= lid < nlabels_ d -> getLabel d lid = Err AssertionFailed).
Proof.
  split; [exact demo_dict_ok|].
  apply (getLabel_label_id small_capacity demo_dict demo_dict_ok).
Defined.

Lemma convertNgrams_unseen_witness :
  let d := quant_dict in
  let cmap : gmap Z (gmap Z Z) := <[3 := ∅]> ∅ in
  replay_loop (S (length (@nil ascii))) d (open_stream []) minstd_rand_default
    (fold_left (fun m it => <[it := ∅]> m) [3] ∅) = Ok cmap
  /\ 3 ∈ [3] /\ cmap !! 3 = Some ∅
  /\ convertNgrams d (Some []) [3] = Err UninitRead
  /\ convertNgrams d None [3] = Err ExitFailure.
Proof.
  assert (H1 : replay_loop (S (length (@nil ascii))) quant_dict (open_stream [])
                 minstd_rand_default
                 (fold_left (fun m it => <[it := ∅]> m) [3] ∅)
               = Ok (<[3 := ∅]> ∅)) by reflexivity.
  assert (H2 : 3 ∈ [3]) by (apply list_elem_of_singleton; reflexivity).
  assert (H3 : (<[3 := ∅]> ∅ : gmap Z (gmap Z Z)) !! 3 = Some ∅)
    by apply lookup_insert_eq.
  split; [exact H1|]. split; [exact H2|]. split; [exact H3|].
  apply (convertNgrams_unseen quant_dict [] [3] (<[3 := ∅]> ∅) 3 H1 H2 H3).
Defined.

Lemma convertNgrams_compact_witness :
  let d := quant_dict in
  let d' := fst quant_converted in
  let remaining := snd quant_converted in
  Z.of_nat (length [3]) < 2^31
  /\ convertNgrams d (Some quant_corpus) [3] = Ok (d', remaining)
  /\ remaining `sublist_of` [3]
  /\ compact (quantidx_ d') (length remaining)
  /\ d' = set_quantidx_ (quantidx_ d') d.
Proof.
  assert (H1 : Z.of_nat (length [3]) < 2^31) by reflexivity.
  assert (H2 : convertNgrams quant_dict (Some quant_corpus) [3]
               = Ok (fst quant_converted, snd quant_converted)) by reflexivity.
  split; [exact H1|]. split; [exact H2|].
  apply (convertNgrams_compact quant_dict (fst quant_converted)
           (Some quant_corpus) [3] (snd quant_converted) H1 H2).
Defined.

End MoreExamples.

Section PruneLookup.
Context {P : Platform} {C : Constants}.
Hypothesis capacity : 0 < MAX_VOCAB_SIZE < 2^31.

(** ** Pruning and lookups *)

Lemma select_from_elem W l : forall i0 e,
  e ∈ select_from i0 W l
  <-> exists j, l !! j = Some e
        /\ (type e = entry_type.label \/ Z.of_nat (i0 + j) ∈ W).
Proof.
  induction l as [|a l IH]; intros i0 e.
  { cbn. split; [intros H; by apply elem_of_nil in H | intros (j & Hj & _); done]. }
  cbn [select_from].
  assert (Hhead : bool_decide (type a = entry_type.label) || bool_decide (Z.of_nat i0 ∈ W) = true
                  <-> (type a = entry_type.label \/ Z.of_nat i0 ∈ W)).
  { rewrite orb_true_iff, !bool_decide_eq_true. done. }
  destruct (bool_decide (type a = entry_type.label) || bool_decide (Z.of_nat i0 ∈ W)) eqn:Hb.
  - rewrite elem_of_cons, IH. split.
    + intros [-> | (j & Hj & Hc)].
      * exists 0%nat. split; [done|]. rewrite Nat.add_0_r. by apply Hhead.
      * exists (S j). split; [done|]. by replace (i0 + S j)%nat with (S i0 + j)%nat by lia.
    + intros ([|j] & Hj & Hc).
      * left. cbn in Hj. congruence.
      * right. exists j. split; [done|].
        by replace (S i0 + j)%nat with (i0 + S j)%nat by lia.
  - rewrite IH. split.
    + intros (j & Hj & Hc). exists (S j). split; [done|].
      by replace (i0 + S j)%nat with (S i0 + j)%nat by lia.
    + intros ([|j] & Hj & Hc).
      * cbn in Hj. inversion Hj; subst a. rewrite Nat.add_0_r in Hc.
        apply Hhead in Hc. congruence.
      * exists j. split; [done|].
        by replace (S i0 + j)%nat with (i0 + S j)%nat by lia.
Qed.

Lemma prune_words_elem d idx x :
  x ∈ prune_words d idx <-> x ∈ idx /\ x < nwords_ d.
Proof.
  unfold prune_words. rewrite merge_sort_Permutation.
  rewrite list_elem_of_In, filter_In, <- list_elem_of_In, Z.ltb_lt. done.
Qed.

(** X25.  [prune] with word ids only (distinct, non-negative) keeps every
    label and exactly the words whose id is selected, in their old order.
    Afterwards [getId] returns for every kept entry its new position, and -1
    for every removed word (as long as the kept entries do not fill the
    table); the returned ids are the selected ids in increasing order. *)
Theorem prune_then_getId (d : Dictionary) (input : option (list ascii))
    (idx : list Z) :
  store_ok d ->
  NoDup idx -> (forall x, x ∈ idx -> 0 <= x < nwords_ d) ->
  exists d',
    prune d input idx = Ok (d', merge_sort Z.le idx)
    /\ (forall e, e ∈ words_ d' <->
          exists i, words_ d !! i = Some e
            /\ (type e = entry_type.label \/ Z.of_nat i ∈ idx))
    /\ words_ d' `sublist_of` words_ d
    /\ (forall p e, words_ d' !! p = Some e -> getId d' (word e) = Ok (Z.of_nat p))
    /\ (Z.of_nat (length (words_ d')) < MAX_VOCAB_SIZE ->
        forall i e, words_ d !! i = Some e -> type e = entry_type.word ->
          Z.of_nat i ∉ idx -> getId d' (word e) = Ok (-1))
    /\ nwords_ d' = Z.of_nat (length idx) /\ nlabels_ d' = nlabels_ d.
Proof.
  intros Hok Hnd Hrange.
  assert (Hfilter : List.filter (fun it => it <? nwords_ d) idx = idx).
  { apply filter_all. intros x Hx. apply Z.ltb_lt. apply Hrange.
    by apply list_elem_of_In. }
  assert (Hng : prune_ngrams d idx = []).
  { unfold prune_ngrams. apply filter_none. intros x Hx.
    apply negb_false_iff, Z.ltb_lt. apply Hrange. by apply list_elem_of_In. }
  assert (Hpw : prune_words d idx = merge_sort Z.le idx).
  { unfold prune_words. by rewrite Hfilter. }
  destruct (prune_spec capacity d input idx (quantidx_ d) [] Hok)
    as (d' & Hrun & Hws & Hnw & Hnl & _ & _ & _ & Hok').
  { by rewrite Hfilter. }
  { intros x Hx. apply Hrange in Hx. lia. }
  { left. done. }
  rewrite app_nil_r, Hpw in Hrun.
  pose proof (so_inv _ Hok') as Hinv'.
  assert (Hmem : forall e, e ∈ words_ d' <->
            exists i, words_ d !! i = Some e
              /\ (type e = entry_type.label \/ Z.of_nat i ∈ idx)).
  { intros e. rewrite Hws, select_from_elem. split.
    - intros (j & Hj & Hc). exists j. split; [done|].
      destruct Hc as [Hc | Hc]; [by left|]. right.
      apply prune_words_elem in Hc as [Hc _]. done.
    - intros (j & Hj & Hc). exists j. split; [done|].
      destruct Hc as [Hc | Hc]; [by left|]. right.
      apply prune_words_elem. split; [done|]. by apply Hrange. }
  exists d'. split; [exact Hrun|]. split; [exact Hmem|].
  split; [rewrite Hws; apply select_from_sublist|].
  split; [intros p e Hp; by apply getId_found|].
  split.
  - intros Hroom i e Hi Hty Hout. apply getId_missing; [done..|].
    intros e' Hin' Hw. apply Hmem in Hin' as (i' & Hi' & Hc).
    assert (i' = i).
    { eapply (NoDup_map_lookup word);
        [apply (di_nodup _ (so_inv _ Hok)) | done..]. }
    subst i'. rewrite Hi in Hi'. inversion Hi'; subst e'.
    destruct Hc as [Hc | Hc]; [congruence | done].
  - split; [|done]. rewrite Hnw, Hpw.
    by rewrite (Permutation_length (merge_sort_Permutation Z.le idx)).
Qed.

End PruneLookup.

Section PruneLookupExamples.
#[local] Existing Instance small_constants.

Lemma prune_then_getId_witness :
  let d := demo_dict in
  let idx := [2; 0] in
  store_ok d /\ NoDup idx /\ (forall x, x ∈ idx -> 0 <= x < nwords_ d)
  /\ exists d',
    prune d None idx = Ok (d', merge_sort Z.le idx)
    /\ (forall e, e ∈ words_ d' <->
          exists i, words_ d !! i = Some e
            /\ (type e = entry_type.label \/ Z.of_nat i ∈ idx))
    /\ words_ d' `sublist_of` words_ d
    /\ (forall p e, words_ d' !! p = Some e -> getId d' (word e) = Ok (Z.of_nat p))
    /\ (Z.of_nat (length (words_ d')) < MAX_VOCAB_SIZE ->
        forall i e, words_ d !! i = Some e -> type e = entry_type.word ->
          Z.of_nat i ∉ idx -> getId d' (word e) = Ok (-1))
    /\ nwords_ d' = Z.of_nat (length idx) /\ nlabels_ d' = nlabels_ d.
Proof.
  assert (H2 : NoDup [2; 0]).
  { apply NoDup_cons. split; [|apply NoDup_singleton].
    intros H. apply list_elem_of_singleton in H. discriminate. }
  assert (H3 : forall x, x ∈ [2; 0] -> 0 <= x < nwords_ demo_dict).
  { intros x Hx. change (nwords_ demo_dict) with 3.
    apply elem_of_cons in Hx as [-> | Hx]; [lia|].
    apply list_elem_of_singleton in Hx. subst x. lia. }
  split; [exact demo_dict_ok|]. split; [exact H2|]. split; [exact H3|].
  apply (prune_then_getId small_capacity demo_dict None [2; 0] demo_dict_ok H2 H3).
Defined.

End PruneLookupExamples.

Section Replay.
Context {P : Platform} {C : Constants}.
Hypothesis capacity : 0 < MAX_VOCAB_SIZE < 2^31.

(** ** Replaying the corpus *)

Lemma grams_from_length n l :
  length (grams_from n l) = (Nat.min (Z.to_nat n) (length l) - 1)%nat.
Proof. unfold grams_from. by rewrite length_map, length_seq. Qed.

Lemma word_ngrams_length_eq n l1 : forall l2,
  length l1 = length l2 ->
  length (word_ngrams n l1) = length (word_ngrams n l2).
Proof.
  induction l1 as [|x l1 IH]; intros [|y l2] Hlen; try done.
  cbn [word_ngrams]. rewrite !length_app, !grams_from_length.
  cbn [length] in *. rewrite (IH l2) by lia. lia.
Qed.

Lemma word_ngrams_length_grow n pre : forall l,
  2 <= n -> pre <> [] -> l <> [] ->
  (length (word_ngrams n l) < length (word_ngrams n (pre ++ l)))%nat.
Proof.
  induction pre as [|x pre IH]; intros l Hn Hpre Hl; [done|].
  cbn [app word_ngrams]. rewrite length_app, grams_from_length.
  destruct pre as [|y pre].
  - cbn [app length]. destruct l as [|z l]; [done|]. cbn [length]. lia.
  - specialize (IH l Hn ltac:(done) Hl). lia.
Qed.

Lemma word_ngrams_length_lt n l1 l2 :
  2 <= n -> (0 < length l1 < length l2)%nat ->
  (length (word_ngrams n l1) < length (word_ngrams n l2))%nat.
Proof.
  intros Hn Hlen.
  rewrite <- (take_drop (length l2 - length l1) l2).
  rewrite (word_ngrams_length_eq n l1 (drop (length l2 - length l1) l2))
    by (rewrite length_drop; lia).
  apply word_ngrams_length_grow; [done | |].
  - intros H. apply (f_equal length) in H. rewrite length_take in H. cbn in H. lia.
  - intros H. apply (f_equal length) in H. rewrite length_drop in H. cbn in H. lia.
Qed.

Lemma wordngram_id_unquantized d l :
  quantidx_ d = ∅ ->
  length (omap (wordngram_id d) l) = length l.
Proof.
  intros Hq. induction l as [|g l IH]; [done|]. cbn [omap list_omap].
  unfold wordngram_id at 1. rewrite decide_True by done. cbn [length]. by rewrite IH.
Qed.

Lemma token_hash_length d tokens :
  length (omap (token_hash d) tokens)
  = (length (omap (word_id d) tokens)
     + length (List.filter (fun t => negb (in_vocab d t)) tokens))%nat.
Proof.
  induction tokens as [|t tokens IH]; [done|].
  cbn [omap list_omap List.filter]. unfold token_hash at 1, word_id at 1, in_vocab at 1.
  destruct (vocab_entry d t) as [[i e]|].
  - rewrite bool_decide_eq_true_2 by eauto. cbn [negb].
    destruct (decide (type e = entry_type.word)); cbn [length]; lia.
  - rewrite bool_decide_eq_false_2 by (intros [? ?]; discriminate).
    cbn [negb length]. lia.
Qed.

(** X26.  The replay in [convertNgrams] cannot cope with tokens that are not
    in the vocabulary.  For a supervised, not yet quantized dictionary with
    word n-grams ([wordNgrams >= 2]): if the first line of the corpus has a
    word of the vocabulary and a token that is out of vocabulary, the
    n-grams over the word ids are fewer than the n-grams over the hashes
    (an out-of-vocabulary token leaves a hash but no id), and the assertion
    [newhashes.size() == oldhashes.size()] fails. *)
Theorem convertNgrams_oov_assertion (d : Dictionary) (content : list ascii)
    (ngramidx : list Z) (s' : istream) (tokens : list str) (n : Z)
    (w oov : str) :
  store_ok d -> Z.of_nat (length (words_ d)) < MAX_VOCAB_SIZE ->
  model (args_ d) = sup -> quantidx_ d = ∅ ->
  2 <= wordNgrams (args_ d) ->
  content <> [] ->
  getLine_tokens d (open_stream content) = Ok (s', tokens, n) ->
  Z.of_nat (length tokens) + wordNgrams (args_ d) < 2^31 ->
  w ∈ tokens -> is_Some (word_id d w) ->
  oov ∈ tokens -> in_vocab d oov = false ->
  convertNgrams d (Some content) ngramidx = Err AssertionFailed.
Proof.
  intros Hok Hroom Hsup Hq Hn Hne Htok Hlen Hw Hwid Hoov Hout.
  destruct (getLine_ids_loop_spec capacity d Hok Hroom
              (fun H => False_ind _ (H Hsup)) tokens empty_line minstd_rand_default)
    as (l & rng' & ws & hs & Hrun & H1 & H2 & H3 & H4 & H5 & H6 & H7);
    [cbn; lia | cbn; lia |].
  cbn in H3, H4. destruct (H7 Hsup) as [-> ->].
  assert (Hwords : (0 < length (omap (word_id d) tokens))%nat).
  { destruct Hwid as [id Hid].
    assert (id ∈ omap (word_id d) tokens) as Hin by (apply list_elem_of_omap; eauto).
    apply list_elem_of_lookup in Hin as [i Hi]. apply lookup_lt_Some in Hi. lia. }
  assert (Hmore : (length (omap (word_id d) tokens)
                   < length (omap (token_hash d) tokens))%nat).
  { rewrite token_hash_length.
    assert (oov ∈ List.filter (fun t => negb (in_vocab d t)) tokens) as Hin.
    { apply list_elem_of_In, filter_In. split; [by apply list_elem_of_In|].
      by rewrite Hout. }
    apply list_elem_of_lookup in Hin as [i Hi]. apply lookup_lt_Some in Hi. lia. }
  pose proof (omap_length_le (word_id d) tokens) as Lw.
  pose proof (omap_length_le (token_hash d) tokens) as Lh.
  unfold convertNgrams. destruct content as [|c content]; [done|].
  cbn [replay_loop length]. unfold istream_peek. cbn [open_stream good after eofbit failbit negb andb].
  unfold getLine_ids. rewrite Htok. cbn [bind]. rewrite Hrun. cbn [bind].
  rewrite H3, H4.
  rewrite bool_decide_eq_false_2.
  2:{ intros Heq. rewrite Heq in Hwords. cbn in Hwords. lia. }
  unfold addNgrams. rewrite !addNgrams_outer_spec by lia. cbn [app].
  rewrite !wordngram_id_unquantized by done.
  rewrite bool_decide_eq_false_2; [done|].
  pose proof (word_ngrams_length_lt (wordNgrams (args_ d))
                (omap (word_id d) tokens) (omap (token_hash d) tokens) Hn).
  lia.
Qed.

End Replay.

Section ReplayExamples.
#[local] Existing Instance small_constants.

Lemma bigram_dict_ok : store_ok bigram_dict.
Proof.
  destruct (add_all_dict_inv small_capacity [lit "c"; lit "a"; EOS; lit "c"]
              (Dictionary_new quant_args) (dict_inv_new _))
    as (d0 & Hd0 & Hinv & _).
  { vm_compute. discriminate. }
  assert (Heq : add_all (Dictionary_new quant_args) [lit "c"; lit "a"; EOS; lit "c"]
                = Ok bigram_ingested) by reflexivity.
  rewrite Heq in Hd0. inversion Hd0 as [Hdd]. rewrite <- Hdd in Hinv.
  destruct (threshold_store_ok small_capacity bigram_ingested 1 1)
    as (d & Hd & Hok & _).
  - apply (di_nodup _ Hinv).
  - reflexivity.
  - vm_compute. discriminate.
  - assert (Heq' : threshold bigram_ingested 1 1 = Ok bigram_dict) by reflexivity.
    rewrite Heq' in Hd. inversion Hd as [Hdd']. rewrite Hdd'. exact Hok.
Qed.

Lemma convertNgrams_oov_assertion_witness :
  let d := bigram_dict in
  let content := lit "c zz a" ++ [newline] in
  let s' := {| before := rev (lit "c zz a" ++ [newline]); after := [];
               eofbit := false; failbit := false |} in
  let tokens := [lit "c"; lit "zz"; lit "a"; EOS] in
  store_ok d /\ Z.of_nat (length (words_ d)) < MAX_VOCAB_SIZE
  /\ model (args_ d) = sup /\ quantidx_ d = ∅
  /\ 2 <= wordNgrams (args_ d)
  /\ content <> []
  /\ getLine_tokens d (open_stream content) = Ok (s', tokens, 4)
  /\ Z.of_nat (length tokens) + wordNgrams (args_ d) < 2^31
  /\ lit "c" ∈ tokens /\ is_Some (word_id d (lit "c"))
  /\ lit "zz" ∈ tokens /\ in_vocab d (lit "zz") = false
  /\ convertNgrams d (Some content) [3] = Err AssertionFailed.
Proof.
  assert (H2 : Z.of_nat (length (words_ bigram_dict)) < MAX_VOCAB_SIZE) by reflexivity.
  assert (H3 : model (args_ bigram_dict) = sup) by reflexivity.
  assert (H4 : quantidx_ bigram_dict = ∅) by reflexivity.
  assert (H5 : 2 <= wordNgrams (args_ bigram_dict)) by (vm_compute; discriminate).
  assert (H6 : lit "c zz a" ++ [newline] <> []) by discriminate.
  assert (H7 : getLine_tokens bigram_dict (open_stream (lit "c zz a" ++ [newline]))
               = Ok ({| before := rev (lit "c zz a" ++ [newline]); after := [];
                        eofbit := false; failbit := false |},
                     [lit "c"; lit "zz"; lit "a"; EOS], 4)) by reflexivity.
  assert (H8 : Z.of_nat (length [lit "c"; lit "zz"; lit "a"; EOS])
               + wordNgrams (args_ bigram_dict) < 2^31) by reflexivity.
  assert (H9 : lit "c" ∈ [lit "c"; lit "zz"; lit "a"; EOS]) by (apply elem_of_cons; left; reflexivity).
  assert (H10 : is_Some (word_id bigram_dict (lit "c"))) by (eexists; reflexivity).
  assert (H11 : lit "zz" ∈ [lit "c"; lit "zz"; lit "a"; EOS])
    by (apply elem_of_cons; right; apply elem_of_cons; left; reflexivity).
  assert (H12 : in_vocab bigram_dict (lit "zz") = false) by reflexivity.
  split; [exact bigram_dict_ok|]. split; [exact H2|]. split; [exact H3|].
  split; [exact H4|]. split; [exact H5|]. split; [exact H6|]. split; [exact H7|].
  split; [exact H8|]. split; [exact H9|]. split; [exact H10|].
  split; [exact H11|]. split; [exact H12|].
  apply (convertNgrams_oov_assertion small_capacity bigram_dict
           (lit "c zz a" ++ [newline]) [3] _ [lit "c"; lit "zz"; lit "a"; EOS] 4
           (lit "c") (lit "zz") bigram_dict_ok H2 H3 H4 H5 H6 H7 H8 H9 H10 H11 H12).
Defined.

End ReplayExamples.

Section Quantized.
Context {P : Platform} {C : Constants}.
(** The store and its index do not depend on the quantization flag and map. *)
Lemma store_ok_quantized (d : Dictionary) (b : bool) (q : gmap Z Z) :
  store_ok d -> store_ok (set_quant_ b (set_quantidx_ q d)).
Proof.
  intros [[Hi Hs Hn] Hc Hw Hl Ho]. split; [split|..]; assumption.
Qed.
End Quantized.

Section QuantizedExamples.
#[local] Existing Instance small_constants.

Lemma bigram_quantized_ok : store_ok bigram_quantized.
Proof.
  change bigram_quantized
    with (set_quant_ true (set_quantidx_ (quantidx_ bigram_quantized) bigram_dict)).
  apply store_ok_quantized. exact bigram_dict_ok.
Qed.


End QuantizedExamples.

Section MostFrequent.
Context {P : Platform} {C : Constants}.

(** ** The most frequent companion *)

Lemma most_frequent_fold (l : list (Z * Z)) : forall best cnt,
  (best = None /\ cnt = -1
   \/ exists k, best = Some k) ->
  let r := fold_left (fun (acc : option Z * Z) (nit : Z * Z) =>
                        if snd acc <? snd nit then (Some (fst nit), snd nit) else acc)
                     l (best, cnt) in
  cnt <= snd r
  /\ (forall k c, (k, c) ∈ l -> c <= snd r)
  /\ (fst r = None -> snd r = -1 /\ best = None)
  /\ (forall k, fst r = Some k -> (best = Some k /\ snd r = cnt) \/ (k, snd r) ∈ l)
  /\ (best = None -> fst r <> None -> cnt < snd r).
Proof.
  induction l as [|[k c] l IH]; intros best cnt Hinit; cbn [fold_left fst snd].
  { split; [lia|]. split; [intros k c H; by apply elem_of_nil in H|].
    split; [intros ->; destruct Hinit as [[_ ->] | [k ?]]; done|].
    split; [intros k ->; by left | intros -> H; done]. }
  destruct (Z.ltb_spec cnt c) as [Hlt | Hge].
  - destruct (IH (Some k) c) as (I1 & I2 & I3 & I4 & I5); [right; eauto|].
    cbn zeta in *. split; [lia|]. split.
    + intros k' c' Hin. apply elem_of_cons in Hin as [Heq | Hin].
      * inversion Heq; subst. lia.
      * by apply (I2 k').
    + split.
      * intros Hnone. destruct (I3 Hnone) as [_ ?]. done.
      * split; [|intros _ _; lia].
        intros k' Hk'. right. destruct (I4 k' Hk') as [[Heq Hs] | Hin].
        -- inversion Heq; subst k'. rewrite Hs. apply elem_of_cons. by left.
        -- apply elem_of_cons. by right.
  - destruct (IH best cnt Hinit) as (I1 & I2 & I3 & I4 & I5).
    cbn zeta in *. split; [lia|]. split.
    + intros k' c' Hin. apply elem_of_cons in Hin as [Heq | Hin].
      * inversion Heq; subst. lia.
      * by apply (I2 k').
    + split; [done|]. split; [|done].
      intros k' Hk'. destruct (I4 k' Hk') as [? | Hin]; [by left|].
      right. apply elem_of_cons. by right.
Qed.

(** X27.  The inner loop of [convertNgrams] picks for an n-gram id a
    companion with the largest count: when some count of the tally is above
    -1 the chosen key is in the tally and no key has a larger count; when
    none is (in particular on an empty tally) nothing is chosen. *)
Theorem most_frequent_argmax `{!PlatformLaws P} (cm : gmap Z Z) :
  match most_frequent cm with
  | Some k => exists c, cm !! k = Some c /\ -1 < c
                /\ forall k' c', cm !! k' = Some c' -> c' <= c
  | None => forall k c, cm !! k = Some c -> c <= -1
  end.
Proof.
  unfold most_frequent.
  pose proof (most_frequent_fold (umap_iter cm) None (-1) (or_introl (conj eq_refl eq_refl)))
    as (I1 & I2 & I3 & I4 & I5).
  cbn zeta in *.
  assert (Hin : forall k c, (k, c) ∈ umap_iter cm <-> cm !! k = Some c).
  { intros k c. rewrite (umap_iter_perm cm). apply elem_of_map_to_list. }
  destruct (fold_left _ (umap_iter cm) (None, -1)) as [[k|] cnt]; cbn [fst snd] in *.
  - destruct (I4 k eq_refl) as [[? _] | Hk]; [done|].
    exists cnt. split; [by apply Hin|]. split.
    + apply I5; done.
    + intros k' c' Hl. apply (I2 k'). by apply Hin.
  - destruct (I3 eq_refl) as [-> _]. intros k c Hl. apply (I2 k). by apply Hin.
Qed.

End MostFrequent.

Section MostFrequentExamples.
Lemma most_frequent_argmax_witness :
  let cm : gmap Z Z := <[5 := 2]> (<[7 := 1]> ∅) in
  match most_frequent (P := reference_platform) cm with
  | Some k => exists c, cm !! k = Some c /\ -1 < c
                /\ forall k' c', cm !! k' = Some c' -> c' <= c
  | None => forall k c, cm !! k = Some c -> c <= -1
  end.
Proof.
  exact (@most_frequent_argmax reference_platform reference_platform_laws
           (<[5 := 2]> (<[7 := 1]> ∅))).
Defined.

End MostFrequentExamples.

Section DiscardTable.
Context {P : Platform} {C : Constants}.

(** ** The discard table *)

(** X28.  [initTableDiscard] fills one cell of the discard table per entry,
    from the entry's own count and the number of tokens, and changes nothing
    else.  Afterwards [discard(id, rand)] on a word id compares [rand] with
    the cell of that word for the unsupervised models and is always false
    for a supervised one; on any id outside [0, nwords_) its assertion
    fails. *)
Theorem discard_after_initTableDiscard (d : Dictionary) :
  size_ d = Z.of_nat (length (words_ d)) ->
  Z.of_nat (length (words_ d)) < 2^31 ->
  exists d',
    initTableDiscard d = Ok d'
    /\ d' = set_pdiscard_ (pdiscard_ d') d
    /\ length (pdiscard_ d') = length (words_ d)
    /\ (forall id e rand,
          words_ d !! id = Some e -> Z.of_nat id < nwords_ d ->
          discard d' (Z.of_nat id) rand
          = Ok (if decide (model (args_ d) = sup) then false
                else real_gt rand
                       (discard_threshold (t (args_ d)) (count e) (ntokens_ d))))
    /\ (forall id rand, ~ 0 <= id < nwords_ d ->
          discard d' id rand = Err AssertionFailed).
Proof.
  intros Hsize Hlen. rewrite (initTableDiscard_run d Hsize Hlen).
  eexists. split; [reflexivity|]. cbn [pdiscard_ set_pdiscard_].
  split; [reflexivity|]. split; [apply length_map|]. split.
  - intros id e rand He Hid. unfold discard. cbn [nwords_ args_ pdiscard_ set_pdiscard_].
    destruct (Z.leb_spec 0 (Z.of_nat id)); [|lia].
    destruct (Z.ltb_spec (Z.of_nat id) (nwords_ d)); [|lia]. cbn [assert bind].
    destruct (decide (model (args_ d) = sup)); [done|].
    rewrite (at_index_nat _ _
               (discard_threshold (t (args_ d)) (count e) (ntokens_ d))); [done|].
    change (map ?f ?l) with (f <$> l). by rewrite list_lookup_fmap, He.
  - intros id rand Hid. unfold discard. cbn [nwords_ set_pdiscard_].
    destruct (Z.leb_spec 0 id); [|done].
    destruct (Z.ltb_spec id (nwords_ d)); [lia | done].
Qed.

End DiscardTable.

Section DiscardTableExamples.
Lemma discard_after_initTableDiscard_witness :
  let d := demo_dict in
  size_ d = Z.of_nat (length (words_ d))
  /\ Z.of_nat (length (words_ d)) < 2^31
  /\ exists d',
    initTableDiscard d = Ok d'
    /\ d' = set_pdiscard_ (pdiscard_ d') d
    /\ length (pdiscard_ d') = length (words_ d)
    /\ (forall id e rand,
          words_ d !! id = Some e -> Z.of_nat id < nwords_ d ->
          discard d' (Z.of_nat id) rand
          = Ok (if decide (model (args_ d) = sup) then false
                else real_gt rand
                       (discard_threshold (t (args_ d)) (count e) (ntokens_ d))))
    /\ (forall id rand, ~ 0 <= id < nwords_ d ->
          discard d' id rand = Err AssertionFailed).
Proof.
  assert (H1 : size_ demo_dict = Z.of_nat (length (words_ demo_dict))) by reflexivity.
  assert (H2 : Z.of_nat (length (words_ demo_dict)) < 2^31) by reflexivity.
  split; [exact H1|]. split; [exact H2|].
  apply (discard_after_initTableDiscard demo_dict H1 H2).
Defined.

End DiscardTableExamples.

Section TokenizerContract.
Context {P : Platform} {C : Constants}.

(** ** What [readWord] guarantees *)

(** C6.  [readWord] never reports an empty token, on any stream, and
    reports no token only with an empty word.  On a stream that begins with
    delimiters [ds] other than the newline (they are skipped, however many
    there are) followed by token bytes [w]:
    - a newline read with no token pending ([w] empty) is consumed and
      yields the end marker "</s>" as a token;
    - a newline read after a pending token is put back (it is the next byte
      to come) and the pending token is returned; the call after that
      returns the end marker;
    - another delimiter after a pending token is consumed and the token
      returned;
    - at the end of the stream a pending token is still returned, once: the
      next call reports no token;
    - at the end of the stream with no token pending [readWord] reports no
      token. *)
Theorem readWord_contract (s : istream) (ds w rest : list ascii) :
  Forall blank ds -> Forall plain w ->
  (forall b s' tok, readWord s = (b, s', tok) ->
     (b = true -> tok <> []) /\ (b = false -> tok = []))
  /\ (after s = ds ++ newline :: rest ->
      exists s1, readWord s = (true, s1, EOS) /\ after s1 = rest)
  /\ (w <> [] -> after s = ds ++ w ++ newline :: rest ->
      exists s1 s2,
        readWord s = (true, s1, w) /\ after s1 = newline :: rest
        /\ readWord s1 = (true, s2, EOS) /\ after s2 = rest)
  /\ (forall c, w <> [] -> blank c -> after s = ds ++ w ++ c :: rest ->
      exists s1, readWord s = (true, s1, w) /\ after s1 = rest)
  /\ (w <> [] -> after s = ds ++ w ->
      exists s1 s2,
        readWord s = (true, s1, w) /\ after s1 = []
        /\ readWord s1 = (false, s2, []))
  /\ (after s = ds -> exists s1, readWord s = (false, s1, []) /\ after s1 = []).
Proof.
  intros Hds Hw.
  assert (Hnl : forall bef r, readWord_loop (newline :: r) bef []
                              = (Some true, (newline :: bef, r), EOS)).
  { intros bef r. reflexivity. }
  assert (Hend : forall s0 v, Forall plain v -> after s0 = ds ++ v ->
            exists s1 s2,
              readWord s0 = (negb (bool_decide (v = [])), s1, v)
              /\ after s1 = [] /\ readWord s1 = (false, s2, [])).
  { intros s0 v Hv Ha.
    assert (Hloop : readWord_loop (after s0) (before s0) []
                    = (None, (rev v ++ rev ds ++ before s0, []), v)).
    { rewrite Ha, readWord_loop_blanks by done.
      rewrite <- (app_nil_r v) at 1. rewrite readWord_loop_plain by done.
      reflexivity. }
    rewrite readWord_unfold, Hloop. cbv zeta.
    unfold istream_get at 1, good. cbn [after before eofbit failbit].
    destruct (negb (eofbit s0) && negb (failbit s0)) eqn:Hg; cbn [snd].
    - eexists _, _. split; [reflexivity|]. split; reflexivity.
    - eexists _, _. split; [reflexivity|]. split; [reflexivity|].
      rewrite readWord_unfold.
      cbn [after before eofbit failbit readWord_loop].
      unfold istream_get, good. cbn [after before eofbit failbit].
      rewrite andb_false_r. reflexivity. }
  split_and!.
  - intros b s' tok Hr.
    destruct (readWord_shape s s' b tok Hr) as (T1 & T2 & _).
    split; [|exact T2]. intros Hb. apply (T1 Hb).
  - intros Ha. eexists.
    rewrite readWord_unfold, Ha, readWord_loop_blanks, Hnl by done.
    split; reflexivity.
  - intros Hne Ha. eexists _, _.
    rewrite readWord_unfold, Ha, readWord_loop_blanks by done.
    rewrite readWord_loop_plain by done. cbn [readWord_loop app].
    rewrite bool_decide_eq_false_2 by done.
    rewrite bool_decide_eq_true_2 by done.
    split; [reflexivity|]. split; [reflexivity|].
    rewrite readWord_unfold. cbn [after before eofbit failbit].
    rewrite Hnl. split; reflexivity.
  - intros c Hne Hc Ha. eexists.
    rewrite readWord_unfold, Ha, readWord_loop_blanks by done.
    rewrite readWord_loop_plain by done. cbn [readWord_loop app].
    rewrite (blank_not_EOF c Hc). destruct Hc as [Hd Hn]. rewrite Hd.
    rewrite bool_decide_eq_false_2 by done.
    rewrite bool_decide_eq_false_2 by done. split; reflexivity.
  - intros Hne Ha. destruct (Hend s w Hw Ha) as (s1 & s2 & H1 & H2 & H3).
    rewrite bool_decide_eq_false_2 in H1 by done. eauto.
  - intros Ha. rewrite <- (app_nil_r ds) in Ha.
    destruct (Hend s [] (Forall_nil_2 _) Ha) as (s1 & s2 & H1 & H2 & _).
    rewrite bool_decide_eq_true_2 in H1 by done. eauto.
Qed.

End TokenizerContract.

Section TokenizerContractExamples.

Lemma readWord_contract_witness :
  let ds := lit "  " ++ [ascii_of_nat 9] in
  let s := open_stream (ds ++ lit "ab" ++ newline :: lit "cd") in
  Forall blank ds /\ Forall plain (lit "ab")
  /\ (exists s1 s2,
        readWord s = (true, s1, lit "ab") /\ after s1 = newline :: lit "cd"
        /\ readWord s1 = (true, s2, EOS) /\ after s2 = lit "cd")
  /\ (exists s1 s2,
        readWord (open_stream (ds ++ lit "ab")) = (true, s1, lit "ab")
        /\ after s1 = [] /\ readWord s1 = (false, s2, []))
  /\ (exists s1, readWord (open_stream ds) = (false, s1, []) /\ after s1 = [])
  /\ (exists s1, readWord (open_stream (ds ++ newline :: lit "cd")) = (true, s1, EOS)
                 /\ after s1 = lit "cd").
Proof.
  intros ds s.
  assert (Hb : Forall blank ds) by (repeat constructor; discriminate).
  assert (Hw : Forall plain (lit "ab")) by (repeat constructor).
  split; [exact Hb|]. split; [exact Hw|].
  split.
  { apply (proj1 (proj2 (proj2 (readWord_contract s ds (lit "ab") (lit "cd") Hb Hw))));
      [discriminate | reflexivity]. }
  split.
  { apply (proj1 (proj2 (proj2 (proj2 (proj2
             (readWord_contract (open_stream (ds ++ lit "ab")) ds (lit "ab") []
                Hb Hw))))));
      [discriminate | reflexivity]. }
  split.
  { apply (proj2 (proj2 (proj2 (proj2 (proj2
             (readWord_contract (open_stream ds) ds [] [] Hb (Forall_nil_2 _)))))));
      reflexivity. }
  apply (proj1 (proj2 (readWord_contract (open_stream (ds ++ newline :: lit "cd"))
                         ds [] (lit "cd") Hb (Forall_nil_2 _))));
    reflexivity.
Defined.

End TokenizerContractExamples.

Section LineCount.
Context {P : Platform} {C : Constants}.
Hypothesis capacity : 0 < MAX_VOCAB_SIZE < 2^31.

(** ** The count [getLine] returns *)

(** The store and its index do not depend on the discard table. *)
Lemma store_ok_set_pdiscard (d : Dictionary) (pd : list real) :
  store_ok d -> store_ok (set_pdiscard_ pd d).
Proof.
  clear capacity. intros [[Hi Hs Hn] Hc Hw Hl Ho]. split; [split|..]; assumption.
Qed.

Section CountedLine.
Variable d : Dictionary.
Hypothesis Hok : store_ok d.
Hypothesis Hroom : Z.of_nat (length (words_ d)) < MAX_VOCAB_SIZE.
Hypothesis Hpd : model (args_ d) <> sup -> nwords_ d <= Z.of_nat (length (pdiscard_ d)).

(** The loop of [getLine] with the discard decisions made explicit. *)
Lemma getLine_ids_loop_drops : forall tokens l rng,
  0 <= line_ntokens l ->
  line_ntokens l + Z.of_nat (length tokens) < 2^31 ->
  exists l' rng' drops,
    getLine_ids_loop d tokens l rng = Ok (l', rng')
    /\ length drops = length tokens
    /\ line_ntokens l'
       = line_ntokens l + Z.of_nat (length (List.filter (in_vocab d) tokens))
    /\ line_labels l' = line_labels l ++ omap (label_id d) tokens
    /\ line_words l' = line_words l ++ kept_words d tokens drops
    /\ line_hashes l' = line_hashes l ++ kept_hashes d tokens drops
    /\ (forall i tok, tokens !! i = Some tok -> drops !! i = Some true ->
          is_Some (word_id d tok) /\ model (args_ d) <> sup).
Proof.
  pose proof (so_inv _ Hok) as Hinv. pose proof (di_size _ Hinv) as Hsize.
  induction tokens as [|tok tokens IH]; intros l rng Hn Hlen.
  { exists l, rng, []. cbn. rewrite !app_nil_r.
    split; [done|]. split; [done|]. split; [lia|]. do 3 (split; [done|]). done. }
  cbn [length] in Hlen.
  destruct (getId_vocab_entry capacity d tok Hinv Hroom) as (h & Hfind & Hat).
  cbn [getLine_ids_loop]. rewrite Hfind. cbn [bind]. rewrite Hat. cbn [bind].
  cbn [List.filter].
  assert (Hin : in_vocab d tok
                = match vocab_entry d tok with Some _ => true | None => false end).
  { unfold in_vocab. destruct (vocab_entry d tok).
    - apply bool_decide_eq_true_2. eauto.
    - apply bool_decide_eq_false_2. intros [? ?]. discriminate. }
  assert (Hwid : word_id d tok
                 = match vocab_entry d tok with
                   | Some (i, e) => if decide (type e = entry_type.word)
                                    then Some (Z.of_nat i) else None
                   | None => None
                   end) by reflexivity.
  assert (Hlid : label_id d tok
                 = match vocab_entry d tok with
                   | Some (i, e) => if decide (type e = entry_type.label)
                                    then Some (Z.of_nat i - nwords_ d) else None
                   | None => None
                   end) by reflexivity.
  assert (Hth : token_hash d tok
                = match vocab_entry d tok with
                  | Some (_, e) => if decide (type e = entry_type.word)
                                   then Some (int32 (hash tok)) else None
                  | None => Some (int32 (hash tok))
                  end) by reflexivity.
  assert (Hcons : forall b drops,
            kept_words d (tok :: tokens) (b :: drops)
            = (match (if b then None else word_id d tok) with
               | Some x => [x] | None => [] end) ++ kept_words d tokens drops
            /\ kept_hashes d (tok :: tokens) (b :: drops)
            = (match (if in_vocab d tok && b then None else token_hash d tok) with
               | Some x => [x] | None => [] end) ++ kept_hashes d tokens drops).
  { intros b drops. unfold kept_words, kept_hashes.
    cbn [zip zip_with omap list_omap fst snd].
    split; [destruct (if b then None else word_id d tok)
           | destruct (if in_vocab d tok && b then None else token_hash d tok)];
      reflexivity. }
  destruct (vocab_entry d tok) as [[i e]|] eqn:Hv.
  - (* a token of the vocabulary *)
    pose proof Hv as Hv'. apply list_find_Some in Hv' as (He & Hw & _).
    pose proof (lookup_lt_Some _ _ _ He) as Hi.
    destruct (Z.ltb_spec (Z.of_nat i) 0) as [|_]; [lia|].
    assert (Hty : getType d (Z.of_nat i) = Ok (type e)).
    { unfold getType. destruct (Z.leb_spec 0 (Z.of_nat i)); [|lia].
      destruct (Z.ltb_spec (Z.of_nat i) (size_ d)); [|lia]. cbn [assert bind].
      rewrite (at_index_nat _ _ _ He). done. }
    rewrite Hty. cbn [bind].
    rewrite (int32_id (line_ntokens l + 1)) by lia.
    destruct (type e) eqn:Htype.
    + (* a word *)
      assert (Hlt : Z.of_nat i < nwords_ d).
      { rewrite (so_nwords _ Hok).
        apply (grouped_position _ (so_order _ Hok) i e He). done. }
      unfold kept_word. rewrite decide_True by done.
      destruct (uniform rng) as [rand rng1].
      assert (Hdis : exists b, discard d (Z.of_nat i) rand = Ok b
                       /\ (model (args_ d) = sup -> b = false)).
      { unfold discard. destruct (Z.leb_spec 0 (Z.of_nat i)); [|lia].
        destruct (Z.ltb_spec (Z.of_nat i) (nwords_ d)); [|lia]. cbn [assert bind].
        destruct (decide (model (args_ d) = sup)) as [Hs | Hs].
        { exists false. split; reflexivity. }
        destruct (lookup_lt_is_Some_2 (pdiscard_ d) i) as [p Hp];
          [specialize (Hpd Hs); lia|].
        rewrite (at_index_nat _ _ _ Hp). cbn [bind]. eexists. split; [done|].
        intros Hs'. done. }
      destruct Hdis as (b & -> & Hsup). cbn [bind].
      rewrite decide_False by done.
      match goal with |- context [getLine_ids_loop d tokens ?l1 rng1] =>
        destruct (IH l1 rng1) as (l' & rng' & drops & Hrun & Hd & H1 & H2 & H3 & H4 & H5);
          [destruct b; cbn; lia | destruct b; cbn; lia |] end.
      exists l', rng', (b :: drops). split; [exact Hrun|].
      split; [cbn [length]; lia|].
      destruct (Hcons b drops) as [-> ->]. rewrite Hin, Hwid, Hth.
      rewrite decide_True by done.
      split; [destruct b; cbn [line_ntokens negb] in H1; cbn [length]; lia|].
      split.
      { rewrite H2. cbn [omap list_omap]. rewrite Hlid.
        rewrite decide_False by done. destruct b; done. }
      split; [rewrite H3; destruct b; cbn [negb line_words andb app];
              [done | by rewrite <- app_assoc]|].
      split; [rewrite H4; destruct b; cbn [negb line_hashes andb app];
              [done | by rewrite <- app_assoc]|].
      intros [|k] tk Htk Hdk; cbn in Htk, Hdk.
      * inversion Htk; subst tk. inversion Hdk; subst b.
        split; [rewrite Hwid, decide_True by done; eauto|].
        intros Hs. specialize (Hsup Hs). discriminate.
      * apply (H5 k tk Htk Hdk).
    + (* a label *)
      unfold kept_word. rewrite !decide_False by done. cbn [bind].
      rewrite decide_True by done.
      match goal with |- context [getLine_ids_loop d tokens ?l1 rng] =>
        destruct (IH l1 rng) as (l' & rng' & drops & Hrun & Hd & H1 & H2 & H3 & H4 & H5);
          [cbn; lia | cbn; lia |] end.
      cbn [line_ntokens line_labels line_words line_hashes] in H1, H2, H3, H4.
      assert (Hge : nwords_ d <= Z.of_nat i).
      { rewrite (so_nwords _ Hok).
        pose proof (proj2 (grouped_position _ (so_order _ Hok) i e He)) as Hg.
        destruct (Z.lt_ge_cases (Z.of_nat i)
                    (count_type entry_type.word (words_ d))) as [Hc|Hc]; [|lia].
        specialize (Hg Hc). congruence. }
      pose proof (count_type_bound entry_type.word (words_ d)) as Hb.
      pose proof (so_nwords _ Hok) as Hnw.
      rewrite (int32_id (Z.of_nat i - nwords_ d)) in H2 by lia.
      exists l', rng', (false :: drops). split; [exact Hrun|].
      split; [cbn [length]; lia|].
      destruct (Hcons false drops) as [-> ->]. rewrite Hin, Hwid, Hth.
      rewrite !decide_False by done. cbn [andb app].
      split; [cbn [length]; lia|].
      split.
      { rewrite H2. cbn [omap list_omap]. rewrite Hlid.
        rewrite decide_True by done. by rewrite <- app_assoc. }
      do 2 (split; [done|]).
      intros [|k] tk Htk Hdk; cbn in Htk, Hdk; [discriminate|].
      apply (H5 k tk Htk Hdk).
  - (* an unknown token *)
    change (-1 <? 0) with true. cbn iota.
    match goal with |- context [getLine_ids_loop d tokens ?l1 rng] =>
      destruct (IH l1 rng) as (l' & rng' & drops & Hrun & Hd & H1 & H2 & H3 & H4 & H5);
        [cbn; lia | cbn; lia |] end.
    cbn [line_ntokens line_labels line_words line_hashes] in H1, H2, H3, H4.
    exists l', rng', (false :: drops). split; [exact Hrun|].
    split; [cbn [length]; lia|].
    destruct (Hcons false drops) as [-> ->]. rewrite Hin, Hwid, Hth.
    cbn [andb app].
    split; [done|].
    split.
    { rewrite H2. cbn [omap list_omap]. rewrite Hlid. done. }
    split; [done|]. split; [by rewrite H4, <- app_assoc|].
    intros [|k] tk Htk Hdk; cbn in Htk, Hdk; [discriminate|].
    apply (H5 k tk Htk Hdk).
Qed.

End CountedLine.

(** C10.  The count that the id-converting [getLine] returns is the number
    of tokens of the line that are in the vocabulary.  A token that is not
    in the vocabulary is not counted and leaves nothing but its hash, in the
    hash list.  A word of the vocabulary is counted whether or not the
    subsampling test discards it: the count does not depend on the discard
    decisions [drops], which only remove discarded words from the word ids
    and the hash list.  Labels are counted and leave their label id. *)
Theorem getLine_counts_vocabulary (d : Dictionary) (s s' : istream)
    (rng : minstd_rand) (tokens : list str) (n : Z) :
  store_ok d ->
  Z.of_nat (length (words_ d)) < MAX_VOCAB_SIZE ->
  (model (args_ d) <> sup -> nwords_ d <= Z.of_nat (length (pdiscard_ d))) ->
  getLine_tokens d s = Ok (s', tokens, n) ->
  Z.of_nat (length tokens) < 2^31 ->
  exists rng' l drops,
    getLine_ids d s rng = Ok (s', rng', l)
    /\ length drops = length tokens
    /\ line_ntokens l = Z.of_nat (length (List.filter (in_vocab d) tokens))
    /\ line_words l = kept_words d tokens drops
    /\ line_hashes l = kept_hashes d tokens drops
    /\ line_labels l = omap (label_id d) tokens
    /\ (forall i tok, tokens !! i = Some tok -> drops !! i = Some true ->
          is_Some (word_id d tok) /\ model (args_ d) <> sup)
    /\ (forall tok, tok ∈ tokens -> in_vocab d tok = false ->
          int32 (hash tok) ∈ line_hashes l
          /\ word_id d tok = None /\ label_id d tok = None).
Proof.
  intros Hok Hroom Hpd Htok Hlen.
  destruct (getLine_ids_loop_drops d Hok Hroom Hpd tokens empty_line rng)
    as (l & rng' & drops & Hrun & Hd & H1 & H2 & H3 & H4 & H5);
    [cbn; lia | cbn; lia |].
  cbn in H1, H2, H3, H4.
  exists rng', l, drops. unfold getLine_ids. rewrite Htok. cbn [bind]. rewrite Hrun.
  split; [done|]. split; [done|]. split; [lia|]. do 3 (split; [done|]).
  split; [exact H5|].
  intros tok Hin Hv.
  assert (Hnone : vocab_entry d tok = None).
  { unfold in_vocab in Hv. apply bool_decide_eq_false in Hv.
    destruct (vocab_entry d tok); [|done]. exfalso. apply Hv. eauto. }
  split; [|unfold word_id, label_id; rewrite Hnone; done].
  rewrite H4. apply list_elem_of_lookup in Hin as [i Hi].
  destruct (lookup_lt_is_Some_2 drops i) as [b Hb].
  { rewrite Hd. eapply lookup_lt_Some. done. }
  apply list_elem_of_omap. exists (tok, b). split.
  - apply list_elem_of_lookup. exists i. apply lookup_zip_with_Some. eauto.
  - cbn [fst snd]. rewrite Hv. cbn [andb]. unfold token_hash. rewrite Hnone. done.
Qed.

End LineCount.

Section LineCountExamples.
#[local] Existing Instance small_constants.

Lemma skipgram_dict_ok : store_ok skipgram_dict.
Proof.
  change skipgram_dict
    with (set_pdiscard_ (pdiscard_ skipgram_dict) skipgram_counted).
  apply store_ok_set_pdiscard.
  destruct (add_all_dict_inv small_capacity demo_tokens
              (Dictionary_new (default_args sg)) (dict_inv_new _))
    as (d0 & Hd0 & Hinv & _).
  { vm_compute. discriminate. }
  assert (Heq : add_all (Dictionary_new (default_args sg)) demo_tokens
                = Ok skipgram_ingested) by reflexivity.
  rewrite Heq in Hd0. inversion Hd0 as [Hdd]. rewrite <- Hdd in Hinv.
  destruct (threshold_store_ok small_capacity skipgram_ingested 1 1)
    as (d & Hd & Hok & _).
  - apply (di_nodup _ Hinv).
  - reflexivity.
  - vm_compute. discriminate.
  - assert (Heq' : threshold skipgram_ingested 1 1 = Ok skipgram_counted)
      by reflexivity.
    rewrite Heq' in Hd. inversion Hd as [Hdd']. rewrite Hdd'. exact Hok.
Qed.

Lemma getLine_counts_vocabulary_witness :
  let d := skipgram_dict in
  let s := open_stream (lit "a zz b __label__x a b" ++ [newline]) in
  let s' := {| before := rev (lit "a zz b __label__x a b" ++ [newline]);
               after := []; eofbit := false; failbit := false |} in
  let tokens := [lit "a"; lit "zz"; lit "b"; lit "__label__x"; lit "a"; lit "b"; EOS] in
  model (args_ d) = sg
  /\ store_ok d
  /\ Z.of_nat (length (words_ d)) < MAX_VOCAB_SIZE
  /\ (model (args_ d) <> sup -> nwords_ d <= Z.of_nat (length (pdiscard_ d)))
  /\ getLine_tokens d s = Ok (s', tokens, 7)
  /\ Z.of_nat (length tokens) < 2^31
  /\ (exists rng' l drops,
        getLine_ids d s 1 = Ok (s', rng', l)
        /\ length drops = length tokens
        /\ line_ntokens l = Z.of_nat (length (List.filter (in_vocab d) tokens))
        /\ line_words l = kept_words d tokens drops
        /\ line_hashes l = kept_hashes d tokens drops
        /\ line_labels l = omap (label_id d) tokens
        /\ (forall i tok, tokens !! i = Some tok -> drops !! i = Some true ->
              is_Some (word_id d tok) /\ model (args_ d) <> sup)
        /\ (forall tok, tok ∈ tokens -> in_vocab d tok = false ->
              int32 (hash tok) ∈ line_hashes l
              /\ word_id d tok = None /\ label_id d tok = None))
  /\ (exists rng',
        getLine_ids d s 1
        = Ok (s', rng', {| line_words := [0];
                           line_hashes := [int32 (hash (lit "a"));
                                           int32 (hash (lit "zz"))];
                           line_labels := [0];
                           line_ntokens := 6 |}))
  /\ omap (word_id d) tokens = [0; 1; 0; 1; 2].
Proof.
  intros d s s' tokens.
  assert (H3 : model (args_ skipgram_dict) <> sup ->
               nwords_ skipgram_dict <= Z.of_nat (length (pdiscard_ skipgram_dict)))
    by (intros _; vm_compute; discriminate).
  assert (H2 : Z.of_nat (length (words_ skipgram_dict)) < MAX_VOCAB_SIZE)
    by reflexivity.
  assert (H4 : getLine_tokens skipgram_dict s = Ok (s', tokens, 7)) by reflexivity.
  assert (H5 : Z.of_nat (length tokens) < 2^31) by reflexivity.
  split; [reflexivity|]. split; [exact skipgram_dict_ok|]. split; [exact H2|].
  split; [exact H3|]. split; [exact H4|]. split; [exact H5|].
  split.
  { exact (getLine_counts_vocabulary small_capacity skipgram_dict s s' 1 tokens 7
             skipgram_dict_ok H2 H3 H4 H5). }
  split; [eexists; reflexivity | reflexivity].
Defined.

End LineCountExamples.

Section CharNgramRule.
Context {P : Platform} {C : Constants}.

(** ** The character n-grams of a boundary-marked word *)

(** The substrings of "<hello>" for [minn = maxn = 3]. *)
Lemma computeNgrams_sub_hello (d : Dictionary) :
  minn (args_ d) = 3 -> maxn (args_ d) = 3 ->
  snd (computeNgrams_sub d (lit "<hello>") [] [])
  = [lit "<he"; lit "hel"; lit "ell"; lit "llo"; lit "lo>"].
Proof.
  intros Hmin Hmax.
  destruct d as [a ws pd idx sz nw nl nt q qi].
  destruct a as [lab md mn mx bk wn mc mcl t0].
  cbn in Hmin, Hmax. subst mn mx.
  vm_compute. reflexivity.
Qed.


End CharNgramRule.

Section CharNgramRuleExamples.
#[local] Existing Instance small_constants.


End CharNgramRuleExamples.

Section RoundTrip.
Context {P : Platform} {C : Constants}.
Hypothesis capacity : 0 < MAX_VOCAB_SIZE < 2^31.

(** ** Round trip of a finalized dictionary *)

(** [computeNgrams] reads [minn], [maxn], [bucket] and [nwords_] only. *)
Lemma computeNgrams_inner_config d1 d2 i :
  minn (args_ d1) = minn (args_ d2) -> maxn (args_ d1) = maxn (args_ d2) ->
  bucket (args_ d1) = bucket (args_ d2) -> nwords_ d1 = nwords_ d2 ->
  forall fuel rest n ngram ngrams,
    computeNgrams_inner fuel d1 i rest n ngram ngrams
    = computeNgrams_inner fuel d2 i rest n ngram ngrams.
Proof.
  clear capacity.
  intros Hmin Hmax Hb Hn. induction fuel as [|fuel IH]; intros rest n ngram ngrams; [done|].
  destruct rest as [|c rest]; [done|]. cbn [computeNgrams_inner].
  unfold ngram_id. rewrite Hmin, Hmax, Hb, Hn.
  destruct (n <=? uint64 (maxn (args_ d2))); [|done].
  destruct (take_continuation rest (ngram ++ [c])) as [ngram' rest']. apply IH.
Qed.

Lemma computeNgrams_config d1 d2 w ngrams :
  minn (args_ d1) = minn (args_ d2) -> maxn (args_ d1) = maxn (args_ d2) ->
  bucket (args_ d1) = bucket (args_ d2) -> nwords_ d1 = nwords_ d2 ->
  computeNgrams d1 w ngrams = computeNgrams d2 w ngrams.
Proof.
  clear capacity.
  intros Hmin Hmax Hb Hn. unfold computeNgrams. generalize 0 at 1 2.
  revert ngrams. induction w as [|c w IH]; intros ngrams i; [done|].
  cbn [computeNgrams_outer].
  rewrite (computeNgrams_inner_config d1 d2 i Hmin Hmax Hb Hn). apply IH.
Qed.

(** ** Finalization

    [readFromFile] leaves the quantization flag and map alone, and its
    tokens hold no NUL byte. *)
Lemma add_quantidx d w d' :
  add d w = Ok d' -> quant_ d' = quant_ d /\ quantidx_ d' = quantidx_ d.
Proof.
  clear capacity. unfold add. intros H.
  apply bind_Ok in H as (h & _ & H). apply bind_Ok in H as (id & _ & H).
  destruct (id =? -1).
  - apply bind_Ok in H as (ix & _ & H). inversion H. done.
  - apply bind_Ok in H as (e & _ & H). apply bind_Ok in H as (ws & _ & H).
    inversion H. done.
Qed.

Lemma threshold_quantidx d t tl d' :
  threshold d t tl = Ok d' -> quant_ d' = quant_ d /\ quantidx_ d' = quantidx_ d.
Proof.
  clear capacity. unfold threshold. intros H.
  apply bind_Ok in H as ([[[ix sz] nw] nl] & _ & H). inversion H. done.
Qed.

Lemma readFromFile_loop_quantidx : forall fuel d s m d' s',
  readFromFile_loop fuel d s m = Ok (d', s') ->
  quant_ d' = quant_ d /\ quantidx_ d' = quantidx_ d.
Proof.
  clear capacity. induction fuel as [|fuel IH]; intros d s m d' s' H; [done|].
  cbn [readFromFile_loop] in H. destruct (readWord s) as [[b s1] w].
  destruct b; [|inversion H; done].
  apply bind_Ok in H as (d1 & Hadd & H).
  destruct (add_quantidx _ _ _ Hadd) as [A1 A2].
  destruct (3 * MAX_VOCAB_SIZE <? 4 * size_ d1).
  - apply bind_Ok in H as (d2 & Hth & H).
    destruct (threshold_quantidx _ _ _ _ Hth) as [B1 B2].
    destruct (IH _ _ _ _ _ H) as [C1 C2]. split; congruence.
  - destruct (IH _ _ _ _ _ H) as [C1 C2]. split; congruence.
Qed.

Lemma readFromFile_quantidx d s d' s' :
  readFromFile d s = Ok (d', s') ->
  quant_ d' = quant_ d /\ quantidx_ d' = quantidx_ d.
Proof.
  clear capacity. unfold readFromFile. intros H.
  apply bind_Ok in H as ([d1 s1] & Hloop & H).
  apply bind_Ok in H as (d2 & Hth & H).
  apply bind_Ok in H as (d3 & Hpd & H).
  apply bind_Ok in H as (d4 & Hng & H).
  destruct (size_ d4 =? 0); [done|]. inversion H; subst d' s'.
  destruct (readFromFile_loop_quantidx _ _ _ _ _ _ Hloop) as [A1 A2].
  destruct (threshold_quantidx _ _ _ _ Hth) as [B1 B2].
  unfold initTableDiscard in Hpd. apply bind_Ok in Hpd as (pd & _ & Hpd).
  inversion Hpd; subst d3.
  unfold initNgrams in Hng. apply bind_Ok in Hng as (ws & _ & Hng).
  inversion Hng; subst d4. cbn. split; congruence.
Qed.

Lemma plain_not_NUL w : Forall plain w -> NUL ∉ w.
Proof.
  clear capacity. intros Hw Hin. rewrite Forall_forall in Hw.
  destruct (Hw _ Hin) as [Hd _]. discriminate.
Qed.

Lemma read_all_no_NUL : forall fuel s toks s',
  read_all fuel s = (toks, s') -> Forall (fun w => NUL ∉ w) toks.
Proof.
  clear capacity. induction fuel as [|fuel IH]; intros s toks s' H.
  { inversion H. constructor. }
  cbn [read_all] in H. destruct (readWord s) as [[b s1] w] eqn:Hr.
  destruct b; [|inversion H; constructor].
  destruct (read_all fuel s1) as [l s2] eqn:Hrest. inversion H; subst.
  destruct (readWord_shape s s1 true w Hr) as (T1 & _).
  destruct (T1 eq_refl) as [_ [-> | Hp]].
  - constructor; [|eauto]. apply (bool_decide_unpack _). reflexivity.
  - constructor; [|eauto]. by apply plain_not_NUL.
Qed.

(** What [readFromFile] returns is a finalized dictionary (when the loop
    never prunes: the distinct tokens fill at most three quarters of the
    table). *)
Lemma readFromFile_finalized `{!PlatformLaws P} (args : Args) (s : istream)
    (d : Dictionary) (s' : istream) :
  4 * Z.of_nat (length (remove_dups (fst (corpus s)))) <= 3 * MAX_VOCAB_SIZE ->
  Z.of_nat (length (fst (corpus s))) < 2^63 - 1 ->
  readFromFile (Dictionary_new args) s = Ok (d, s') ->
  finalized d /\ quant_ d = false.
Proof.
  intros Hcap Hlen Hrun.
  destruct (readFromFile_quantidx _ _ _ _ Hrun) as [Hq Hqi]. cbn in Hq, Hqi.
  destruct (readFromFile_run capacity args s Hcap Hlen)
    as [[_ Herr] | (d' & Hrun' & Hok & Hargs & Hnt & Hent & _ & Hsub & _)].
  { rewrite Herr in Hrun. discriminate. }
  rewrite Hrun' in Hrun. inversion Hrun; subst d' s'. clear Hrun.
  pose proof (so_cap _ Hok) as Hc.
  pose proof (count_type_bound entry_type.word (words_ d)) as Hbw.
  pose proof (count_type_bound entry_type.label (words_ d)) as Hbl.
  assert (Hnul : Forall (fun w => NUL ∉ w) (fst (corpus s))).
  { unfold corpus. destruct (read_all (S (length (after s))) s) as [toks s1] eqn:Hr.
    apply (read_all_no_NUL _ _ _ _ Hr). }
  rewrite Forall_forall in Hnul.
  split; [|exact Hq]. split.
  - apply (di_size _ (so_inv _ Hok)).
  - exact Hc.
  - apply Forall_forall. intros e He.
    destruct (Hent e He) as (Hw & _ & Hcount & _).
    pose proof (occurrences_bound (word e) (fst (corpus s))) as Hb.
    split; [apply (Hnul _ Hw) | lia].
  - exact Hsub.
  - rewrite (so_nwords _ Hok). unfold int32_range. lia.
  - rewrite (so_nlabels _ Hok). unfold int32_range. lia.
  - lia.
  - rewrite Hqi. apply map_Forall_empty.
  - rewrite Hqi. rewrite map_size_empty. lia.
Qed.


End RoundTrip.

Section RoundTripExamples.
#[local] Existing Instance small_constants.

Lemma corpus_dict_finalized : finalized corpus_dict.
Proof.
  split.
  - reflexivity.
  - vm_compute. discriminate.
  - repeat (apply Forall_cons; split;
            [split; [apply (bool_decide_unpack _); reflexivity
                    | split; [discriminate | reflexivity]]|]).
    apply Forall_nil_2.
  - intros [|[|[|[|[|p]]]]] e He; inversion He; vm_compute; reflexivity.
  - split; [discriminate | reflexivity].
  - split; [discriminate | reflexivity].
  - split; [discriminate | reflexivity].
  - change (quantidx_ corpus_dict) with (∅ : gmap Z Z). apply map_Forall_empty.
  - reflexivity.
Qed.


End RoundTripExamples.

Section RoundTripAfterPrune.
#[local] Existing Instance small_constants.


End RoundTripAfterPrune.

Section SupervisedLine.
Context {P : Platform} {C : Constants}.
Hypothesis capacity : 0 < MAX_VOCAB_SIZE < 2^31.

(** ** The word n-grams of a supervised line *)


End SupervisedLine.

Section SupervisedLineExamples.
#[local] Existing Instance small_constants.



End SupervisedLineExamples.
